(** * VFVS workunit runner ([tools/templates/vfvs_run.py]): a shallow embedding

    The runner is a six-stage pipeline of worker processes connected by
    queues.  Every stage is a loop [item = queue.get(); ...] whose body is a
    function of the item and of the worker's local state; the embedding gives
    that body for each stage as a Rocq function, with

    - Python dicts whose iteration order is observable as insertion-ordered
      association lists ([dict]), and dicts that are only looked up as
      [gmap]s;
    - Python exceptions as the [Raise] case of [result];
    - items put on a queue as lists in the order of the [put] calls;
    - the file system as the log of the moves and deletions the code issues.
*)

From Stdlib Require Import ZArith QArith Qabs Ascii String.
From stdpp Require Import gmap strings list fin_maps pretty.

Close Scope Q_scope.
Open Scope Z_scope.

(** ** Exceptions *)

Inductive exn : Type :=
| KeyError (key : string)
| TypeError (msg : string)
| ValueError (msg : string)
| StatisticsError (msg : string)
| IndexError (msg : string)
| OSError (msg : string)
| OverflowError (msg : string)
| RuntimeError (msg : string).

Inductive result (A : Type) : Type :=
| Ok (a : A)
| Raise (e : exn).

Arguments Ok {A} a.
Arguments Raise {A} e.

#[global] Instance result_ret : MRet result := fun A a => Ok a.
#[global] Instance result_bind : MBind result :=
  fun A B f m => match m with Ok a => f a | Raise e => Raise e end.

(** [d[k]] on a dict: a missing key raises [KeyError]. *)
Definition getitem {A} (o : option A) (k : string) : result A :=
  match o with Some a => Ok a | None => Raise (KeyError k) end.

(** ** Insertion-ordered dicts with string keys *)

Definition dict (V : Type) : Type := list (string * V).

Fixpoint dict_get {V} (k : string) (d : dict V) : option V :=
  match d with
  | [] => None
  | (k', v) :: d' => if decide (k = k') then Some v else dict_get k d'
  end.

(** [d[k] = v]: an existing key keeps its position, a new one goes last. *)
Fixpoint dict_set {V} (k : string) (v : V) (d : dict V) : dict V :=
  match d with
  | [] => [(k, v)]
  | (k', v') :: d' =>
      if decide (k = k') then (k, v) :: d' else (k', v') :: dict_set k v d'
  end.

(** [d.pop(k, None)] *)
Fixpoint dict_pop {V} (k : string) (d : dict V) : dict V :=
  match d with
  | [] => []
  | (k', v') :: d' =>
      if decide (k = k') then d' else (k', v') :: dict_pop k d'
  end.

Definition dict_keys {V} (d : dict V) : list string := d.*1.

(** ** Paths *)

(** [s.split(c)] for a separator of one character. *)
Fixpoint split_on (c : ascii) (s : string) : list string :=
  match s with
  | EmptyString => [EmptyString]
  | String a s' =>
      if decide (a = c) then EmptyString :: split_on c s'
      else match split_on c s' with
           | [] => [String a EmptyString]
           | w :: ws => String a w :: ws
           end
  end.

(** [c.join(l)] for a separator of one character. *)
Fixpoint join_with (c : ascii) (l : list string) : string :=
  match l with
  | [] => EmptyString
  | x :: l' =>
      match l' with
      | [] => x
      | _ => x +:+ String c (join_with c l')
      end
  end.

(** [s.startswith("/")] and [s.endswith("/")] *)
Definition starts_with_sep (s : string) : bool :=
  match s with
  | String c _ => bool_decide (c = "/"%char)
  | EmptyString => false
  end.

Fixpoint ends_with_sep (s : string) : bool :=
  match s with
  | EmptyString => false
  | String c s' =>
      match s' with
      | EmptyString => bool_decide (c = "/"%char)
      | _ => ends_with_sep s'
      end
  end.

(** [os.path.join(a, b)]: an absolute [b] replaces [a]; otherwise [b] is
    appended, after a separator unless [a] is empty or ends with one.
    [os.path.join(a, b, c)] is [path_join (path_join a b) c]. *)
Definition path_join (a b : string) : string :=
  if starts_with_sep b then b
  else if bool_decide (a = EmptyString) || ends_with_sep a then a +:+ b
  else a +:+ "/" +:+ b.

(** [s.lstrip("/")] *)
Fixpoint lstrip_sep (s : string) : string :=
  match s with
  | EmptyString => EmptyString
  | String c s' => if decide (c = "/"%char) then lstrip_sep s' else s
  end.

(** [str(Path(s))] on a POSIX system: the root is [//] for exactly two
    leading separators and [/] for any other number of them; empty
    components and [.] components are dropped; what is left is joined by
    single separators, and a path without root and components is [.]. *)
Definition pure_path (s : string) : string :=
  let rel := lstrip_sep s in
  let lead := (String.length s - String.length rel)%nat in
  let root :=
    if decide (lead = 0%nat) then EmptyString
    else if decide (lead = 2%nat) then "//" else "/" in
  let parts :=
    filter (fun x => x ≠ EmptyString ∧ x ≠ ".") (split_on "/" rel) in
  if decide (lead = 0%nat ∧ parts = []) then "."
  else root +:+ join_with "/" parts.

(** [str(Path(a) / b)] *)
Definition path_div (a b : string) : string := pure_path (path_join a b).

(** ** Items on the summary queue *)

Record log_entry : Type := {
  log_base_collection_key : string;
  log_collection_key : string;
  log_ligand_key : string;
  log_reason : string
}.

(** A docking item as built by [submit_ligand_for_docking] and completed by
    the executor.  Keys that only the backends read ([config_path],
    [program_long], [tools_path], [threads_per_docking]) are left out; keys
    that exist only after some stage has set them are options ([None]: the
    key is absent). *)
Record docking_item : Type := {
  ligand_key : string;
  ligand_path : string;
  scenario_key : string;
  collection_key : string;
  base_collection_key : string;
  program : string;
  input_files_dir : string;
  timeout : Z;
  temp_dir : string;
  attrs : dict string;
  output_dir : string;
  status : option string;
  score : option Q;
  uuid : option string;
  tmp_run_dir : option string;
  log : option log_entry
}.

Record download_log : Type := {
  dl_base_collection_key : string;
  dl_reason : string;
  dl_dockings : Z
}.

(** The [type] field of a summary item selects one of four shapes:
    ["delete"], ["download_failed"], ["skip"] and ["docking_complete"]. *)
Inductive summary_item : Type :=
| item_delete (item_temp_dir : string) (item_base_collection_key : string)
         (item_expected_completions : Z)
| item_download_failed (item_log : download_log)
| item_skip (item_log : log_entry)
| item_docking_complete (items : list docking_item) (execution_type : string)
                   (batch_scenario_key : string) (batch_uuid : option string)
                   (batch_output_dir : option string).

(** ** Aggregator state *)

Record completion : Type := {
  expected_completions : Z;
  current_completions : Z;
  completion_temp_dir : string
}.

Record overview : Type := {
  total_dockings : Z;
  dockings_status : gmap string Z;
  skipped_ligands : Z;
  skipped_ligand_list : list log_entry;
  failed_list : list log_entry;
  failed_downloads : Z;
  failed_downloads_log : list download_log;
  failed_downloads_dockings : Z
}.

(** A row of [summary_data[scenario_key]] while the aggregator runs. *)
Record summary_row : Type := {
  row_ligand : string;
  row_collection_key : string;
  row_scenario : string;
  row_scores : list Q;
  row_attrs : dict string
}.

(** A directory the aggregator moves entries into: the final directory of a
    scenario, [<temp_dir>/output/<scenario_key>/<subjob_id>], for which the
    scenario key stands, or the directory [batch_exec/<uuid>] under it. *)
Inductive place : Type :=
| final_dir (scenario : string)
| batch_dir (scenario : string) (batch : string).

#[global] Instance place_eq_dec : EqDecision place.
Proof. solve_decision. Defined.

(** What the aggregator does to the file system.  [entry_moved p n] is one
    [shutil.move] of an entry called [n] into the directory [p].
    [collection_moved k d ss] ends the body of the [if] of
    [check_for_completion_of_collection_key] for key [k]: for every
    scenario key of [ss], in order, everything under [d/output/<scenario>]
    was moved to that scenario's final directory, and then [d] was removed.
    [batch_logs_moved] ends [move_batch_logs] in the same way. *)
Inductive fs_effect : Type :=
| entry_moved (dest : place) (name : string)
| collection_moved (key : string) (dir : string) (scenarios : list string)
| batch_logs_moved (scenario : string) (batch : string) (dir : string).

(** The disk as the aggregator finds it.  The docking workers write to it
    while the aggregator runs, so an answer depends on the moment, given by
    the log of what the aggregator has done so far.
    - [fs_iterdir fs d]: the names of the entries of directory [d], as
      [Path.iterdir] gives them, or what listing [d] raises;
    - [fs_move fs src p]: what moving [src] to a free name in [p] raises,
      if anything;
    - [fs_rmtree fs d]: what [shutil.rmtree(d)] raises, if anything. *)
Record file_system : Type := {
  fs_iterdir : list fs_effect → string → result (list string);
  fs_move : list fs_effect → string → place → result unit;
  fs_rmtree : list fs_effect → string → result unit
}.

Record summary_state : Type := {
  overview_data : overview;
  summary_data : gmap string (dict summary_row);
  dockings_processed : Z;
  collection_completions : gmap string completion;
  fs_log : list fs_effect
}.

(** ** [shutil.move] into a directory *)

(** The names of the entries moved into [p] so far. *)
Definition moved_to (p : place) (fs : list fs_effect) : list string :=
  omap (fun e => match e with
                 | entry_moved p' n => if decide (p' = p) then Some n else None
                 | _ => None
                 end) fs.

Definition show_place (p : place) : string :=
  match p with
  | final_dir scenario => scenario
  | batch_dir scenario batch =>
      path_div (path_div scenario "batch_exec") batch
  end.

(** [shutil.move(str(dir_file), f"{dest}/")] for the entry [name] of
    [src_dir]: the entry keeps its name, and [shutil.Error] (an [OSError])
    is raised when [dest] already holds an entry of that name. *)
Definition shutil_move (disk : file_system) (src_dir name : string)
    (dest : place) (fs : list fs_effect) : result (list fs_effect) :=
  if decide (name ∈ moved_to dest fs) then
    Raise (OSError ("Destination path '" +:+ path_join (show_place dest) name
                    +:+ "' already exists"))
  else
    _ ← fs_move disk fs (path_div src_dir name) dest;
    Ok (fs ++ [entry_moved dest name]).

Fixpoint move_entries (disk : file_system) (src_dir : string)
    (dest : place) (names : list string) (fs : list fs_effect)
  : result (list fs_effect) :=
  match names with
  | [] => Ok fs
  | name :: rest =>
      fs ← shutil_move disk src_dir name dest fs;
      move_entries disk src_dir dest rest fs
  end.

(** [for dir_file in src.iterdir(): shutil.move(str(dir_file), f"{dest}/")] *)
Definition move_directory (disk : file_system) (src_dir : string)
    (dest : place) (fs : list fs_effect) : result (list fs_effect) :=
  names ← fs_iterdir disk fs src_dir;
  move_entries disk src_dir dest names fs.

(** ** [check_for_completion_of_collection_key] *)

(** Lines 664-667: the loop over [scenario_directories]. *)
Fixpoint move_outputs (disk : file_system) (temp_dir : string)
    (scenario_directories : list string) (fs : list fs_effect)
  : result (list fs_effect) :=
  match scenario_directories with
  | [] => Ok fs
  | scenario_key :: rest =>
      let scenario_directory :=
        path_div (path_div temp_dir "output") scenario_key in
      fs ← move_directory disk scenario_directory (final_dir scenario_key) fs;
      move_outputs disk temp_dir rest fs
  end.

Definition check_for_completion_of_collection_key (disk : file_system)
    (collection_completions : gmap string completion)
    (fs : list fs_effect) (collection_key : string)
    (scenario_directories : list string)
  : result (gmap string completion * list fs_effect) :=
  c ← getitem (collection_completions !! collection_key) collection_key;
  if decide (current_completions c = expected_completions c) then
    fs ← move_outputs disk (completion_temp_dir c) scenario_directories fs;
    _ ← fs_rmtree disk fs (completion_temp_dir c);
    Ok (delete collection_key collection_completions,
        fs ++ [collection_moved collection_key (completion_temp_dir c)
                                scenario_directories])
  else Ok (collection_completions, fs).

(** ** [summary_process]: the loop body, one summary item at a time *)

Definition initial_overview : overview := {|
  total_dockings := 0;
  dockings_status := {[ "success" := 0; "failed" := 0 ]};
  skipped_ligands := 0;
  skipped_ligand_list := [];
  failed_list := [];
  failed_downloads := 0;
  failed_downloads_log := [];
  failed_downloads_dockings := 0
|}.

Definition initial_state (scenario_keys : list string) : summary_state := {|
  overview_data := initial_overview;
  summary_data :=
    foldl (fun m k => <[k := []]> m) ∅ scenario_keys;
  dockings_processed := 0;
  collection_completions := ∅;
  fs_log := []
|}.

Definition set_overview (st : summary_state) (o : overview) : summary_state :=
  {| overview_data := o; summary_data := summary_data st;
     dockings_processed := dockings_processed st;
     collection_completions := collection_completions st;
     fs_log := fs_log st |}.

Definition set_completions (st : summary_state)
    (cf : gmap string completion * list fs_effect) : summary_state :=
  {| overview_data := overview_data st; summary_data := summary_data st;
     dockings_processed := dockings_processed st;
     collection_completions := cf.1;
     fs_log := cf.2 |}.

Definition set_summary_data (st : summary_state)
    (sd : gmap string (dict summary_row)) : summary_state :=
  {| overview_data := overview_data st; summary_data := sd;
     dockings_processed := dockings_processed st;
     collection_completions := collection_completions st;
     fs_log := fs_log st |}.

(** Lines 760-761: the two counters of one task. *)
Definition count_docking (o : overview) (st : string) : result overview :=
  n ← getitem (dockings_status o !! st) st;
  Ok {| total_dockings := total_dockings o + 1;
        dockings_status := <[st := n + 1]> (dockings_status o);
        skipped_ligands := skipped_ligands o;
        skipped_ligand_list := skipped_ligand_list o;
        failed_list := failed_list o;
        failed_downloads := failed_downloads o;
        failed_downloads_log := failed_downloads_log o;
        failed_downloads_dockings := failed_downloads_dockings o |}.

Definition log_failure (o : overview) (l : log_entry) : overview :=
  {| total_dockings := total_dockings o;
     dockings_status := dockings_status o;
     skipped_ligands := skipped_ligands o;
     skipped_ligand_list := skipped_ligand_list o;
     failed_list := failed_list o ++ [l];
     failed_downloads := failed_downloads o;
     failed_downloads_log := failed_downloads_log o;
     failed_downloads_dockings := failed_downloads_dockings o |}.

(** Lines 763-776: the score table of a successful task. *)
Definition record_score (sd : gmap string (dict summary_row))
    (it : docking_item) : result (gmap string (dict summary_row)) :=
  rows ← getitem (sd !! scenario_key it) (scenario_key it);
  sc ← getitem (score it) "score";
  match dict_get (ligand_key it) rows with
  | None =>
      Ok (<[scenario_key it :=
              dict_set (ligand_key it)
                {| row_ligand := ligand_key it;
                   row_collection_key := collection_key it;
                   row_scenario := scenario_key it;
                   row_scores := [sc];
                   row_attrs := attrs it |} rows]> sd)
  | Some r =>
      Ok (<[scenario_key it :=
              dict_set (ligand_key it)
                {| row_ligand := row_ligand r;
                   row_collection_key := row_collection_key r;
                   row_scenario := row_scenario r;
                   row_scores := row_scores r ++ [sc];
                   row_attrs := row_attrs r |} rows]> sd)
  end.

(** Lines 784-792: completion accounting of one task. *)
Definition count_completion (disk : file_system)
    (scenario_directory : list string)
    (st : summary_state) (key : string) : result summary_state :=
  match collection_completions st !! key with
  | Some c =>
      let cc := <[key := {| expected_completions := expected_completions c;
                            current_completions := current_completions c + 1;
                            completion_temp_dir := completion_temp_dir c |}]>
                  (collection_completions st) in
      cf ← check_for_completion_of_collection_key disk cc (fs_log st) key
             scenario_directory;
      Ok (set_completions st cf)
  | None =>
      Ok (set_completions st
            (<[key := {| expected_completions := -1;
                         current_completions := 1;
                         completion_temp_dir := "" |}]>
               (collection_completions st), fs_log st))
  end.

(** Lines 759-792: the body of [for single_item in item['items']]. *)
Definition single_item_step (disk : file_system)
    (scenario_directory : list string)
    (st : summary_state) (single_item : docking_item) : result summary_state :=
  s ← getitem (status single_item) "status";
  o ← count_docking (overview_data st) s;
  let st := set_overview st o in
  st ← (if decide (s = "success") then
          sd ← record_score (summary_data st) single_item;
          Ok (set_summary_data st sd)
        else
          l ← getitem (log single_item) "log";
          Ok (set_overview st (log_failure (overview_data st) l)));
  count_completion disk scenario_directory st
    (base_collection_key single_item).

Fixpoint items_loop (disk : file_system) (scenario_directory : list string)
    (st : summary_state) (items : list docking_item) : result summary_state :=
  match items with
  | [] => Ok st
  | single_item :: rest =>
      st' ← single_item_step disk scenario_directory st single_item;
      items_loop disk scenario_directory st' rest
  end.

(** [move_batch_logs] *)
Definition move_batch_logs (disk : file_system)
    (scenario_directories : list string)
    (st : summary_state) (sk : string) (u : option string)
    (dir : option string) : result summary_state :=
  if decide (sk ∈ scenario_directories) then
    u ← getitem u "uuid";
    dir ← getitem dir "output_dir";
    fs ← move_directory disk (pure_path dir) (batch_dir sk u) (fs_log st);
    _ ← fs_rmtree disk fs dir;
    Ok (set_completions st
          (collection_completions st, fs ++ [batch_logs_moved sk u dir]))
  else Raise (KeyError sk).

(** Lines 732-800: one iteration of the [while True] loop on a summary item
    that is not the stop marker. *)
Definition summary_step (disk : file_system)
    (scenario_directory : list string)
    (st : summary_state) (item : summary_item) : result summary_state :=
  match item with
  | item_delete dir key expected =>
      let cc :=
        match collection_completions st !! key with
        | Some c =>
            <[key := {| expected_completions := expected;
                        current_completions := current_completions c;
                        completion_temp_dir := dir |}]>
              (collection_completions st)
        | None =>
            <[key := {| expected_completions := expected;
                        current_completions := 0;
                        completion_temp_dir := dir |}]>
              (collection_completions st)
        end in
      cf ← check_for_completion_of_collection_key disk cc (fs_log st) key
             scenario_directory;
      Ok (set_completions st cf)
  | item_download_failed l =>
      let o := overview_data st in
      Ok (set_overview st
            {| total_dockings := total_dockings o;
               dockings_status := dockings_status o;
               skipped_ligands := skipped_ligands o;
               skipped_ligand_list := skipped_ligand_list o;
               failed_list := failed_list o;
               failed_downloads := failed_downloads o + 1;
               failed_downloads_log := failed_downloads_log o ++ [l];
               failed_downloads_dockings :=
                 failed_downloads_dockings o + dl_dockings l |})
  | item_skip l =>
      let o := overview_data st in
      Ok (set_overview st
            {| total_dockings := total_dockings o;
               dockings_status := dockings_status o;
               skipped_ligands := skipped_ligands o + 1;
               skipped_ligand_list := skipped_ligand_list o ++ [l];
               failed_list := failed_list o;
               failed_downloads := failed_downloads o;
               failed_downloads_log := failed_downloads_log o;
               failed_downloads_dockings := failed_downloads_dockings o |})
  | item_docking_complete items et sk u dir =>
      let st :=
        {| overview_data := overview_data st;
           summary_data := summary_data st;
           dockings_processed := dockings_processed st + 1;
           collection_completions := collection_completions st;
           fs_log := fs_log st |} in
      st ← items_loop disk scenario_directory st items;
      if decide (et = "batch") then
        move_batch_logs disk scenario_directory st sk u dir
      else Ok st
  end.

(** The items taken from the queue before the stop marker. *)
Fixpoint summary_loop (disk : file_system)
    (scenario_directory : list string)
    (st : summary_state) (queue : list summary_item) : result summary_state :=
  match queue with
  | [] => Ok st
  | item :: rest =>
      st' ← summary_step disk scenario_directory st item;
      summary_loop disk scenario_directory st' rest
  end.

(** ** Configuration ([ctx]) *)

(** An entry of [ctx['main_config']['docking_scenarios']], as built by
    [process_config]; [replicas] and [batchsizes] are the results of
    [int(...)]. *)
Record scenario : Type := {
  key : string;
  scenario_program : string;
  replicas : Z;
  batchsizes : Z
}.

(** The part of [ctx] the stages read.  [docking_scenarios] is a dict: it is
    iterated in insertion order and its keys are distinct. *)
Record context : Type := {
  docking_scenarios : dict scenario;
  summary_formats : list string;
  run_atom_check : Z;
  dynamic_tranche_filtering : Z;
  program_timeout : Z;
  ctx_temp_dir : string
}.

(** [scenario_directory] of [summary_process]: one final output directory per
    configured scenario, in configuration order; the directory itself is
    [<temp_dir>/output/<scenario_key>/<subjob_id>], so the key stands for it. *)
Definition scenario_directory (ctx : context) : list string :=
  dict_keys (docking_scenarios ctx).

(** ** Reports *)

(** Values stored in a summary row once it is a plain dict. *)
Inductive cell : Type :=
| cell_str (s : string)
| cell_num (q : Q)
| cell_scores (l : list Q)
| cell_attrs (d : dict string).

(** What goes on the upload queue: the artifact and what it holds. *)
Inductive upload_item : Type :=
| upload_overview (o : overview)
| upload_parquet (scenario : string) (rows : dict (dict cell))
| upload_csv (scenario : string) (header : list string)
             (lines : list (list cell))
| upload_archive (scenario : string).

(** A score is a Python float: a finite one is an IEEE 754 binary64 number,
    that is a rational [m * 2^e] with [|m| < 2^53] and [-1074 <= e <= 971],
    and it is held as that rational. *)

(** [2^e] for any integer [e]. *)
Definition pow2 (e : Z) : Q :=
  Qmake (2 ^ Z.max 0 e) (Z.to_pos (2 ^ Z.max 0 (- e))).

(** The integer nearest to [num / den] for a positive [den]; the even one
    of the two nearest when [num / den] lies half-way between them. *)
Definition round_half_even (num den : Z) : Z :=
  let q := num / den in
  match 2 * (num mod den) ?= den with
  | Lt => q
  | Gt => q + 1
  | Eq => if Z.even q then q else q + 1
  end.

(** The largest [k] with [2^k <= a / d], for positive [a] and [d]. *)
Definition log2_floor (a d : Z) : Z :=
  let k := Z.log2 a - Z.log2 d in
  if decide (d * 2 ^ Z.max 0 k ≤ a * 2 ^ Z.max 0 (- k)) then k else k - 1.

(** [float(x)] for a [Fraction] [x], the true division of its numerator by
    its denominator: the binary64 number nearest to [x], the one with the
    even significand when two are equally near; [OverflowError] when that
    is [2^1024] or more in magnitude.  The significand [m] is [x / 2^e]
    rounded to an integer, for the exponent [e] that leaves 53 bits, or
    [-1074] for a subnormal result. *)
Definition float_of_fraction (x : Q) : result Q :=
  let a := Z.abs (Qnum x) in
  let d := Zpos (Qden x) in
  if decide (a = 0) then Ok 0%Q
  else
    let e := Z.max (log2_floor a d - 52) (-1074) in
    let m := round_half_even (a * 2 ^ Z.max 0 (- e)) (d * 2 ^ Z.max 0 e) in
    if decide (2 ^ 1024 ≤ m * 2 ^ Z.max 0 e) then
      Raise (OverflowError "integer division result too large for a float")
    else Ok (Qred (Qmult (inject_Z (Z.sgn (Qnum x) * m)) (pow2 e))).

(** [statistics.mean] on floats: the exact sum of the data divided by their
    number, converted to a float; empty data raises. *)
Definition mean (scores : list Q) : result Q :=
  match scores with
  | [] => Raise (StatisticsError "mean requires at least one data point")
  | _ => float_of_fraction
           (Qdiv (foldl Qplus (0%Q) scores)
                 (inject_Z (Z.of_nat (length scores))))
  end.

(** The builtin [min]: the first smallest element; an empty list raises. *)
Definition py_min (scores : list Q) : result Q :=
  match scores with
  | [] => Raise (ValueError "min() arg is an empty sequence")
  | x :: rest =>
      Ok (foldl (fun m y => if Qle_bool m y then m else y) x rest)
  end.

(** [s.split("_")] *)
Fixpoint split_underscore (s : string) : list string :=
  match s with
  | EmptyString => [EmptyString]
  | String c s' =>
      if decide (c = "_"%char) then EmptyString :: split_underscore s'
      else match split_underscore s' with
           | [] => [String c EmptyString]
           | w :: ws => String c w :: ws
           end
  end.

Fixpoint letters (s : string) : list string :=
  match s with
  | EmptyString => []
  | String c s' => String c EmptyString :: letters s'
  end.

(** [for index, x in enumerate(xs): d[f"{prefix}{index}"] = g(x)] *)
Fixpoint set_indexed {A} (prefix : string) (g : A → cell) (index : nat)
    (xs : list A) (d : dict cell) : dict cell :=
  match xs with
  | [] => d
  | x :: xs' =>
      set_indexed prefix g (S index) xs'
        (dict_set (prefix +:+ pretty index) (g x) d)
  end.

(** Lines 895-898: the [attr_*] keys of a row and the columns they add. *)
Fixpoint set_attrs (attrs : dict string) (d : dict cell)
    (csv_ordering : list string) : dict cell * list string :=
  match attrs with
  | [] => (d, csv_ordering)
  | (attr_name, attr_value) :: attrs' =>
      let k := "attr_" +:+ attr_name in
      set_attrs attrs' (dict_set k (cell_str attr_value) d)
        (if decide (k ∈ csv_ordering) then csv_ordering
         else csv_ordering ++ [k])
  end.

(** The dict a [summary_row] is, as created at line 767. *)
Definition row_dict (r : summary_row) : dict cell :=
  [ ("ligand", cell_str (row_ligand r));
    ("collection_key", cell_str (row_collection_key r));
    ("scenario", cell_str (row_scenario r));
    ("scores", cell_scores (row_scores r));
    ("attrs", cell_attrs (row_attrs r)) ].

Definition get_scores (d : dict cell) : result (list Q) :=
  c ← getitem (dict_get "scores" d) "scores";
  match c with
  | cell_scores l => Ok l
  | _ => Raise (TypeError "scores")
  end.

Definition get_attr_dict (d : dict cell) : result (dict string) :=
  c ← getitem (dict_get "attrs" d) "attrs";
  match c with
  | cell_attrs a => Ok a
  | _ => Raise (TypeError "attrs")
  end.

Definition get_str (k : string) (d : dict cell) : result string :=
  c ← getitem (dict_get k d) k;
  match c with
  | cell_str s => Ok s
  | _ => Raise (TypeError k)
  end.

(** Lines 883-906: the body of the loop over the rows of one scenario.  The
    loop carries [csv_ordering] and [max_scores]. *)
Definition reduce_row (summary_value : dict cell)
    (csv_ordering : list string) (max_scores : nat)
  : result (dict cell * list string * nat) :=
  scores ← get_scores summary_value;
  let max_scores :=
    if decide (max_scores < length scores)%nat then length scores
    else max_scores in
  let d := set_indexed "score_" cell_num 0 scores summary_value in
  avg ← mean scores;
  let d := dict_set "score_average" (cell_num avg) d in
  lo ← py_min scores;
  let d := dict_set "score_min" (cell_num lo) d in
  let d := dict_pop "scores" d in
  a ← get_attr_dict d;
  let '(d, csv_ordering) := set_attrs a d csv_ordering in
  let d := dict_pop "attrs" d in
  ck ← get_str "collection_key" d;
  match split_underscore ck with
  | [collection_name; collection_number] =>
      Ok (set_indexed "tranche_" cell_str 0 (letters collection_name) d,
          csv_ordering, max_scores)
  | _ => Raise (ValueError "not enough or too many values to unpack")
  end.

Fixpoint reduce_rows (rows : dict (dict cell)) (csv_ordering : list string)
    (max_scores : nat) : result (dict (dict cell) * list string * nat) :=
  match rows with
  | [] => Ok ([], csv_ordering, max_scores)
  | (summary_key, summary_value) :: rest =>
      '(d, csv_ordering, max_scores) ←
        reduce_row summary_value csv_ordering max_scores;
      '(rest', csv_ordering, max_scores) ←
        reduce_rows rest csv_ordering max_scores;
      Ok ((summary_key, d) :: rest', csv_ordering, max_scores)
  end.

(** [for index in range(max_scores): csv_ordering.append(f"score_{index}")] *)
Definition score_columns (max_scores : nat) : list string :=
  (fun index => "score_" +:+ pretty index) <$> seq 0 max_scores.

(** [str(summary_value.get(key, ""))] for every key of [csv_ordering]; the
    cell is kept rather than its rendering. *)
Definition ordered_summary_list (csv_ordering : list string)
    (summary_value : dict cell) : list cell :=
  (fun k => default (cell_str "") (dict_get k summary_value)) <$> csv_ordering.

(** Lines 877-957: the body of the scenario loop of [generate_summary_file]
    after the emptiness test. *)
Definition summarize_scenario (ctx : context) (scenario_key : string)
    (rows : dict summary_row) : result (list upload_item) :=
  let csv_ordering :=
    ["ligand"; "collection_key"; "scenario"; "score_average"; "score_min"] in
  '(reduced, csv_ordering, max_scores) ←
    reduce_rows (prod_map id row_dict <$> rows) csv_ordering 0%nat;
  let parquet :=
    if decide ("parquet" ∈ summary_formats ctx)
    then [upload_parquet scenario_key reduced] else [] in
  let csv :=
    if decide ("csv.gz" ∈ summary_formats ctx) then
      let csv_ordering := csv_ordering ++ score_columns max_scores in
      [upload_csv scenario_key csv_ordering
         (ordered_summary_list csv_ordering <$> reduced.*2)]
    else [] in
  Ok (parquet ++ csv).

(** [generate_summary_file]: the uploads put on the queue, and how the
    function ends.  The scenario loop stops at the first scenario without
    rows ([break]). *)
Fixpoint generate_summary_file_loop (ctx : context)
    (summary_data : gmap string (dict summary_row))
    (scenario_keys : list string) : list upload_item * result unit :=
  match scenario_keys with
  | [] => ([], Ok ())
  | scenario_key :: rest =>
      match summary_data !! scenario_key with
      | None => ([], Raise (KeyError scenario_key))
      | Some rows =>
          if decide (length rows = 0%nat) then ([], Ok ())
          else
            match summarize_scenario ctx scenario_key rows with
            | Raise e => ([], Raise e)
            | Ok ups =>
                let '(ups', r) :=
                  generate_summary_file_loop ctx summary_data rest in
                (ups ++ ups', r)
            end
      end
  end.

Definition generate_summary_file (ctx : context)
    (summary_data : gmap string (dict summary_row))
  : list upload_item * result unit :=
  generate_summary_file_loop ctx summary_data
    (dict_keys (docking_scenarios ctx)).

(** [generate_output_archives]: one archive per entry of
    [scenario_directories]. *)
Definition generate_output_archives (scenario_directories : list string)
  : list upload_item :=
  upload_archive <$> scenario_directories.

Definition generate_overview_file (overview_data : overview)
  : list upload_item :=
  [upload_overview overview_data].

(** Lines 715-729: what [summary_process] does on the stop marker. *)
Definition summary_stop (ctx : context) (st : summary_state)
  : list upload_item * result unit :=
  let ov := generate_overview_file (overview_data st) in
  if decide (0 < dockings_processed st) then
    match generate_summary_file ctx (summary_data st) with
    | (ups, Raise e) => (ov ++ ups, Raise e)
    | (ups, Ok _) =>
        (ov ++ ups ++ generate_output_archives (scenario_directory ctx),
         Ok ())
    end
  else (ov, Ok ()).

(** [summary_process] on a queue holding [queue] and then the stop marker. *)
Definition summary_process (disk : file_system) (ctx : context)
    (queue : list summary_item) : list upload_item * result unit :=
  match summary_loop disk (scenario_directory ctx)
          (initial_state (scenario_directory ctx)) queue with
  | Raise e => ([], Raise e)
  | Ok st => summary_stop ctx st
  end.

(** ** Unpacker: [unpack_item] and [untar] *)

Record tar_member : Type := {
  member_name : string;
  member_isdir : bool
}.

(** An entry of [subjob['collections']] with the two keys [process] adds. *)
Record collection : Type := {
  collection_number : string;
  mode : string;
  prescreen_ligands_per_tranche : Z;
  collection_ligands : list string
}.

(** A value of the [ligands] dict. *)
Record ligand : Type := {
  path : string;
  ligand_base_collection_key : string;
  ligand_collection_key : string
}.

(** The item the downloader forwards. *)
Record unpack_queue_item : Type := {
  unpack_collection_key : string;
  unpack_collection : collection;
  unpack_temp_dir : string;
  local_path : string
}.

(** The item the unpacker forwards: the same, with [item['ligands']] set to
    what [unpack_item] returned ([None] is Python's [None]). *)
Record collection_queue_item : Type := {
  collection_item_key : string;
  collection_item_temp_dir : string;
  ligands : option (dict ligand)
}.

(** A line of the [.listing] file after [strip], [split(",")] into exactly
    three fields and [int(screen_index)]. *)
Record listing_row : Type := {
  screen_collection_key : string;
  screen_ligand_name : string;
  screen_index : Z
}.

(** What the stages read from disk and the text searches they run on it.
    - [tar_members p]: the members of the archive at [p]; [None] when
      [tarfile.open], [getmembers] or [extractall] raises;
    - [read_listing p]: opening the listing at [p] (which can raise), then
      one entry per line: the parsed row, or what parsing that line raises;
    - [read_lines p]: the lines of the ligand file at [p];
    - [search_elements l]: group [letters] of the match of
      [\s+(B|Si|Sn)\s+] in [l]; [search_atom l]: whether [^ATOM] matches;
      [coord_str l]: [":".join(l.split()[5:8])]; [search_tranche l]: whether
      ['Tranche:'] occurs in [l]; [tranche_of l]: [l.split()[2].strip()];
    - [compiled_regex]: [re.compile] of the configured tranche regex, [None]
      for [re.error], otherwise its [search] as a test;
    - [ligand_attrs p]: what [get_attrs] extracts from the file at [p]. *)
Record environment : Type := {
  tar_members : string → option (list tar_member);
  read_listing : string → result (list (result listing_row));
  read_lines : string → result (list string);
  search_elements : string → option string;
  search_atom : string → bool;
  coord_str : string → string;
  search_tranche : string → bool;
  tranche_of : string → result string;
  compiled_regex : option (string → bool);
  ligand_attrs : string → dict string
}.

(** [s.split(c, 1)] when [c] occurs in [s]: the text before the first [c] and
    the text after it. *)
Fixpoint split_first (c : ascii) (s : string) : option (string * string) :=
  match s with
  | EmptyString => None
  | String a s' =>
      if decide (a = c) then Some (EmptyString, s')
      else match split_first c s' with
           | Some (l, r) => Some (String a l, r)
           | None => None
           end
  end.

(** [s.split(c)[0]] *)
Definition before_first (c : ascii) (s : string) : string :=
  match split_first c s with
  | Some (l, _) => l
  | None => s
  end.

(** Lines 201-214: the loop over the archive members; [None] when the
    unpacking [_, ligand = member.name.split("/", 1)] raises. *)
Fixpoint index_members (item : unpack_queue_item) (members : list tar_member)
    (ligands : dict ligand) : option (dict ligand) :=
  match members with
  | [] => Some ligands
  | member :: rest =>
      if member_isdir member then index_members item rest ligands
      else
        match split_first "/" (member_name member) with
        | None => None
        | Some (_, ligand) =>
            if decide (ligand = ".listing") then
              index_members item rest ligands
            else
              let ligand_name := before_first "." ligand in
              index_members item rest
                (dict_set ligand_name
                   {| path :=
                        path_join
                          (path_join (unpack_temp_dir item)
                             (collection_number (unpack_collection item)))
                          ligand;
                      ligand_base_collection_key := unpack_collection_key item;
                      ligand_collection_key := unpack_collection_key item |}
                   ligands)
        end
  end.

(** Lines 229-238: the loop over the lines of the listing. *)
Fixpoint prescreen_loop (cutoff : Z) (ligands : dict ligand)
    (lines : list (result listing_row)) (prescreen_ligands : dict ligand)
  : result (dict ligand) :=
  match lines with
  | [] => Ok prescreen_ligands
  | line :: rest =>
      row ← line;
      if decide (cutoff ≤ screen_index row) then
        prescreen_loop cutoff ligands rest prescreen_ligands
      else
        l ← getitem (dict_get (screen_ligand_name row) ligands)
              (screen_ligand_name row);
        prescreen_loop cutoff ligands rest
          (dict_set (screen_ligand_name row)
             {| path := path l;
                ligand_base_collection_key := ligand_base_collection_key l;
                ligand_collection_key := screen_collection_key row |}
             prescreen_ligands)
  end.

(** Lines 243-244: the loop of the named mode. *)
Fixpoint named_loop (ligands : dict ligand) (names : list string)
    (select_ligands : dict ligand) : result (dict ligand) :=
  match names with
  | [] => Ok select_ligands
  | ligand_name :: rest =>
      l ← getitem (dict_get ligand_name ligands) ligand_name;
      named_loop ligands rest (dict_set ligand_name l select_ligands)
  end.

Definition unpack_item (env : environment) (item : unpack_queue_item)
  : result (option (dict ligand)) :=
  match tar_members env (local_path item) with
  | None => Ok None
  | Some members =>
      match index_members item members [] with
      | None => Ok None
      | Some ligands =>
          let c := unpack_collection item in
          if decide (mode c = "prescreen_mode") then
            lines ← read_listing env
                      (path_join
                         (path_join (unpack_temp_dir item)
                            (collection_number c)) ".listing");
            r ← prescreen_loop (prescreen_ligands_per_tranche c) ligands
                  lines [];
            Ok (Some r)
          else if decide (mode c = "named") then
            r ← named_loop ligands (collection_ligands c) [];
            Ok (Some r)
          else Ok (Some ligands)
      end
  end.

(** The loop body of [untar]: what is put on the collection queue. *)
Definition untar (env : environment) (item : unpack_queue_item)
  : result collection_queue_item :=
  l ← unpack_item env item;
  Ok {| collection_item_key := unpack_collection_key item;
        collection_item_temp_dir := unpack_temp_dir item;
        ligands := l |}.

(** ** Validator/Dispatcher: [collection_process] *)

(** How the scan of one ligand file ends: the file is read to its end, a
    check skips the ligand ([break] with [skip_ligand = 1]), the worker
    returns because the tranche regex does not compile ([return None]), or an
    exception leaves the function. *)
Inductive scan_end : Type :=
| scan_pass
| scan_skip (skip_reason_json : string)
| scan_return
| scan_raise (e : exn).

(** Lines 291-345: the loop over the lines of a ligand file. *)
Fixpoint scan_lines (ctx : context) (env : environment)
    (lines : list string) (coords : list string) : scan_end :=
  match lines with
  | [] => scan_pass
  | line :: rest =>
      match (if decide (run_atom_check ctx = 1)
             then search_elements env line else None) with
      | Some letters =>
          scan_skip ("ligand includes elements: " +:+ letters +:+ ")")
      | None =>
          if search_atom env line && bool_decide (coord_str env line ∈ coords)
          then scan_skip "duplicate coordinates"
          else
            let coords :=
              if search_atom env line then coord_str env line :: coords
              else coords in
            if decide (dynamic_tranche_filtering ctx = 1) then
              if search_tranche env line then
                match tranche_of env line with
                | Raise e => scan_raise e
                | Ok tranche =>
                    match compiled_regex env with
                    | None => scan_return
                    | Some search =>
                        if search tranche
                        then scan_lines ctx env rest coords
                        else scan_skip "dynamic tranche filtering"
                    end
                end
              else scan_lines ctx env rest coords
            else scan_lines ctx env rest coords
      end
  end.

(** [range(n)] *)
Definition range (n : Z) : list nat := seq 0 (Z.to_nat n).

(** Lines 271-274: the two nested counting loops. *)
Definition completions_per_ligand (ctx : context) : Z :=
  foldl (fun n sc => foldl (fun n _ => n + 1) n (range (replicas sc.2)))
        0 (docking_scenarios ctx).

(** [submit_ligand_for_docking]: the items put on the docking queue. *)
Definition submit_ligand_for_docking (ctx : context) (ligand_name : string)
    (ligand_path : string) (collection_key base_collection_key : string)
    (ligand_attrs : dict string) (temp_dir : string) : list docking_item :=
  sc ← docking_scenarios ctx;
  replica_index ← range (replicas sc.2);
  [ {| ligand_key := ligand_name;
       ligand_path := ligand_path;
       scenario_key := sc.1;
       collection_key := collection_key;
       base_collection_key := base_collection_key;
       program := scenario_program sc.2;
       input_files_dir :=
         path_join (path_join (ctx_temp_dir ctx) "vf_input") "input-files";
       timeout := program_timeout ctx;
       temp_dir := temp_dir;
       attrs := ligand_attrs;
       output_dir :=
         path_div
           (path_div (path_div (path_div temp_dir "output") sc.1)
              ligand_name)
           (pretty replica_index);
       status := None;
       score := None;
       uuid := None;
       tmp_run_dir := None;
       log := None |} ].

(** How the handling of one collection item ends. *)
Inductive stage_end : Type :=
| stage_done
| stage_return
| stage_raise (e : exn).

(** A [put] of the validator, on the docking queue or on the summary
    queue. *)
Inductive queue_put : Type :=
| put_docking (item : docking_item)
| put_summary (item : summary_item).

(** The [put] calls made for one collection item, in the order they were
    made, and how the handling ended. *)
Record stage_out : Type := {
  puts : list queue_put;
  ended : stage_end
}.

(** Lines 284-367: the loop over the ligands; it carries [expected_ligands]
    and gives the [put] calls, and either the final [expected_ligands] or how
    the loop was left. *)
Fixpoint ligands_loop (ctx : context) (env : environment) (temp_dir : string)
    (per_ligand : Z) (ligands : dict ligand) (expected_ligands : Z)
  : list queue_put * (Z + stage_end) :=
  match ligands with
  | [] => ([], inl expected_ligands)
  | (ligand_key, ligand) :: rest =>
      match read_lines env (path ligand) with
      | Raise e => ([], inr (stage_raise e))
      | Ok lines =>
          match scan_lines ctx env lines [] with
          | scan_raise e => ([], inr (stage_raise e))
          | scan_return => ([], inr stage_return)
          | scan_pass =>
              let tasks :=
                submit_ligand_for_docking ctx ligand_key (path ligand)
                  (ligand_collection_key ligand)
                  (ligand_base_collection_key ligand)
                  (ligand_attrs env (path ligand)) temp_dir in
              let '(p, r) :=
                ligands_loop ctx env temp_dir per_ligand rest
                  (expected_ligands + per_ligand) in
              ((put_docking <$> tasks) ++ p, r)
          | scan_skip reason =>
              let summary_item :=
                item_skip
                  {| log_base_collection_key :=
                       ligand_base_collection_key ligand;
                     log_collection_key := ligand_collection_key ligand;
                     log_ligand_key := ligand_key;
                     log_reason := reason |} in
              let '(p, r) :=
                ligands_loop ctx env temp_dir per_ligand rest
                  expected_ligands in
              (put_summary summary_item :: p, r)
          end
      end
  end.

(** The loop body of [collection_process] for one item of the collection
    queue. *)
Definition collection_process (ctx : context) (env : environment)
    (item : collection_queue_item) : stage_out :=
  let per_ligand := completions_per_ligand ctx in
  match ligands item with
  | None =>
      {| puts := [];
         ended := stage_raise (TypeError "'NoneType' object is not iterable") |}
  | Some ligands =>
      match ligands_loop ctx env (collection_item_temp_dir item) per_ligand
              ligands 0 with
      | (p, inr e) => {| puts := p; ended := e |}
      | (p, inl expected_ligands) =>
          {| puts :=
               p ++ [put_summary
                       (item_delete (collection_item_temp_dir item)
                          (collection_item_key item) expected_ligands)];
             ended := stage_done |}
      end
  end.

(** ** Executor: [docking_process_batch] *)

(** [subprocess.run(cmd, ..., timeout=t)] *)
Inductive process_end : Type :=
| completed (returncode : Z) (stdout stderr : string)
| timeout_expired
| run_raised (e : exn).

(** An entry of [DOCKING_PROGRAMS].  [start] builds the command line of a
    task or raises.  [finish] (the ['end'] key) reads the output of the
    process: it either finds a score, and then sets [item['score']] and
    [item['status'] = "success"], or it leaves the status as it is and sets
    [item['log']['reason']]; it can also raise.  [model] is the ['ligands']
    key. *)
Record backend : Type := {
  start : option (docking_item → result (list string));
  finish : option (docking_item → Z → string → string → result (Q + string));
  model : option string
}.

(** The executor's surroundings: the backend table, the outcome of running a
    command, and the identifiers [uuid.uuid4()] hands out, in order. *)
Record executor_env : Type := {
  DOCKING_PROGRAMS : gmap string backend;
  subprocess_run : list string → Z → process_end;
  uuid4 : nat → string
}.

(** The executor's view of the file system: the run directories that exist,
    and how many identifiers were drawn. *)
Record executor_world : Type := {
  run_dirs : gset string;
  uuids_drawn : nat
}.

Definition set_executor (item : docking_item) (st : option string)
    (sc : option Q) (u : option string) (d : option string)
    (l : option log_entry) : docking_item :=
  {| ligand_key := ligand_key item; ligand_path := ligand_path item;
     scenario_key := scenario_key item;
     collection_key := collection_key item;
     base_collection_key := base_collection_key item;
     program := program item; input_files_dir := input_files_dir item;
     timeout := timeout item;
     temp_dir := temp_dir item; attrs := attrs item;
     output_dir := output_dir item;
     status := st; score := sc; uuid := u; tmp_run_dir := d; log := l |}.

Definition set_reason (item : docking_item) (reason : string)
  : docking_item :=
  set_executor item (status item) (score item) (uuid item) (tmp_run_dir item)
    ((fun l => {| log_base_collection_key := log_base_collection_key l;
                  log_collection_key := log_collection_key l;
                  log_ligand_key := log_ligand_key l;
                  log_reason := reason |}) <$> log item).

(** Lines 535-544: every item of a batch starts as failed. *)
Definition mark_failed (item : docking_item) : docking_item :=
  set_executor item (Some "failed") (score item) (uuid item)
    (tmp_run_dir item)
    (Some {| log_base_collection_key := base_collection_key item;
             log_collection_key := collection_key item;
             log_ligand_key := ligand_key item;
             log_reason := "" |}).

Definition run_dir (temp_dir u : string) : string :=
  path_div (path_div temp_dir "run") u.

(** [docking_process_setup_common] on a dict whose [input_files_dir] key is
    [input_files]: draws an identifier, creates [<temp_dir>/run/<uuid>], and
    then copies the input files there, which needs the key; gives the
    identifier and the directory. *)
Definition docking_process_setup_common (env : executor_env)
    (temp_dir : string) (input_files : option string) (w : executor_world)
  : executor_world * result (string * string) :=
  let u := uuid4 env (uuids_drawn w) in
  let w := {| run_dirs := {[ run_dir temp_dir u ]} ∪ run_dirs w;
              uuids_drawn := S (uuids_drawn w) |} in
  match input_files with
  | None => (w, Raise (KeyError "input_files_dir"))
  | Some _ => (w, Ok (u, run_dir temp_dir u))
  end.

(** [shutil.rmtree(d)] on the run directories *)
Definition rmtree (d : string) (w : executor_world)
  : executor_world * result unit :=
  if decide (d ∈ run_dirs w) then
    ({| run_dirs := run_dirs w ∖ {[ d ]}; uuids_drawn := uuids_drawn w |},
     Ok ())
  else (w, Raise (OSError d)).

(** [docking_process_clean_common] *)
Definition docking_process_clean_common (tmp_run_dir : option string)
    (w : executor_world) : executor_world * result unit :=
  match tmp_run_dir with
  | None => (w, Raise (KeyError "tmp_run_dir"))
  | Some d => rmtree d w
  end.

(** [program_runstring_array] *)
Definition program_runstring_array (env : executor_env)
    (t : docking_item) : result (list string) :=
  match DOCKING_PROGRAMS env !! program t with
  | None => Raise (RuntimeError ("No start function for " +:+ program t))
  | Some b =>
      match start b with
      | None => Raise (RuntimeError ("No start function for " +:+ program t))
      | Some f => f t
      end
  end.

(** [process_docking_completion] *)
Definition process_docking_completion (env : executor_env)
    (item : docking_item) (returncode : Z) (stdout stderr : string)
  : result docking_item :=
  let item :=
    set_executor item (Some "failed") (score item) (uuid item)
      (tmp_run_dir item) (log item) in
  match DOCKING_PROGRAMS env !! program item with
  | None =>
      Raise (RuntimeError ("No completion function for " +:+ program item))
  | Some b =>
      match finish b with
      | None =>
          Raise (RuntimeError ("No completion function for " +:+ program item))
      | Some f =>
          r ← f item returncode stdout stderr;
          match r with
          | inl sc =>
              Ok (set_executor item (Some "success") (Some sc) (uuid item)
                    (tmp_run_dir item) (log item))
          | inr reason => Ok (set_reason item reason)
          end
      end
  end.

(** Lines 548-587: the body of the loop of the single model, for one item. *)
Definition run_single (env : executor_env) (temp_dir : string)
    (item : docking_item) (w : executor_world)
  : executor_world * result docking_item :=
  match docking_process_setup_common env temp_dir
          (Some (input_files_dir item)) w with
  | (w, Raise e) => (w, Raise e)
  | (w, Ok (u, d)) =>
      let item :=
        set_executor item (status item) (score item) (Some u) (Some d)
          (log item) in
      match program_runstring_array env item with
      | Raise e => (w, Raise e)
      | Ok cmd =>
          match subprocess_run env cmd (timeout item) with
          | run_raised e => (w, Raise e)
          | timeout_expired =>
              let item :=
                set_reason item ("timeout on " +:+ ligand_key item) in
              match docking_process_clean_common (tmp_run_dir item) w with
              | (w, Raise e) => (w, Raise e)
              | (w, Ok _) => (w, Ok item)
              end
          | completed returncode stdout stderr =>
              match (if decide (returncode = 0)
                     then process_docking_completion env item returncode
                            stdout stderr
                     else Ok (set_reason item
                                ("Non zero return code for "
                                 +:+ collection_key item +:+ " "
                                 +:+ ligand_key item +:+ " "
                                 +:+ scenario_key item))) with
              | Raise e => (w, Raise e)
              | Ok item =>
                  match docking_process_clean_common (tmp_run_dir item) w with
                  | (w, Raise e) => (w, Raise e)
                  | (w, Ok _) => (w, Ok item)
                  end
              end
          end
      end
  end.

Fixpoint run_singles (env : executor_env) (temp_dir : string)
    (items : list docking_item) (w : executor_world)
  : executor_world * result (list docking_item) :=
  match items with
  | [] => (w, Ok [])
  | item :: rest =>
      match run_single env temp_dir item w with
      | (w, Raise e) => (w, Raise e)
      | (w, Ok item) =>
          match run_singles env temp_dir rest w with
          | (w, Raise e) => (w, Raise e)
          | (w, Ok rest) => (w, Ok (item :: rest))
          end
      end
  end.

(** Lines 590-599: the batch model.  [batched_item] is the four-key dict of
    line 528, without an [input_files_dir] key, so the set-up it starts with
    raises once the run directory exists; the next read, of [item['uuid']]
    at line 599, is of a key the items of a batch do not have either. *)
Definition run_batch (env : executor_env) (temp_dir : string)
    (w : executor_world) : executor_world * result (list docking_item) :=
  match docking_process_setup_common env temp_dir None w with
  | (w, Raise e) => (w, Raise e)
  | (w, Ok _) => (w, Raise (KeyError "uuid"))
  end.

(** [docking_process_batch]: the world it leaves, and the item it puts on the
    summary queue, if any. *)
Definition docking_process_batch (env : executor_env) (scenario : scenario)
    (items : list docking_item) (temp_dir : string) (w : executor_world)
  : executor_world * result (option summary_item) :=
  if decide (length items = 0%nat) then (w, Ok None)
  else
    match DOCKING_PROGRAMS env !! scenario_program scenario with
    | None => (w, Raise (KeyError (scenario_program scenario)))
    | Some b =>
        match model b with
        | None => (w, Raise (KeyError "ligands"))
        | Some execution_type =>
            let items := mark_failed <$> items in
            if decide (execution_type = "single") then
              match run_singles env temp_dir items w with
              | (w, Raise e) => (w, Raise e)
              | (w, Ok items) =>
                  (w, Ok (Some (item_docking_complete items execution_type
                                  (key scenario) None None)))
              end
            else if decide (execution_type = "batch") then
              match run_batch env temp_dir w with
              | (w, Raise e) => (w, Raise e)
              | (w, Ok items) =>
                  (w, Ok (Some (item_docking_complete items execution_type
                                  (key scenario) None None)))
              end
            else
              (w, Raise (RuntimeError
                           ("Invalid ligand processing model for program "
                            +:+ scenario_program scenario)))
        end
    end.

(** * Vocabulary of the properties *)

(** ** The aggregator's queue, seen from one collection *)

(** The delete markers of key [k] in a queue: scratch directory and expected
    count, in order of arrival. *)
Definition markers_of_item (k : string) (item : summary_item)
  : list (string * Z) :=
  match item with
  | item_delete dir k' expected =>
      if decide (k' = k) then [(dir, expected)] else []
  | _ => []
  end.

Definition markers_for (k : string) (queue : list summary_item)
  : list (string * Z) :=
  queue ≫= markers_of_item k.

(** The per-task docking outcomes of key [k]. *)
Definition outcomes_of_items (k : string) (items : list docking_item)
  : list docking_item :=
  filter (fun it => base_collection_key it = k) items.

Definition outcomes_of_item (k : string) (item : summary_item)
  : list docking_item :=
  match item with
  | item_docking_complete items _ _ _ _ => outcomes_of_items k items
  | _ => []
  end.

Definition outcomes_for (k : string) (queue : list summary_item)
  : list docking_item :=
  queue ≫= outcomes_of_item k.

(** The completion transitions of key [k] in the file-system log. *)
Definition is_move_of (k : string) (e : fs_effect) : bool :=
  match e with
  | collection_moved k' _ _ => bool_decide (k' = k)
  | entry_moved _ _ | batch_logs_moved _ _ _ => false
  end.

Definition moves_of (k : string) (fs : list fs_effect) : list fs_effect :=
  filter (fun e => is_move_of k e = true) fs.

(** The events of one key and the state they act on: the key's entry of the
    completion map and its transitions so far. *)
Inductive key_event : Type :=
| key_marker (dir : string) (expected : Z)
| key_outcome.

Definition key_state : Type := option completion * list fs_effect.

Definition key_check (k : string) (sd : list string) (c : completion)
    (moved : list fs_effect) : key_state :=
  if decide (current_completions c = expected_completions c)
  then (None, moved ++ [collection_moved k (completion_temp_dir c) sd])
  else (Some c, moved).

Definition key_step (k : string) (sd : list string) (v : key_state)
    (e : key_event) : key_state :=
  match e, v.1 with
  | key_marker dir expected, Some c =>
      key_check k sd {| expected_completions := expected;
                        current_completions := current_completions c;
                        completion_temp_dir := dir |} v.2
  | key_marker dir expected, None =>
      key_check k sd {| expected_completions := expected;
                        current_completions := 0;
                        completion_temp_dir := dir |} v.2
  | key_outcome, Some c =>
      key_check k sd {| expected_completions := expected_completions c;
                        current_completions := current_completions c + 1;
                        completion_temp_dir := completion_temp_dir c |} v.2
  | key_outcome, None =>
      (Some {| expected_completions := -1; current_completions := 1;
               completion_temp_dir := "" |}, v.2)
  end.

Definition key_events_of_item (k : string) (item : summary_item)
  : list key_event :=
  match item with
  | item_delete dir k' expected =>
      if decide (k' = k) then [key_marker dir expected] else []
  | item_docking_complete items _ _ _ _ =>
      (fun _ => key_outcome) <$> outcomes_of_items k items
  | _ => []
  end.

Definition key_events (k : string) (queue : list summary_item)
  : list key_event :=
  queue ≫= key_events_of_item k.

Definition key_view (k : string) (st : summary_state) : key_state :=
  (collection_completions st !! k, moves_of k (fs_log st)).

(** ** Items the aggregator handles without an exception *)

Definition task_ok (sd : list string) (it : docking_item) : Prop :=
  (status it = Some "success" ∧ scenario_key it ∈ sd ∧ is_Some (score it))
  ∨ (status it = Some "failed" ∧ is_Some (log it)).

Definition summary_item_ok (sd : list string) (item : summary_item) : Prop :=
  match item with
  | item_docking_complete items et sk u dir =>
      Forall (task_ok sd) items
      ∧ (et = "batch" → sk ∈ sd ∧ is_Some u ∧ is_Some dir)
  | _ => True
  end.

Definition state_ok (sd : list string) (st : summary_state) : Prop :=
  is_Some (dockings_status (overview_data st) !! "success")
  ∧ is_Some (dockings_status (overview_data st) !! "failed")
  ∧ ∀ s, s ∈ sd → is_Some (summary_data st !! s).

(** ** A disk that lets the aggregator work *)

(** At the moment [fs], directory [d] can be listed, its entries have
    distinct names, and none of them has been moved into [p]. *)
Definition listing_fresh (disk : file_system) (fs : list fs_effect)
    (d : string) (p : place) : Prop :=
  ∃ names, fs_iterdir disk fs d = Ok names
           ∧ NoDup names
           ∧ ∀ n, n ∈ names → n ∉ moved_to p fs.

(** Every listing of a scenario's output directory is fresh for the final
    directory of that scenario, every listing is fresh for the directories
    of the batch logs, and moving and removing succeed. *)
Definition cooperative (disk : file_system) : Prop :=
  (∀ fs temp_dir sk,
     listing_fresh disk fs (path_div (path_div temp_dir "output") sk)
       (final_dir sk))
  ∧ (∀ fs d sk u, listing_fresh disk fs d (batch_dir sk u))
  ∧ (∀ fs src p, fs_move disk fs src p = Ok ())
  ∧ (∀ fs d, fs_rmtree disk fs d = Ok ()).

Fixpoint event_markers (es : list key_event) : list (string * Z) :=
  match es with
  | [] => []
  | key_marker dir expected :: es' => (dir, expected) :: event_markers es'
  | key_outcome :: es' => event_markers es'
  end.

Fixpoint event_outcomes (es : list key_event) : nat :=
  match es with
  | [] => 0
  | key_marker _ _ :: es' => event_outcomes es'
  | key_outcome :: es' => S (event_outcomes es')
  end.

(** The three ways a key can still be owed its transition: nothing seen yet,
    only outcomes seen, or the marker seen and outcomes missing. *)
Definition owed (dir : string) (n : Z) (es : list key_event)
    (v : key_state) : Prop :=
  (v.1 = None ∧ event_markers es = [(dir, n)]
   ∧ Z.of_nat (event_outcomes es) = n)
  ∨ (∃ c, v.1 = Some c ∧ expected_completions c = -1
          ∧ 1 ≤ current_completions c
          ∧ event_markers es = [(dir, n)]
          ∧ current_completions c + Z.of_nat (event_outcomes es) = n)
  ∨ (∃ c, v.1 = Some c ∧ expected_completions c = n
          ∧ completion_temp_dir c = dir
          ∧ current_completions c < n
          ∧ event_markers es = []
          ∧ current_completions c + Z.of_nat (event_outcomes es) = n).

(** An entry no marker has touched. *)
Definition unmarked (v : key_state) : Prop :=
  match v.1 with
  | None => True
  | Some c => expected_completions c = -1 ∧ 1 ≤ current_completions c
  end.

Definition current_of (v : key_state) : Z :=
  match v.1 with
  | None => 0
  | Some c => current_completions c
  end.

(** The counters of the overview agree. *)
Definition balanced (o : overview) : Prop :=
  ∃ a b, dockings_status o = {[ "success" := a; "failed" := b ]}
         ∧ a + b = total_dockings o.

(** ** The validator's output *)

(** Reading and scanning one ligand file. *)
Definition scan_ligand (ctx : context) (env : environment) (l : ligand)
  : scan_end :=
  match read_lines env (path l) with
  | Raise e => scan_raise e
  | Ok lines => scan_lines ctx env lines []
  end.

(** The scan reaches a dispatch decision: the ligand passes or is skipped. *)
Definition decided (ctx : context) (env : environment) (l : ligand) : Prop :=
  scan_ligand ctx env l = scan_pass
  ∨ ∃ reason, scan_ligand ctx env l = scan_skip reason.

Definition passes (ctx : context) (env : environment) (l : ligand) : bool :=
  match scan_ligand ctx env l with
  | scan_pass => true
  | _ => false
  end.

(** The non-skipped ligands of a collection. *)
Definition dispatched (ctx : context) (env : environment)
    (ligands : dict ligand) : dict ligand :=
  filter (fun kl => passes ctx env kl.2 = true)
    (ligands : list (string * ligand)).

(** The [put] calls of one ligand with a dispatch decision. *)
Definition ligand_puts (ctx : context) (env : environment)
    (temp_dir : string) (kl : string * ligand) : list queue_put :=
  match scan_ligand ctx env kl.2 with
  | scan_pass =>
      put_docking <$>
        submit_ligand_for_docking ctx kl.1 (path kl.2)
          (ligand_collection_key kl.2) (ligand_base_collection_key kl.2)
          (ligand_attrs env (path kl.2)) temp_dir
  | scan_skip reason =>
      [put_summary
         (item_skip {| log_base_collection_key :=
                         ligand_base_collection_key kl.2;
                       log_collection_key := ligand_collection_key kl.2;
                       log_ligand_key := kl.1;
                       log_reason := reason |})]
  | _ => []
  end.

(** The replicas a scenario runs: the length of [range(replicas)]. *)
Definition replica_count (sc : scenario) : nat := length (range (replicas sc)).

Definition replicas_per_ligand (ctx : context) : nat :=
  sum_list (replica_count <$> (docking_scenarios ctx).*2).

Definition is_marker (p : queue_put) : bool :=
  match p with
  | put_summary (item_delete _ _ _) => true
  | _ => false
  end.

Definition is_task (p : queue_put) : bool :=
  match p with
  | put_docking _ => true
  | put_summary _ => false
  end.

(** ** The prescreen listing *)




(** ** The executor's run directories *)

(** The run directories [n] set-ups create, starting in world [w]. *)
Definition created_dirs (env : executor_env) (temp_dir : string)
    (w : executor_world) (n : nat) : list string :=
  (fun i => run_dir temp_dir (uuid4 env (uuids_drawn w + i))) <$> seq 0 n.

(** A backend whose two functions return. *)
Definition backend_returns (b : backend) : Prop :=
  ∃ f g, start b = Some f ∧ finish b = Some g
         ∧ (∀ t, ∃ cmd, f t = Ok cmd)
         ∧ (∀ t rc out err, ∃ r, g t rc out err = Ok r).

(** Running a command ends with an exit status or with the timeout. *)
Definition run_returns (env : executor_env) : Prop :=
  ∀ cmd t e, subprocess_run env cmd t ≠ run_raised e.

(** ** The reports *)

Definition fixed_columns : list string :=
  ["ligand"; "collection_key"; "scenario"; "score_average"; "score_min"].

Definition add_column (cols : list string) (k : string) : list string :=
  if decide (k ∈ cols) then cols else cols ++ [k].

(** The [attr_*] columns of the rows of a scenario, each once, in the order
    the rows first show them. *)
Definition attr_columns_from (cols : list string) (rows : dict summary_row)
  : list string :=
  foldl (fun cols r =>
           foldl (fun cols a => add_column cols ("attr_" +:+ a.1))
                 cols (row_attrs r.2))
        cols rows.

Definition attr_columns (rows : dict summary_row) : list string :=
  attr_columns_from [] rows.

(** The largest number of scores of a row. *)
Definition max_scores_from (m : nat) (rows : dict summary_row) : nat :=
  foldl (fun m r => if decide (m < length (row_scores r.2))%nat
                    then length (row_scores r.2) else m) m rows.

Definition max_scores (rows : dict summary_row) : nat :=
  max_scores_from 0 rows.

(** The [tranche_*] columns the rows of a scenario hold values for. *)
Definition tranche_columns (rows : dict summary_row) : list string :=
  (fun i => "tranche_" +:+ pretty i)
    <$> seq 0 (max_list
                 ((fun r => match split_underscore (row_collection_key r.2) with
                            | name :: _ => String.length name
                            | [] => 0%nat
                            end) <$> rows)).

(** The column ordering with tranche columns between the attribute and the
    score columns. *)
Definition ordering_with_tranches (rows : dict summary_row) : list string :=
  fixed_columns ++ attr_columns rows ++ tranche_columns rows
  ++ score_columns (max_scores rows).

Definition is_table (u : upload_item) : bool :=
  match u with
  | upload_parquet _ _ | upload_csv _ _ _ => true
  | _ => false
  end.

(** The scores of the successful outcomes of ligand [lig] in scenario [sk],
    in order of arrival. *)
Definition score_of (sk lig : string) (it : docking_item) : option Q :=
  if decide (status it = Some "success" ∧ scenario_key it = sk
             ∧ ligand_key it = lig)
  then score it else None.

Definition scores_of_item (sk lig : string) (item : summary_item) : list Q :=
  match item with
  | item_docking_complete items _ _ _ _ => omap (score_of sk lig) items
  | _ => []
  end.

Definition scores_for (sk lig : string) (queue : list summary_item) : list Q :=
  queue ≫= scores_of_item sk lig.

(** The sum of the scores divided by their number, as an exact rational. *)
Definition exact_mean (scores : list Q) : Q :=
  Qdiv (foldl Qplus (0%Q) scores) (inject_Z (Z.of_nat (length scores))).

(** [x] is a binary64 number [m * 2^e] within half a unit in its last place
    of [q]: the exponent is the smallest that leaves [m] 53 bits, or [-1074],
    and [|x - q| <= 2^e / 2]. *)
Definition rounds_to (q x : Q) : Prop :=
  ∃ m e : Z,
    Qeq x (Qmult (inject_Z m) (pow2 e))
    ∧ -1074 ≤ e ≤ 971
    ∧ Z.abs m ≤ 2 ^ 53
    ∧ (e = -1074 ∨ 2 ^ 52 ≤ Z.abs m)
    ∧ Qle (Qmult (Qabs (Qminus x q)) (inject_Z 2)) (pow2 e).

(** The [tranche_*] cells of the dict of row [r]: one per letter of the
    collection name, the part of the row's collection key before its
    underscore, and no other. *)
Definition tranche_cells (r : summary_row) (d : dict cell) : Prop :=
  ∃ name number,
    split_underscore (row_collection_key r) = [name; number]
    ∧ ∀ i : nat, dict_get ("tranche_" +:+ pretty i) d
                 = cell_str <$> (letters name !! i).

(** What the reduction leaves in the dict of row [r]. *)
Definition row_reduced (r : summary_row) (d : dict cell) : Prop :=
  ∃ avg lo,
    mean (row_scores r) = Ok avg
    ∧ py_min (row_scores r) = Ok lo
    ∧ dict_get "score_average" d = Some (cell_num avg)
    ∧ dict_get "score_min" d = Some (cell_num lo)
    ∧ dict_get "ligand" d = Some (cell_str (row_ligand r))
    ∧ tranche_cells r d.

Definition rows_reduced (rows : dict summary_row)
    (reduced : dict (dict cell)) : Prop :=
  Forall2 (fun kr kd => kd.1 = kr.1 ∧ row_reduced kr.2 kd.2) rows reduced.

(** The header of the delimited-text table of a scenario. *)
Definition csv_header (rows : dict summary_row) : list string :=
  fixed_columns ++ attr_columns rows ++ score_columns (max_scores rows).

(** The uploads of a scenario with rows [rows] reduced to [reduced]. *)
Definition scenario_uploads (ctx : context) (sk : string)
    (rows : dict summary_row) (reduced : dict (dict cell))
  : list upload_item :=
  (if decide ("parquet" ∈ summary_formats ctx)
   then [upload_parquet sk reduced] else [])
  ++ (if decide ("csv.gz" ∈ summary_formats ctx)
      then [upload_csv sk (csv_header rows)
              (ordered_summary_list (csv_header rows) <$> reduced.*2)]
      else []).

(** The rows of every scenario hold the scores [h] lists: one row per ligand
    with scores, under its ligand key. *)
Definition tracks (h : string → string → list Q)
    (sd : gmap string (dict summary_row)) : Prop :=
  ∀ sk rows,
    sd !! sk = Some rows →
    NoDup rows.*1
    ∧ ∀ lig, match dict_get lig rows with
             | Some r => row_ligand r = lig ∧ row_scores r = h sk lig
             | None => h sk lig = []
             end.


(** * Sample data *)

Definition sample_scenario (k : string) (n : Z) : string * scenario :=
  (k, {| key := k; scenario_program := "vina"; replicas := n;
         batchsizes := 1 |}).

(** One scenario with two replicas; the tranche filter is on. *)
Definition filtering_ctx : context := {|
  docking_scenarios := [sample_scenario "s1" 2];
  summary_formats := ["csv.gz"];
  run_atom_check := 0;
  dynamic_tranche_filtering := 1;
  program_timeout := 60;
  ctx_temp_dir := "/tmp/vf"
|}.

(** Ligand files of one line carrying a tranche annotation; [regex] is the
    compiled tranche regex if the configured one compiles. *)
Definition annotated_env (regex : option (string → bool)) : environment := {|
  tar_members := fun _ => None;
  read_listing := fun _ => Ok [];
  read_lines := fun _ => Ok ["REMARK    Tranche: ABCD"];
  search_elements := fun _ => None;
  search_atom := fun _ => false;
  coord_str := fun _ => "";
  search_tranche := fun l => bool_decide (l = "REMARK    Tranche: ABCD");
  tranche_of := fun _ => Ok "ABCD";
  compiled_regex := regex;
  ligand_attrs := fun _ => [("smi", "N/A")]
|}.

Definition sample_ligand (k : string) (name : string) : string * ligand :=
  (name, {| path := "/tmp/vf/c1/1/" +:+ name +:+ ".pdbqt";
            ligand_base_collection_key := k;
            ligand_collection_key := k |}).

Definition two_ligand_item : collection_queue_item := {|
  collection_item_key := "AAAA_1";
  collection_item_temp_dir := "/tmp/vf/c1";
  ligands := Some [sample_ligand "AAAA_1" "lig1"; sample_ligand "AAAA_1" "lig2"]
|}.

(** A downloaded item whose archive cannot be opened in [annotated_env]. *)
Definition unreadable_item : unpack_queue_item := {|
  unpack_collection_key := "AAAA_1";
  unpack_collection :=
    {| collection_number := "1"; mode := "full";
       prescreen_ligands_per_tranche := 0; collection_ligands := [] |};
  unpack_temp_dir := "/tmp/vf/c1";
  local_path := "/tmp/vf/c1/tmp.tar.gz"
|}.

Definition sample_task (scenario ligand collection : string)
    (st : string) (sc : option Q) : docking_item := {|
  ligand_key := ligand;
  ligand_path := "/tmp/vf/c1/1/" +:+ ligand +:+ ".pdbqt";
  scenario_key := scenario;
  collection_key := collection;
  base_collection_key := collection;
  program := "vina";
  input_files_dir := "/tmp/vf/vf_input/input-files";
  timeout := 60;
  temp_dir := "/tmp/vf/c1";
  attrs := [("smi", "CCO")];
  output_dir := "/tmp/vf/c1/output/" +:+ scenario +:+ "/" +:+ ligand +:+ "/0";
  status := Some st;
  score := sc;
  uuid := Some "u0";
  tmp_run_dir := Some "/tmp/vf/run/u0";
  log := Some {| log_base_collection_key := collection;
                 log_collection_key := collection;
                 log_ligand_key := ligand;
                 log_reason := "" |}
|}.

Definition single_batch (items : list docking_item) (scenario : string)
  : summary_item :=
  item_docking_complete items "single" scenario None None.

(** Two scenarios; reports as delimited text. *)
Definition two_scenario_ctx : context := {|
  docking_scenarios := [sample_scenario "s1" 1; sample_scenario "s2" 1];
  summary_formats := ["csv.gz"];
  run_atom_check := 0;
  dynamic_tranche_filtering := 0;
  program_timeout := 60;
  ctx_temp_dir := "/tmp/vf"
|}.

(** The names of all entries moved so far. *)
Definition moved_names (fs : list fs_effect) : list string :=
  omap (fun e => match e with
                 | entry_moved _ n => Some n
                 | _ => None
                 end) fs.

(** A disk on which every operation succeeds and a directory shows the
    entries [table] gives it until they are moved. *)
Definition draining_disk (table : dict (list string)) : file_system := {|
  fs_iterdir := fun fs d =>
    Ok (filter (fun n => n ∉ moved_names fs)
          (remove_dups (default [] (dict_get d table))));
  fs_move := fun _ _ _ => Ok ();
  fs_rmtree := fun _ _ => Ok ()
|}.

(** A disk on which every operation succeeds and a directory shows the
    entries [table] gives it. *)
Definition static_disk (table : dict (list string)) : file_system := {|
  fs_iterdir := fun _ d => Ok (default [] (dict_get d table));
  fs_move := fun _ _ _ => Ok ();
  fs_rmtree := fun _ _ => Ok ()
|}.

(** The output directories of the collection unpacked in [/tmp/vf/c1], with
    one ligand. *)
Definition c1_disk : file_system :=
  draining_disk [("/tmp/vf/c1/output/s1", ["lig1"]);
                 ("/tmp/vf/c1/output/s2", ["lig1"])].

(** Two collections, unpacked in [/tmp/vf/c1] and [/tmp/vf/c2], that both
    hold a ligand [lig1]. *)
Definition shared_key_disk : file_system :=
  static_disk [("/tmp/vf/c1/output/s1", ["lig1"]);
               ("/tmp/vf/c2/output/s1", ["lig1"])].

(** One ligand of collection [AB_1]: its docking in [s1] fails, the one in
    [s2] succeeds with score -7.5; then the marker of the collection. *)
Definition mixed_queue : list summary_item :=
  [ single_batch [sample_task "s1" "lig1" "AB_1" "failed" None] "s1";
    single_batch
      [sample_task "s2" "lig1" "AB_1" "success" (Some (-15 # 2)%Q)] "s2";
    item_delete "/tmp/vf/c1" "AB_1" 2 ].

(** The same ligand succeeding twice in [s1]. *)
Definition replica_queue : list summary_item :=
  [ item_delete "/tmp/vf/c1" "AB_1" 2;
    single_batch
      [sample_task "s1" "lig1" "AB_1" "success" (Some (-15 # 2)%Q)] "s1";
    single_batch
      [sample_task "s1" "lig1" "AB_1" "success" (Some (-17 # 2)%Q)] "s1" ].

(** The ligand [lig1] of collection [AB_1] and the ligand [lig1] of
    collection [CD_2], each docked once in [s1], each collection with its
    marker. *)
Definition shared_key_queue : list summary_item :=
  [ item_delete "/tmp/vf/c1" "AB_1" 1;
    single_batch
      [sample_task "s1" "lig1" "AB_1" "success" (Some (-15 # 2)%Q)] "s1";
    item_delete "/tmp/vf/c2" "CD_2" 1;
    single_batch
      [sample_task "s1" "lig1" "CD_2" "success" (Some (-17 # 2)%Q)] "s1" ].

(** A backend table with one entry, whose [start] raises a [KeyError] (a
    configuration file without a key the function reads). *)
Definition raising_backends : gmap string backend :=
  {[ "dock6" :=
       {| start := Some (fun _ => Raise (KeyError "receptor_site_file"));
          finish := Some (fun _ _ _ _ => Ok (inr "Could not find score"));
          model := Some "single" |} ]}.

(** A backend table with one entry that finds the score -7.5 . *)
Definition scoring_backends : gmap string backend :=
  {[ "vina" :=
       {| start := Some (fun t => Ok ["vina"; "--ligand"; ligand_path t]);
          finish := Some (fun _ _ _ _ => Ok (inl (-15 # 2)%Q));
          model := Some "single" |} ]}.

Definition sample_executor (table : gmap string backend)
    (run : process_end) : executor_env := {|
  DOCKING_PROGRAMS := table;
  subprocess_run := fun _ _ => run;
  uuid4 := fun n => "u" +:+ pretty n
|}.

Definition empty_world : executor_world :=
  {| run_dirs := ∅; uuids_drawn := 0 |}.

Definition dock6_scenario : scenario :=
  {| key := "s1"; scenario_program := "dock6"; replicas := 1;
     batchsizes := 1 |}.

Definition dock6_task : docking_item := {|
  ligand_key := "lig1";
  ligand_path := "/tmp/vf/c1/1/lig1.mol2";
  scenario_key := "s1";
  collection_key := "AB_1";
  base_collection_key := "AB_1";
  program := "dock6";
  input_files_dir := "/tmp/vf/vf_input/input-files";
  timeout := 60;
  temp_dir := "/tmp/vf/c1";
  attrs := [("smi", "CCO")];
  output_dir := "/tmp/vf/c1/output/s1/lig1/0";
  status := None;
  score := None;
  uuid := None;
  tmp_run_dir := None;
  log := None
|}.

(** The table of [s1] after [replica_queue]. *)
Definition replica_rows : dict summary_row :=
  [("lig1", {| row_ligand := "lig1"; row_collection_key := "AB_1";
               row_scenario := "s1";
               row_scores := [(-15 # 2)%Q; (-17 # 2)%Q];
               row_attrs := [("smi", "CCO")] |})].

Definition replica_summary_data : gmap string (dict summary_row) :=
  {[ "s1" := replica_rows; "s2" := [] ]}.

Definition replica_header : list string :=
  ["ligand"; "collection_key"; "scenario"; "score_average"; "score_min";
   "attr_smi"; "score_0"; "score_1"].

Definition replica_line : list cell :=
  [cell_str "lig1"; cell_str "AB_1"; cell_str "s1";
   cell_num (-8 # 1)%Q; cell_num (-17 # 2)%Q;
   cell_str "CCO"; cell_num (-15 # 2)%Q; cell_num (-17 # 2)%Q].

Definition replica_lines : list (list cell) := [replica_line].








(** * The rest of the runner *)

(** ** Text: [str.strip], [str.partition], [str.split] *)

(** The strings of the embedding are sequences of code points below 256.
    [isspace] is [str.isspace] on them: the characters [str.strip()] removes
    and [\s] matches. *)
Definition isspace (c : ascii) : bool :=
  let n := nat_of_ascii c in
  ((9 <=? n) && (n <=? 13) || (28 <=? n) && (n <=? 32)
   || (n =? 133) || (n =? 160))%nat.

Fixpoint lstrip (s : string) : string :=
  match s with
  | EmptyString => EmptyString
  | String c s' => if isspace c then lstrip s' else s
  end.

Fixpoint rstrip (s : string) : string :=
  match s with
  | EmptyString => EmptyString
  | String c s' =>
      match rstrip s' with
      | EmptyString => if isspace c then EmptyString else String c EmptyString
      | r => String c r
      end
  end.

(** [s.strip()] *)
Definition strip (s : string) : string := rstrip (lstrip s).

(** [s.partition(c)] for a separator of one character. *)
Definition partition (c : ascii) (s : string) : string * string * string :=
  match split_first c s with
  | Some (l, r) => (l, String c EmptyString, r)
  | None => (s, EmptyString, EmptyString)
  end.

(** [c in s] for a character [c]. *)
Fixpoint contains (c : ascii) (s : string) : bool :=
  match s with
  | EmptyString => false
  | String a s' => if decide (a = c) then true else contains c s'
  end.

(** [''.join(l)] *)
Definition join_empty (l : list string) : string :=
  foldr String.append EmptyString l.

(** ** Configuration files: [read_config_line] and [load_config] *)

Definition read_config_line (line : string) : string * string :=
  let '(key, sep, value) := partition "=" (strip line) in
  (strip key, strip value).

(** [dict(pairs)]: a later pair with a key already seen replaces the value
    and keeps the position of the key. *)
Definition dict_of_pairs {V} (pairs : list (string * V)) : dict V :=
  foldl (fun d kv => dict_set kv.1 kv.2 d) [] pairs.

(** Lines 70-72 (and the same loop in the start functions): the loop over
    the keys of the configuration that cuts a value at its first [#]. *)
Definition cut_comment
  : dict string → string → result (dict string) := fun result item =>
  v ← getitem (dict_get item result) item;
  if contains "#" v then Ok (dict_set item (before_first "#" v) result)
  else Ok result.

Fixpoint cut_comments (config : dict string) (items : list string)
  : result (dict string) :=
  match items with
  | [] => Ok config
  | item :: rest =>
      config' ← cut_comment config item;
      cut_comments config' rest
  end.

(** [load_config] on the lines of the file at [config_path]. *)
Definition load_config (lines : list string) : result (dict string) :=
  let config := dict_of_pairs (read_config_line <$> lines) in
  cut_comments config (dict_keys config).

(** ** [format_ligand] *)

(** [l[-1] = x] on a list that is not empty. *)
Fixpoint set_last {A} (x : A) (l : list A) : list A :=
  match l with
  | [] => []
  | [_] => [x]
  | a :: l' => a :: set_last x l'
  end.

(** The path returned and the [obabel] command run, if one is. *)
Definition format_ligand (ligand_path file_format : string)
  : string * option string :=
  let ligand_path_as_list := split_on "." ligand_path in
  let current_format := default EmptyString (last ligand_path_as_list) in
  if decide (current_format ≠ file_format) then
    let ligand_path_as_list := set_last file_format ligand_path_as_list in
    let result := join_empty ligand_path_as_list in
    (result, Some ("obabel " +:+ ligand_path +:+ " -O " +:+ result))
  else (ligand_path, None).

(** ** [get_attrs] *)

(** The three searches [get_attrs] runs on a stripped line; each gives the
    group of its match: the text after [SMILES_current:], after [SMILES:]
    and after [* Heavy atom count:], without the whitespace that follows the
    colon. *)
Record attr_searches : Type := {
  search_smiles_current : string → option string;
  search_smiles : string → option string;
  search_heavy_atom_count : string → option string
}.

(** Lines 397-416: the loop over the lines of the ligand file; it carries
    [attributes] and [attributes_found]. *)
Fixpoint attr_lines (re : attr_searches) (n_attrs : nat)
    (lines : list string) (attributes : dict string) (attributes_found : nat)
  : dict string :=
  match lines with
  | [] => attributes
  | line :: rest =>
      let line := strip line in
      let '(attributes, attributes_found) :=
        match search_smiles_current re line with
        | Some smi => (dict_set "smi" smi attributes, S attributes_found)
        | None => (attributes, attributes_found)
        end in
      let '(attributes, attributes_found) :=
        match search_smiles re line with
        | Some smi => (dict_set "smi" smi attributes, S attributes_found)
        | None => (attributes, attributes_found)
        end in
      let '(attributes, attributes_found) :=
        match search_heavy_atom_count re line with
        | Some hacount =>
            (dict_set "heavy_atom_count" hacount attributes,
             S attributes_found)
        | None => (attributes, attributes_found)
        end in
      if decide (n_attrs ≤ attributes_found)%nat then attributes
      else attr_lines re n_attrs rest attributes attributes_found
  end.

(** [get_attrs] on the format, the lines of the file at [ligand_path] and the
    requested attributes. *)
Definition get_attrs (re : attr_searches) (ligand_format : string)
    (lines : list string) (attrs : list string) : dict string :=
  let valid_formats := ["pdbqt"; "mol2"; "pdb"; "sdf"] in
  let attributes := foldl (fun d key => dict_set key "N/A" d) [] attrs in
  if decide (ligand_format ∈ valid_formats) then
    attr_lines re (length attrs) lines attributes 0
  else attributes.

(** ** [process_config] *)

(** The keys of [main_config] that [process_config] reads.  An entry of
    [docking_scenario_replicas] or [docking_scenario_batchsizes] is given with
    what [int] makes of it: the number, or the exception [int] raises. *)
Record raw_config : Type := {
  docking_scenario_names : list string;
  docking_scenario_methods : list string;
  docking_scenario_replicas : list (result Z);
  docking_scenario_batchsizes : list (result Z);
  raw_summary_formats : option (list string)
}.

(** [l[i]] on a list *)
Definition list_getitem {A} (l : list A) (i : nat) : result A :=
  match l !! i with
  | Some a => Ok a
  | None => Raise (IndexError "list index out of range")
  end.

(** Lines 1034-1043: the group [program] of the match of
    [^(?P<program>smina|gwovina)], or [program_long] itself. *)
Definition program_of (program_long : string) : string :=
  if String.prefix "smina" program_long then "smina"
  else if String.prefix "gwovina" program_long then "gwovina"
  else program_long.

(** Lines 1032-1055: the loop over [enumerate(docking_scenario_names)]. *)
Fixpoint scenarios_loop (raw : raw_config) (index : nat)
    (names : list string) (docking_scenarios : dict scenario)
  : result (dict scenario) :=
  match names with
  | [] => Ok docking_scenarios
  | scenario :: rest =>
      program_long ← list_getitem (docking_scenario_methods raw) index;
      let program := program_of program_long in
      replicas ← list_getitem (docking_scenario_replicas raw) index;
      replicas ← replicas;
      batchsizes ← list_getitem (docking_scenario_batchsizes raw) index;
      batchsizes ← batchsizes;
      scenarios_loop raw (S index) rest
        (dict_set scenario
           {| key := scenario; scenario_program := program;
              replicas := replicas; batchsizes := batchsizes |}
           docking_scenarios)
  end.

(** [process_config]: the scenario table and the summary formats it leaves
    in [main_config]. *)
Definition process_config (raw : raw_config)
  : result (dict scenario * list string) :=
  let summary_formats :=
    match raw_summary_formats raw with
    | None => ["csv.gz"]
    | Some formats => formats
    end in
  docking_scenarios ← scenarios_loop raw 0 (docking_scenario_names raw) [];
  Ok (docking_scenarios, summary_formats).

(** ** [generate_output_path] *)

(** The keys of [ctx] and [main_config] that name where the outputs go. *)
Record output_config : Type := {
  job_storage_mode : string;
  object_store_job_prefix : string;
  job_name : string;
  sharedfs_output_files_path : string;
  workunit_id : string;
  subjob_id : string
}.

Definition generate_output_path (cfg : output_config)
    (scenario_key : option string) (content_type extension : string)
  : string :=
  match scenario_key with
  | Some scenario_key =>
      if decide (job_storage_mode cfg = "s3") then
        object_store_job_prefix cfg +:+ "/" +:+ job_name cfg +:+ "/"
        +:+ scenario_key +:+ "/" +:+ content_type +:+ "/"
        +:+ workunit_id cfg +:+ "/" +:+ subjob_id cfg +:+ "." +:+ extension
      else
        sharedfs_output_files_path cfg +:+ "/" +:+ scenario_key +:+ "/"
        +:+ content_type +:+ "/" +:+ workunit_id cfg +:+ "/"
        +:+ subjob_id cfg +:+ "." +:+ extension
  | None =>
      if decide (job_storage_mode cfg = "s3") then
        object_store_job_prefix cfg +:+ "/" +:+ job_name cfg +:+ "/"
        +:+ content_type +:+ "/" +:+ workunit_id cfg +:+ "/"
        +:+ subjob_id cfg +:+ "." +:+ extension
      else
        sharedfs_output_files_path cfg +:+ "/" +:+ content_type +:+ "/"
        +:+ workunit_id cfg +:+ "/" +:+ subjob_id cfg +:+ "." +:+ extension
  end.

(** The [remote_path] of the uploader item of each artifact (lines 843, 862,
    920 and 952). *)
Definition remote_path (cfg : output_config) (u : upload_item) : string :=
  match u with
  | upload_overview _ => generate_output_path cfg None "summary" "json.gz"
  | upload_parquet sk _ =>
      generate_output_path cfg (Some sk) "parquet" "parquet"
  | upload_csv sk _ _ => generate_output_path cfg (Some sk) "csv" "csv.gz"
  | upload_archive sk => generate_output_path cfg (Some sk) "logs" "tar.gz"
  end.

(** ** Downloader *)

(** An item of the download queue: the collection key, the entry of
    [subjob['collections']] and the archive extension.  The keys of the entry
    that only some collections have are options. *)
Record download_queue_item : Type := {
  download_collection_key : string;
  download_collection : collection;
  s3_download_path : option string;
  s3_bucket : option string;
  sharedfs_path : option string;
  collection_dockings : option Z;
  ext : string
}.

(** How [s3.download_fileobj] ends. *)
Inductive download_end : Type :=
| downloaded
| client_error (error : string)
| download_raised (e : exn).

(** The downloader's surroundings: the directories [tempfile.mkdtemp] hands
    out for a prefix, in order, the download from the object store (bucket,
    remote path, local path) and [shutil.copyfile]. *)
Record download_env : Type := {
  mkdtemp : string → nat → string;
  download_fileobj : string → string → string → download_end;
  copyfile : string → string → result unit
}.

(** A [put] of the downloader, on the unpack queue or on the summary
    queue. *)
Inductive download_put : Type :=
| put_unpack (item : unpack_queue_item)
| put_failed (item : summary_item).

(** Lines 127-165: the body of the loop of [downloader] for the [n]-th item
    it takes. *)
Definition download_step (env : download_env) (tmp_dir : string) (n : nat)
    (item : download_queue_item) : result download_put :=
  let temp_dir := mkdtemp env (tmp_dir +:+ "/") n in
  let local_path := temp_dir +:+ "/tmp." +:+ ext item in
  let forwarded :=
    put_unpack {| unpack_collection_key := download_collection_key item;
                  unpack_collection := download_collection item;
                  unpack_temp_dir := temp_dir;
                  local_path := local_path |} in
  match s3_download_path item with
  | Some remote_path =>
      job_bucket ← getitem (s3_bucket item) "s3_bucket";
      match download_fileobj env job_bucket remote_path local_path with
      | downloaded => Ok forwarded
      | client_error error =>
          let reason :=
            "Failed to download from S3 " +:+ job_bucket +:+ "/"
            +:+ remote_path +:+ " to " +:+ local_path +:+ ": (" +:+ error
            +:+ ")" in
          dockings ← getitem (collection_dockings item) "dockings";
          Ok (put_failed
                (item_download_failed
                   {| dl_base_collection_key := download_collection_key item;
                      dl_reason := reason;
                      dl_dockings := dockings |}))
      | download_raised e => Raise e
      end
  | None =>
      match sharedfs_path item with
      | Some p => _ ← copyfile env p local_path; Ok forwarded
      | None => Ok forwarded
      end
  end.

(** The puts of the downloader on the items it takes before the stop marker,
    and how it ends. *)
Fixpoint downloader (env : download_env) (tmp_dir : string) (n : nat)
    (items : list download_queue_item) : list download_put * result unit :=
  match items with
  | [] => ([], Ok ())
  | item :: rest =>
      match download_step env tmp_dir n item with
      | Raise e => ([], Raise e)
      | Ok p =>
          let '(ps, r) := downloader env tmp_dir (S n) rest in
          (p :: ps, r)
      end
  end.

(** ** Executor: [docking_process] *)

(** What [docking_queue.get(timeout=2)] gives before the stop marker: a task,
    or nothing within the timeout ([Empty]). *)
Inductive queue_get : Type :=
| got (item : docking_item)
| got_nothing.

(** The worker's state: the tasks held back per scenario, the world, and the
    items put on the summary queue so far. *)
Record docking_state : Type := {
  items_queue : dict (list docking_item);
  world : executor_world;
  summary_puts : list summary_item
}.

(** One call of [docking_process_batch] on what is held back for
    [scenario_key], and [items_queue[scenario_key] = []]. *)
Definition run_held (ctx : context) (env : executor_env)
    (st : docking_state) (scenario_key : string) : result docking_state :=
  scenario ← getitem (dict_get scenario_key (docking_scenarios ctx))
               scenario_key;
  items ← getitem (dict_get scenario_key (items_queue st)) scenario_key;
  match docking_process_batch env scenario items (ctx_temp_dir ctx)
          (world st) with
  | (w, Raise e) => Raise e
  | (w, Ok put) =>
      Ok {| items_queue := dict_set scenario_key [] (items_queue st);
            world := w;
            summary_puts := summary_puts st ++ option_list put |}
  end.

(** [for scenario_key in items_queue: ...] of lines 470-473 and 479-482. *)
Fixpoint run_all_held (ctx : context) (env : executor_env)
    (st : docking_state) (scenario_keys : list string)
  : result docking_state :=
  match scenario_keys with
  | [] => Ok st
  | scenario_key :: rest =>
      st' ← run_held ctx env st scenario_key;
      run_all_held ctx env st' rest
  end.

(** Lines 465-494: one iteration of the loop of [docking_process] before the
    stop marker. *)
Definition docking_step (ctx : context) (env : executor_env)
    (st : docking_state) (g : queue_get) : result docking_state :=
  match g with
  | got_nothing => run_all_held ctx env st (dict_keys (items_queue st))
  | got item =>
      let scenario_key := scenario_key item in
      let items_queue :=
        match dict_get scenario_key (items_queue st) with
        | Some _ => items_queue st
        | None => dict_set scenario_key [] (items_queue st)
        end in
      scenario ← getitem (dict_get scenario_key (docking_scenarios ctx))
                   scenario_key;
      held ← getitem (dict_get scenario_key items_queue) scenario_key;
      let st :=
        {| items_queue := dict_set scenario_key (held ++ [item]) items_queue;
           world := world st;
           summary_puts := summary_puts st |} in
      if decide (batchsizes scenario ≤ Z.of_nat (length (held ++ [item])))
      then run_held ctx env st scenario_key
      else Ok st
  end.

Fixpoint docking_loop (ctx : context) (env : executor_env)
    (st : docking_state) (gets : list queue_get) : result docking_state :=
  match gets with
  | [] => Ok st
  | g :: rest =>
      st' ← docking_step ctx env st g;
      docking_loop ctx env st' rest
  end.

(** [docking_process] on a queue that gives [gets] and then the stop
    marker. *)
Definition docking_process (ctx : context) (env : executor_env)
    (w : executor_world) (gets : list queue_get) : result docking_state :=
  st ← docking_loop ctx env
         {| items_queue := []; world := w; summary_puts := [] |} gets;
  run_all_held ctx env st (dict_keys (items_queue st)).

(** ** [process]: the collections it hands to the downloader *)

(** How the loop over [subjob['collections']] is left. *)
Inductive dispatch_end : Type :=
| dispatch_done
| dispatch_break
| dispatch_return
| dispatch_raise (e : exn).

(** Lines 4181-4210: the loop over the collections of the subjob; the items
    put on the download queue and how the loop is left.  An entry of
    [subjob['collections']] is given as a download item, of which the loop
    reads neither the key nor the extension. *)
Fixpoint dispatch_collections (ctx : context) (env : environment)
    (prescreen_mode : Z) (collections : dict download_queue_item)
  : list download_queue_item * dispatch_end :=
  match collections with
  | [] => ([], dispatch_done)
  | (collection_key, entry) :: rest =>
      match split_first "_" collection_key with
      | None =>
          ([], dispatch_raise
                 (ValueError "not enough values to unpack (expected 2, got 1)"))
      | Some (collection_name, collection_number) =>
          let download_item :=
            {| download_collection_key := collection_key;
               download_collection :=
                 {| collection_number := collection_number;
                    mode := mode (download_collection entry);
                    prescreen_ligands_per_tranche :=
                      prescreen_ligands_per_tranche (download_collection entry);
                    collection_ligands :=
                      collection_ligands (download_collection entry) |};
               s3_download_path := s3_download_path entry;
               s3_bucket := s3_bucket entry;
               sharedfs_path := sharedfs_path entry;
               collection_dockings := collection_dockings entry;
               ext := "tar.gz" |} in
          let continue :=
            let '(items, e) :=
              dispatch_collections ctx env prescreen_mode rest in
            (download_item :: items, e) in
          if decide (prescreen_mode = 0 ∧ dynamic_tranche_filtering ctx = 1)
          then
            match compiled_regex env with
            | None => ([], dispatch_return)
            | Some search =>
                if search collection_name then continue
                else ([], dispatch_break)
            end
          else continue
      end
  end.

(** ** Backends: result parsers and command builders *)

(** What the backend functions read from their surroundings: the lines of a
    file ([f.readlines()]), [float] on a string, [os.listdir] and
    [shutil.move]. *)
Record parser_env : Type := {
  readlines : string → result (list string);
  py_float : string → result Q;
  listdir : string → result (list string);
  move : string → string → result unit
}.

(** The values the variable [item] of a backend function takes: the task it
    was called with, or a string once a [for item in ...] loop has run. *)
Inductive pyval : Type :=
| py_task (t : docking_item)
| py_str (s : string).

(** [item[k]] for a key of the task: a string cannot be indexed by a key. *)
Definition subscript (item : pyval) : result docking_item :=
  match item with
  | py_task t => Ok t
  | py_str _ => Raise (TypeError "string indices must be integers")
  end.

(** [item[k] = v] *)
Definition assign (item : pyval) : result docking_item :=
  match item with
  | py_task t => Ok t
  | py_str _ =>
      Raise (TypeError "'str' object does not support item assignment")
  end.

(** [min(x)] on a float *)
Definition min_of_float (x : Q) : result Q :=
  Raise (TypeError "'float' object is not iterable").

(** [l[-k]] for [k > 0] *)
Definition list_getitem_neg {A} (l : list A) (k : nat) : result A :=
  if decide (k ≤ length l)%nat then list_getitem l (length l - k)
  else Raise (IndexError "list index out of range").

(** [sub in s] *)
Fixpoint occurs_in (sub s : string) : bool :=
  String.prefix sub s
  || match s with
     | EmptyString => false
     | String _ s' => occurs_in sub s'
     end.

(** [[x for x in s.split(' ') if x != '']] *)
Definition fields (s : string) : list string :=
  filter (fun x => x ≠ EmptyString) (split_on " " s).

(** [for item in lines: acc = body(item, acc)]: the loop rebinds [item] to
    each line; [body] gives the accumulator after the line, also when it
    leaves the iteration with [continue]. *)
Fixpoint for_item {S} (body : string → S → result S) (lines : list string)
    (item : pyval) (acc : S) : result (pyval * S) :=
  match lines with
  | [] => Ok (item, acc)
  | line :: rest =>
      acc' ← body line acc;
      for_item body rest (py_str line) acc'
  end.

(** [try: body except: handler], with the value each leaves. *)
Definition try_except {A} (body : result A) (handler : A) : A :=
  match body with
  | Ok a => a
  | Raise _ => handler
  end.

(** What a parser that sets neither score nor reason leaves: the status
    ([failed], from [process_docking_completion]) and the reason as they
    are. *)
Definition kept (item : docking_item) : Q + string :=
  inr (default EmptyString (log_reason <$> log item)).

Definition output_path (item : docking_item) : string :=
  output_dir item +:+ "/output".

(** [item['tmp_run_dir_input']], set by the set-up next to
    [item['tmp_run_dir']]. *)
Definition tmp_run_dir_input (item : docking_item) : result string :=
  d ← getitem (tmp_run_dir item) "tmp_run_dir_input";
  Ok (path_div d "input-files").

(** Lines 2350-2352: the loop of [docking_finish_rdock] over
    [enumerate(lines)]. *)
Fixpoint rdock_loop (fs : parser_env) (lines : list string) (i : nat)
    (todo : list string) (item : pyval) (score : list Q)
  : result (pyval * list Q) :=
  match todo with
  | [] => Ok (item, score)
  | line :: rest =>
      if decide (strip line = ">  <SCORE>") then
        next ← list_getitem lines (i + 1);
        x ← py_float fs next;
        rdock_loop fs lines (S i) rest (py_str line) (score ++ [x])
      else rdock_loop fs lines (S i) rest (py_str line) score
  end.

Definition docking_finish_rdock (fs : parser_env) (item : docking_item)
    (returncode : Z) (stdout stderr : string) : result (Q + string) :=
  Ok (try_except
        (lines ← readlines fs (output_path item);
         '(item', score) ← rdock_loop fs lines 0 lines (py_task item) [];
         lo ← py_min score;
         _ ← assign item';
         _ ← assign item';
         Ok (inl lo))
        (kept item)).

Definition docking_finish_mdock (fs : parser_env) (item : docking_item)
    (returncode : Z) (stdout stderr : string) : result (Q + string) :=
  Ok (try_except
        (d ← tmp_run_dir_input item;
         let output_file := path_join d "mdock_dock.out" in
         lines ← readlines fs output_file;
         '(item', docking_scores) ←
           for_item (fun item docking_scores =>
                       x ← list_getitem (fields item) 4;
                       x ← py_float fs x;
                       Ok (docking_scores ++ [x]))
                    lines (py_task item) [];
         t ← subscript item';
         _ ← move fs output_file (output_dir t);
         t ← subscript item';
         d' ← tmp_run_dir_input t;
         let mol_output_file := path_join d' "mdock_dock.mol2" in
         t ← subscript item';
         _ ← move fs mol_output_file (output_path t);
         lo ← py_min docking_scores;
         _ ← assign item';
         _ ← assign item';
         Ok (inl lo))
        (kept item)).

Definition docking_finish_mcdock (fs : parser_env) (item : docking_item)
    (returncode : Z) (stdout stderr : string) : result (Q + string) :=
  Ok (try_except
        (d ← tmp_run_dir_input item;
         let output_file := path_join d "out.xyz" in
         lines ← readlines fs output_file;
         let lines := filter (fun x => occurs_in "Binding Energy" x) lines in
         '(item', binding_energies) ←
           for_item (fun item binding_energies =>
                       x ← list_getitem (split_on " " item) 2;
                       x ← list_getitem (split_on "009" x) 0;
                       x ← py_float fs x;
                       Ok (binding_energies ++ [x]))
                    lines (py_task item) [];
         lo ← py_min binding_energies;
         _ ← assign item';
         _ ← assign item';
         (* the status is set: what [shutil.move] does next cannot undo it *)
         Ok (inl lo))
        (kept item)).

(** The two paths of [docking_finish_ligandfit] are built before its [try]:
    a task without [tmp_run_dir_input] raises. *)
Definition docking_finish_ligandfit (fs : parser_env) (item : docking_item)
    (returncode : Z) (stdout stderr : string) : result (Q + string) :=
  d ← tmp_run_dir_input item;
  let run_log :=
    path_join (path_join d "LigandFit_run_1_") "ligand_1_1.log" in
  Ok (try_except
        (lines ← readlines fs run_log;
         let lines := filter (fun x => occurs_in "Best score" x) lines in
         '(item', scores) ←
           for_item (fun item scores =>
                       x ← list_getitem_neg (fields item) 2;
                       x ← py_float fs x;
                       Ok (scores ++ [x]))
                    lines (py_task item) [];
         lo ← py_min scores;
         _ ← assign item';
         _ ← assign item';
         Ok (inl lo))
        (kept item)).

Definition docking_finish_rldock (fs : parser_env) (item : docking_item)
    (returncode : Z) (stdout stderr : string) : result (Q + string) :=
  Ok (try_except
        (d ← tmp_run_dir_input item;
         let docking_pose := path_join d "output_cluster.mol2" in
         lines ← readlines fs docking_pose;
         let lines := filter (fun x => occurs_in "# Total_Energy:" x) lines in
         '(item', docking_scores) ←
           for_item (fun item docking_scores =>
                       x ← list_getitem_neg (split_on " " item) 1;
                       x ← py_float fs x;
                       Ok (docking_scores ++ [x]))
                    lines (py_task item) [];
         t ← subscript item';
         _ ← move fs docking_pose (output_dir t);
         lo ← py_min docking_scores;
         _ ← assign item';
         _ ← assign item';
         Ok (inl lo))
        (kept item)).

Definition docking_finish_LightDock (fs : parser_env) (item : docking_item)
    (returncode : Z) (stdout stderr : string) : result (Q + string) :=
  Ok (try_except
        (d ← getitem (tmp_run_dir item) "tmp_run_dir";
         let docking_score_file :=
           path_join (path_join d "swarm_0") "gso_100.out" in
         lines ← readlines fs docking_score_file;
         let lines := drop 1 lines in
         '(item', scoring) ←
           for_item (fun item scoring =>
                       x ← list_getitem_neg (split_on " " item) 1;
                       x ← py_float fs x;
                       Ok (scoring ++ [x]))
                    lines (py_task item) [];
         t ← subscript item';
         d ← getitem (tmp_run_dir t) "tmp_run_dir";
         let docking_pose_file := path_join d "swarm_0" in
         names ← listdir fs docking_pose_file;
         complex_file ←
           list_getitem (filter (fun x => occurs_in ".pdb" x) names) 0;
         t ← subscript item';
         d ← getitem (tmp_run_dir t) "tmp_run_dir";
         let docking_pose_file :=
           path_join (path_join d "swarm_0") complex_file in
         t ← subscript item';
         _ ← move fs docking_pose_file (output_dir t);
         lo ← py_min scoring;
         _ ← assign item';
         _ ← assign item';
         Ok (inl lo))
        (kept item)).

Definition docking_finish_idock (fs : parser_env) (item : docking_item)
    (returncode : Z) (stdout stderr : string) : result (Q + string) :=
  Ok (try_except
        (x ← list_getitem_neg (fields stdout) 2;
         docking_out ← py_float fs x;
         lo ← min_of_float docking_out;
         Ok (inl lo))
        (kept item)).

Definition docking_finish_autodock (fs : parser_env) (item : docking_item)
    (returncode : Z) (stdout stderr : string) : result (Q + string) :=
  Ok (try_except
        (output ← list_getitem_neg (split_on "010" stdout) 6;
         lines ←
           list_getitem
             (strip <$> filter (fun x => occurs_in "best energy" x)
                          (letters output)) 0;
         x ← list_getitem (split_on "," lines) 1;
         x ← list_getitem_neg (split_on " " x) 2;
         docking_score ← py_float fs x;
         lo ← min_of_float docking_score;
         Ok (inl lo))
        (kept item)).

(** Lines 2270-2277: the loop of [docking_finish_adfr] over the characters
    of the output; its inner [try] leaves the iteration on any exception. *)
Definition adfr_line (fs : parser_env) (line_item : string)
    (docking_scores : list Q) : result (list Q) :=
  let A := fields line_item in
  Ok (try_except
        (_ ← (x ← list_getitem A 0; py_float fs x);
         a_2 ← (x ← list_getitem A 1; py_float fs x);
         _ ← (x ← list_getitem A 2; py_float fs x);
         Ok (docking_scores ++ [a_2]))
        docking_scores).

Definition docking_finish_adfr (fs : parser_env) (item : docking_item)
    (returncode : Z) (stdout stderr : string) : result (Q + string) :=
  Ok (try_except
        ('(_, docking_scores) ←
           for_item (adfr_line fs) (letters stdout) (py_task item) [];
         lo ← py_min docking_scores;
         Ok (inl lo))
        (kept item)).

(** Lines 2683-2702 and 2798-2809: [docking_start_idock] and
    [docking_start_autodock] on the lines of the configuration file, with
    [tools_path] for [item['tools_path']].  Both loop over the keys of the
    configuration with [for item in config_]. *)
Definition config_of (config_lines : result (list string))
  : result (dict string * option string) :=
  lines ← config_lines;
  let config_ := dict_of_pairs (read_config_line <$> lines) in
  config_' ← cut_comments config_ (dict_keys config_);
  Ok (config_', last (dict_keys config_)).

Definition rebound (item : docking_item) (last_key : option string) : pyval :=
  match last_key with
  | Some k => py_str k
  | None => py_task item
  end.

Definition docking_start_idock (config_lines : result (list string))
    (tools_path : string) (item : docking_item) : result (list string) :=
  '(config_, k) ← config_of config_lines;
  let item := rebound item k in
  _ ← subscript item;
  receptor ← getitem (dict_get "receptor" config_) "receptor";
  t ← subscript item;
  center_x ← getitem (dict_get "center_x" config_) "center_x";
  center_y ← getitem (dict_get "center_y" config_) "center_y";
  center_z ← getitem (dict_get "center_z" config_) "center_z";
  size_x ← getitem (dict_get "size_x" config_) "size_x";
  size_y ← getitem (dict_get "size_y" config_) "size_y";
  size_z ← getitem (dict_get "size_z" config_) "size_z";
  t' ← subscript item;
  Ok [tools_path +:+ "/idock"; "--receptor"; receptor;
      "--ligand"; ligand_path t;
      "--center_x"; center_x; "--center_y"; center_y; "--center_z"; center_z;
      "--size_x"; size_x; "--size_y"; size_y; "--size_z"; size_z;
      "--out"; output_path t'].

Definition docking_start_autodock (config_lines : result (list string))
    (tools_path : string) (item : docking_item) (arch_type : string)
  : result (list string) :=
  '(config_, k) ← config_of config_lines;
  let item := rebound item k in
  _ ← subscript item;
  receptor ← getitem (dict_get "receptor" config_) "receptor";
  t ← subscript item;
  Ok [tools_path +:+ "/autodock_" +:+ arch_type; "--ffile"; receptor;
      "--lfile"; ligand_path t].

(** * Vocabulary of the further properties *)

(** A string made of whitespace. *)
Fixpoint blank (s : string) : bool :=
  match s with
  | EmptyString => true
  | String c s' => isspace c && blank s'
  end.

(** What [load_config] leaves of a value: the text before its first [#]. *)
Definition uncomment (v : string) : string :=
  if contains "#" v then before_first "#" v else v.

(** The pair the last line with key [k] is read as. *)
Definition last_line_of (k : string) (lines : list string)
  : option (string * string) :=
  last (filter (fun kv => kv.1 = k) (read_config_line <$> lines)).

(** What the scenario table holds for the names up to index [n]: an entry
    is keyed by its own [key] field and comes from the last index below [n]
    with its name. *)
Definition scenario_from (raw : raw_config) (n : nat) (name : string)
    (sc : scenario) : Prop :=
  key sc = name
  ∧ ∃ i m,
      (i < n)%nat
      ∧ docking_scenario_names raw !! i = Some name
      ∧ (∀ j, (i < j < n)%nat → docking_scenario_names raw !! j ≠ Some name)
      ∧ docking_scenario_methods raw !! i = Some m
      ∧ scenario_program sc = program_of m
      ∧ docking_scenario_replicas raw !! i = Some (Ok (replicas sc))
      ∧ docking_scenario_batchsizes raw !! i = Some (Ok (batchsizes sc)).

Definition sample_raw_config : raw_config := {|
  docking_scenario_names := ["s1"; "s2"; "s1"];
  docking_scenario_methods := ["vina"; "smina_vinardo"; "qvina02"];
  docking_scenario_replicas := [Ok 1; Ok 2; Ok 3];
  docking_scenario_batchsizes := [Ok 1; Ok 1; Ok 5];
  raw_summary_formats := None
|}.

(** The artifact an upload is: its content type, and its scenario if it has
    one. *)
Definition artifact (u : upload_item) : string * option string :=
  match u with
  | upload_overview _ => ("summary", None)
  | upload_parquet sk _ => ("parquet", Some sk)
  | upload_csv sk _ _ => ("csv", Some sk)
  | upload_archive sk => ("logs", Some sk)
  end.

Definition sample_output_config : output_config := {|
  job_storage_mode := "s3";
  object_store_job_prefix := "jobs";
  job_name := "screen1";
  sharedfs_output_files_path := "/shared/out";
  workunit_id := "12";
  subjob_id := "3"
|}.

(** What a queue of summary items carries, by kind and in order of
    arrival. *)
Definition skips_of (queue : list summary_item) : list log_entry :=
  queue ≫= fun item =>
    match item with item_skip l => [l] | _ => [] end.

Definition failed_downloads_of (queue : list summary_item)
  : list download_log :=
  queue ≫= fun item =>
    match item with item_download_failed l => [l] | _ => [] end.

Definition tasks_of (queue : list summary_item) : list docking_item :=
  queue ≫= fun item =>
    match item with item_docking_complete items _ _ _ _ => items | _ => [] end.

(** The log entries of the tasks that did not succeed. *)
Definition failures_of (items : list docking_item) : list log_entry :=
  omap (fun it => if decide (status it = Some "success") then None
                  else log it) items.

(** The overview holds what the items of [queue] carried, added to what
    [o0] held. *)
Definition accounts (o0 : overview) (queue : list summary_item)
    (o : overview) : Prop :=
  skipped_ligand_list o = skipped_ligand_list o0 ++ skips_of queue
  ∧ skipped_ligands o
    = skipped_ligands o0 + Z.of_nat (length (skips_of queue))
  ∧ failed_downloads_log o
    = failed_downloads_log o0 ++ failed_downloads_of queue
  ∧ failed_downloads o
    = failed_downloads o0 + Z.of_nat (length (failed_downloads_of queue))
  ∧ failed_downloads_dockings o
    = failed_downloads_dockings o0
      + foldr Z.add 0 (dl_dockings <$> failed_downloads_of queue)
  ∧ total_dockings o
    = total_dockings o0 + Z.of_nat (length (tasks_of queue))
  ∧ failed_list o = failed_list o0 ++ failures_of (tasks_of queue).

(** The downloader's reports to the aggregator. *)
Definition reports (puts : list download_put) : list summary_item :=
  omap (fun p => match p with put_failed item => Some item | _ => None end)
       puts.

(** The put the downloader made for an item: the item forwarded with its
    archive path, or the report of its failed download with its docking
    count. *)
Definition put_for (item : download_queue_item) (p : download_put) : Prop :=
  match p with
  | put_unpack u =>
      unpack_collection_key u = download_collection_key item
      ∧ unpack_collection u = download_collection item
      ∧ local_path u = unpack_temp_dir u +:+ "/tmp." +:+ ext item
  | put_failed (item_download_failed l) =>
      dl_base_collection_key l = download_collection_key item
      ∧ collection_dockings item = Some (dl_dockings l)
      ∧ is_Some (s3_download_path item)
  | put_failed _ => False
  end.

Definition sample_download (k : string) (remote : option string)
  : download_queue_item := {|
  download_collection_key := k;
  download_collection :=
    {| collection_number := "1"; mode := "full";
       prescreen_ligands_per_tranche := 0; collection_ligands := [] |};
  s3_download_path := remote;
  s3_bucket := Some "bucket";
  sharedfs_path := None;
  collection_dockings := Some 40;
  ext := "tar.gz"
|}.

(** An object store that has every object but [missing]. *)
Definition sample_download_env (missing : string) : download_env := {|
  mkdtemp := fun prefix n => prefix +:+ "c" +:+ pretty n;
  download_fileobj := fun _ remote _ =>
    if decide (remote = missing) then client_error "404" else downloaded;
  copyfile := fun _ _ => Ok ()
|}.

(** A task as the validator submitted it: without what the executor sets. *)
Definition submitted (it : docking_item) : docking_item :=
  set_executor it None None None None None.

(** The tasks a worker took from the docking queue, in order. *)
Definition received (gets : list queue_get) : list docking_item :=
  omap (fun g => match g with got it => Some it | got_nothing => None end)
       gets.

Definition of_scenario (s : string) (items : list docking_item)
  : list docking_item :=
  filter (fun it => scenario_key it = s) items.

(** A batch as the worker reports it: processed one task at a time, not
    empty, of one configured scenario, and no longer than the batch size of
    the scenario (one task, when the batch size is below one). *)
Definition batch_ok (ctx : context) (put : summary_item) : Prop :=
  match put with
  | item_docking_complete items et sk u d =>
      et = "single" ∧ items ≠ [] ∧ u = None ∧ d = None
      ∧ ∃ k sc,
          dict_get k (docking_scenarios ctx) = Some sc ∧ sk = key sc
          ∧ Forall (fun it => scenario_key it = k) items
          ∧ Z.of_nat (length items) ≤ Z.max 1 (batchsizes sc)
  | _ => False
  end.

(** A task the executor can run to an outcome: its scenario is configured
    with a program of the single-ligand model, and the two functions of its
    own program return. *)
Definition task_ready (ctx : context) (env : executor_env)
    (it : docking_item) : Prop :=
  ∃ sc b0 b,
    dict_get (scenario_key it) (docking_scenarios ctx) = Some sc
    ∧ DOCKING_PROGRAMS env !! scenario_program sc = Some b0
    ∧ model b0 = Some "single"
    ∧ DOCKING_PROGRAMS env !! program it = Some b
    ∧ backend_returns b.

(** What the worker holds back: per scenario, tasks of that scenario, fewer
    than its batch size. *)
Definition held_ok (ctx : context) (iq : dict (list docking_item)) : Prop :=
  ∀ k l, dict_get k iq = Some l →
    Forall (fun it => scenario_key it = k) l
    ∧ ∃ sc, dict_get k (docking_scenarios ctx) = Some sc
            ∧ (l = [] ∨ Z.of_nat (length l) < batchsizes sc).

(** The tasks held back can all be run to an outcome. *)
Definition held_ready (ctx : context) (env : executor_env)
    (iq : dict (list docking_item)) : Prop :=
  ∀ k l, dict_get k iq = Some l → Forall (task_ready ctx env) l.

(** Every task taken so far is either in a reported batch or held back, and
    per scenario in the order it was taken. *)
Definition conserved (rec : list docking_item) (st : docking_state) : Prop :=
  ∀ s, submitted
         <$> (of_scenario s (tasks_of (summary_puts st))
              ++ default [] (dict_get s (items_queue st)))
       = submitted <$> of_scenario s rec.

(** Two scenarios with batch size two, and a task of each. *)
Definition batching_ctx : context := {|
  docking_scenarios :=
    [("s1", {| key := "s1"; scenario_program := "vina"; replicas := 1;
               batchsizes := 2 |});
     ("s2", {| key := "s2"; scenario_program := "vina"; replicas := 1;
               batchsizes := 2 |})];
  summary_formats := ["csv.gz"];
  run_atom_check := 0;
  dynamic_tranche_filtering := 0;
  program_timeout := 60;
  ctx_temp_dir := "/tmp/vf"
|}.

Definition submitted_task (scenario ligand : string) : docking_item :=
  submitted (sample_task scenario ligand "AB_1" "failed" None).

Definition sample_gets : list queue_get :=
  [got (submitted_task "s1" "lig1"); got (submitted_task "s2" "lig1");
   got (submitted_task "s1" "lig2"); got_nothing;
   got (submitted_task "s1" "lig3")].

(** The name of a collection, the text of its key before the first
    underscore, matches the tranche regex. *)
Definition tranche_matches (search : string → bool) (collection_key : string)
  : Prop :=
  ∃ name number,
    split_first "_" collection_key = Some (name, number)
    ∧ search name = true.

(** Three collections of a subjob; the second is of another tranche. *)
Definition sample_collections : dict download_queue_item :=
  [("AB_1", sample_download "AB_1" None);
   ("CD_1", sample_download "CD_1" None);
   ("AB_2", sample_download "AB_2" None)].

(** What [process_docking_completion] leaves of a task when the result
    parser set nothing: the status [failed], and the rest as it was. *)
Definition marked_failed (item : docking_item) : docking_item :=
  set_executor item (Some "failed") (score item) (uuid item)
    (tmp_run_dir item) (log item).

(** The result parsers of rDock, MDock, MCDock, LigandFit, RLDock,
    LightDock, iDock, AutoDock and ADFR. *)
Definition looping_parsers (fs : parser_env)
  : list (docking_item → Z → string → string → result (Q + string)) :=
  [docking_finish_rdock fs; docking_finish_mdock fs;
   docking_finish_mcdock fs; docking_finish_ligandfit fs;
   docking_finish_rldock fs; docking_finish_LightDock fs;
   docking_finish_idock fs; docking_finish_autodock fs;
   docking_finish_adfr fs].

(** An output of rDock with one score, read without an error. *)
Definition rdock_output : parser_env := {|
  readlines := fun _ => Ok [">  <SCORE>"; "-7.5"];
  py_float := fun _ => Ok (-15 # 2)%Q;
  listdir := fun _ => Ok [];
  move := fun _ _ => Ok ()
|}.

Definition rdock_backends : gmap string backend :=
  {[ "rdock" :=
       {| start := Some (fun t => Ok ["rbdock"; "-i"; ligand_path t]);
          finish := Some (docking_finish_rdock rdock_output);
          model := Some "single" |} ]}.

Definition rdock_task : docking_item := {|
  ligand_key := "lig1";
  ligand_path := "/tmp/vf/c1/1/lig1.sdf";
  scenario_key := "s1";
  collection_key := "AB_1";
  base_collection_key := "AB_1";
  program := "rdock";
  input_files_dir := "/tmp/vf/vf_input/input-files";
  timeout := 60;
  temp_dir := "/tmp/vf/c1";
  attrs := [("smi", "CCO")];
  output_dir := "/tmp/vf/c1/output/s1/lig1/0";
  status := None;
  score := None;
  uuid := Some "u0";
  tmp_run_dir := Some "/tmp/vf/run/u0";
  log := Some {| log_base_collection_key := "AB_1";
                 log_collection_key := "AB_1";
                 log_ligand_key := "lig1";
                 log_reason := "" |}
|}.

(** The exception a command builder ends with when it loops over the keys of
    its configuration with the variable of its task. *)
Definition rebinding_error (config_lines : result (list string)) : exn :=
  match config_lines with
  | Raise e => e
  | Ok [] => KeyError "receptor"
  | Ok (_ :: _) => TypeError "string indices must be integers"
  end.

(** The number of matches the three searches of [get_attrs] find on a line,
    and on the lines of a file. *)
Definition matches_on (re : attr_searches) (line : string) : nat :=
  let line := strip line in
  (length (option_list (search_smiles_current re line))
   + length (option_list (search_smiles re line))
   + length (option_list (search_heavy_atom_count re line)))%nat.

Definition matches_in (re : attr_searches) (lines : list string) : nat :=
  sum_list (matches_on re <$> lines).

(** The text after the first occurrence of [marker] in [line], without the
    whitespace it starts with. *)
Fixpoint after_prefix (marker s : string) : option string :=
  match marker, s with
  | EmptyString, _ => Some s
  | String a marker', String b s' =>
      if decide (a = b) then after_prefix marker' s' else None
  | String _ _, EmptyString => None
  end.

Fixpoint search_after (marker line : string) : option string :=
  match after_prefix marker line with
  | Some rest => Some (lstrip rest)
  | None =>
      match line with
      | EmptyString => None
      | String _ line' => search_after marker line'
      end
  end.

Definition sample_searches : attr_searches := {|
  search_smiles_current := search_after "SMILES_current:";
  search_smiles := search_after "SMILES:";
  search_heavy_atom_count := search_after "* Heavy atom count:"
|}.

(** * Properties *)

Set Warnings "-clear-no-such-hyp".

(** ** The completion state of one key *)

Lemma bind_Ok {A B} (m : result A) (f : A → result B) (b : B) :
  (m ≫= f) = Ok b → ∃ a, m = Ok a ∧ f a = Ok b.
Proof. destruct m as [a|e]; [eauto | discriminate]. Qed.

Lemma getitem_Ok {A} (o : option A) (key : string) (a : A) :
  getitem o key = Ok a → o = Some a.
Proof. destruct o; simpl; congruence. Qed.

(** ** The moves of entries *)

Lemma move_entries_log disk src p names : ∀ fs fs',
  move_entries disk src p names fs = Ok fs' →
  fs' = fs ++ (entry_moved p <$> names).
Proof.
  induction names as [|n names IH]; intros fs fs'; simpl.
  - intros [= <-]. by rewrite app_nil_r.
  - intros H. apply bind_Ok in H as (fs1 & H1 & H).
    unfold shutil_move in H1. case_decide; [done|].
    apply bind_Ok in H1 as (? & _ & [= <-]).
    apply IH in H as ->. by rewrite <- app_assoc.
Qed.

Lemma move_directory_log disk src p fs fs' :
  move_directory disk src p fs = Ok fs' →
  ∃ names, fs_iterdir disk fs src = Ok names
           ∧ fs' = fs ++ (entry_moved p <$> names).
Proof.
  unfold move_directory. intros H.
  apply bind_Ok in H as (names & Hls & H).
  exists names. split; [done|]. by apply move_entries_log in H.
Qed.

Lemma move_outputs_log disk dir sd : ∀ fs fs',
  move_outputs disk dir sd fs = Ok fs' →
  ∃ es : list (place * string),
    fs' = fs ++ ((fun e => entry_moved e.1 e.2) <$> es).
Proof.
  induction sd as [|sk sd IH]; intros fs fs'; simpl.
  - intros [= <-]. exists []. by rewrite app_nil_r.
  - intros H. apply bind_Ok in H as (fs1 & H1 & H).
    apply move_directory_log in H1 as (names & _ & ->).
    apply IH in H as (es & ->).
    exists (((fun n => (final_dir sk, n)) <$> names) ++ es).
    rewrite fmap_app, <- list_fmap_compose, <- app_assoc. done.
Qed.

Lemma moves_of_entries k fs (es : list (place * string)) :
  moves_of k (fs ++ ((fun e => entry_moved e.1 e.2) <$> es)) = moves_of k fs.
Proof.
  unfold moves_of. rewrite filter_app.
  assert (filter (fun e => is_move_of k e = true)
            ((fun e => entry_moved e.1 e.2) <$> es) = []) as ->.
  { induction es as [|e es IH]; [done|].
    rewrite fmap_cons, filter_cons_False; done. }
  by rewrite app_nil_r.
Qed.

Lemma moves_of_entries_to k fs p names :
  moves_of k (fs ++ (entry_moved p <$> names)) = moves_of k fs.
Proof.
  rewrite <- (moves_of_entries k fs ((fun n => (p, n)) <$> names)).
  by rewrite <- list_fmap_compose.
Qed.

(** What a check that returns has done: nothing, or the moves of the
    transition, the removal of the scratch directory and the removal of the
    entry. *)
Lemma check_Ok disk cc fs k sd r :
  check_for_completion_of_collection_key disk cc fs k sd = Ok r →
  ∃ c, cc !! k = Some c
       ∧ if decide (current_completions c = expected_completions c)
         then ∃ fs1, move_outputs disk (completion_temp_dir c) sd fs = Ok fs1
                     ∧ fs_rmtree disk fs1 (completion_temp_dir c) = Ok ()
                     ∧ r = (delete k cc,
                            fs1 ++ [collection_moved k (completion_temp_dir c)
                                      sd])
         else r = (cc, fs).
Proof.
  unfold check_for_completion_of_collection_key. intros H.
  apply bind_Ok in H as (c & Hc%getitem_Ok & H). exists c. split; [done|].
  case_decide; [|by injection H as <-].
  apply bind_Ok in H as (fs1 & H1 & H).
  apply bind_Ok in H as ([] & H2 & [= <-]). by exists fs1.
Qed.

(** What [move_batch_logs] has done when it returns. *)
Lemma move_batch_logs_Ok disk sd st sk u dir st' :
  move_batch_logs disk sd st sk u dir = Ok st' →
  ∃ u' dir' names,
    sk ∈ sd ∧ u = Some u' ∧ dir = Some dir'
    ∧ st' = set_completions st
              (collection_completions st,
               (fs_log st ++ (entry_moved (batch_dir sk u') <$> names))
               ++ [batch_logs_moved sk u' dir']).
Proof.
  unfold move_batch_logs. case_decide as Hin; [|discriminate].
  intros H. apply bind_Ok in H as (u' & ->%getitem_Ok & H).
  apply bind_Ok in H as (d' & ->%getitem_Ok & H).
  apply bind_Ok in H as (fs1 & (names & _ & ->)%move_directory_log & H).
  apply bind_Ok in H as ([] & _ & [= <-]).
  by exists u', d', names.
Qed.

(** The aggregator seen from one collection key [k], with the final
    directories [sd] of the scenarios. *)
Section one_key.
  Context (k : string) (sd : list string).

Lemma moves_of_app fs1 fs2 :
  moves_of k (fs1 ++ fs2) = moves_of k fs1 ++ moves_of k fs2.
Proof. apply filter_app. Qed.

Lemma moves_of_moved_eq d :
  moves_of k [collection_moved k d sd] = [collection_moved k d sd].
Proof.
  unfold moves_of. rewrite filter_cons_True; [done|].
  simpl. by rewrite bool_decide_eq_true.
Qed.

Lemma moves_of_moved_ne k' d :
  k' ≠ k → moves_of k [collection_moved k' d sd] = [].
Proof.
  intros Hne. unfold moves_of. rewrite filter_cons_False; [done|].
  simpl. rewrite bool_decide_eq_true. congruence.
Qed.

Lemma check_same {disk} cc fs c r :
  cc !! k = Some c →
  check_for_completion_of_collection_key disk cc fs k sd = Ok r →
  (r.1 !! k, moves_of k r.2) = key_check k sd c (moves_of k fs).
Proof.
  intros Hc (c' & Hc' & H)%check_Ok. simplify_eq. unfold key_check.
  case_decide.
  - destruct H as (fs1 & (es & ->)%move_outputs_log & _ & ->). simpl.
    by rewrite lookup_delete_eq, moves_of_app, moves_of_moved_eq,
      moves_of_entries.
  - subst r. simpl. by rewrite Hc.
Qed.

Lemma check_other {disk} k' cc fs r :
  k' ≠ k →
  check_for_completion_of_collection_key disk cc fs k' sd = Ok r →
  r.1 !! k = cc !! k ∧ moves_of k r.2 = moves_of k fs.
Proof.
  intros Hne (c & Hc & H)%check_Ok. case_decide; [|by subst r].
  destruct H as (fs1 & (es & ->)%move_outputs_log & _ & ->). simpl.
  rewrite lookup_delete_ne by done.
  by rewrite moves_of_app, moves_of_moved_ne, app_nil_r, moves_of_entries.
Qed.

Lemma count_completion_same {disk} st st' :
  count_completion disk sd st k = Ok st' →
  key_view k st' = key_step k sd (key_view k st) key_outcome.
Proof.
  unfold count_completion, key_view, key_step. simpl.
  destruct (collection_completions st !! k) as [c|] eqn:Hc.
  - intros H. apply bind_Ok in H as (cf & Hcf & [= <-]). simpl.
    eapply check_same in Hcf; [exact Hcf|]. by rewrite lookup_insert_eq.
  - intros [= <-]. simpl. by rewrite lookup_insert_eq.
Qed.

Lemma count_completion_other {disk} k' st st' :
  k' ≠ k →
  count_completion disk sd st k' = Ok st' →
  key_view k st' = key_view k st.
Proof.
  intros Hne. unfold count_completion, key_view.
  destruct (collection_completions st !! k') as [c|] eqn:Hc.
  - intros H. apply bind_Ok in H as (cf & Hcf & [= <-]). simpl.
    apply check_other in Hcf as [-> ->]; [|done].
    by rewrite lookup_insert_ne.
  - intros [= <-]. simpl. by rewrite lookup_insert_ne.
Qed.

Lemma count_completion_rest {disk} st st' key :
  count_completion disk sd st key = Ok st' →
  overview_data st' = overview_data st
  ∧ summary_data st' = summary_data st
  ∧ dockings_processed st' = dockings_processed st.
Proof.
  unfold count_completion.
  destruct (collection_completions st !! key) as [c|].
  - intros H. apply bind_Ok in H as (cf & Hcf & [= <-]). done.
  - intros [= <-]. done.
Qed.

(** The part of [single_item_step] before the completion accounting. *)
Lemma single_item_step_inv {disk} st it st' :
  single_item_step disk sd st it = Ok st' →
  ∃ st1, collection_completions st1 = collection_completions st
         ∧ fs_log st1 = fs_log st
         ∧ dockings_processed st1 = dockings_processed st
         ∧ count_completion disk sd st1 (base_collection_key it) = Ok st'.
Proof.
  unfold single_item_step. intros H.
  apply bind_Ok in H as (s & _ & H).
  apply bind_Ok in H as (o & _ & H).
  apply bind_Ok in H as (st1 & H1 & H).
  exists st1. split_and!; [..|done].
  all: case_decide.
  all: try (apply bind_Ok in H1 as (? & _ & [= <-]); done).
Qed.

Lemma single_item_step_view {disk} st it st' :
  single_item_step disk sd st it = Ok st' →
  key_view k st' =
    if decide (base_collection_key it = k)
    then key_step k sd (key_view k st) key_outcome
    else key_view k st.
Proof.
  intros H. apply single_item_step_inv in H as (st1 & Hcc & Hfs & _ & H).
  assert (key_view k st1 = key_view k st) as <-.
  { unfold key_view. by rewrite Hcc, Hfs. }
  case_decide as Hk.
  - rewrite Hk in H. by eapply count_completion_same.
  - by eapply count_completion_other.
Qed.

Lemma items_loop_view {disk} items : ∀ st st',
  items_loop disk sd st items = Ok st' →
  key_view k st' =
    foldl (key_step k sd) (key_view k st)
      ((fun _ => key_outcome) <$> outcomes_of_items k items).
Proof.
  induction items as [|it items IH]; intros st st'; simpl.
  - by intros [= <-].
  - intros H. apply bind_Ok in H as (st1 & H1 & H).
    apply IH in H. rewrite H.
    apply single_item_step_view in H1. rewrite H1.
    unfold outcomes_of_items. case_decide.
    + by rewrite filter_cons_True.
    + by rewrite filter_cons_False.
Qed.

Lemma move_batch_logs_view {disk} st sk u dir st' :
  move_batch_logs disk sd st sk u dir = Ok st' →
  key_view k st' = key_view k st.
Proof.
  intros (u' & d' & names & _ & _ & _ & ->)%move_batch_logs_Ok.
  unfold key_view. simpl. rewrite moves_of_app, moves_of_entries_to. simpl.
  unfold moves_of at 2. rewrite filter_cons_False, filter_nil, app_nil_r; done.
Qed.

Lemma summary_step_view {disk} st item st' :
  summary_step disk sd st item = Ok st' →
  key_view k st' =
    foldl (key_step k sd) (key_view k st) (key_events_of_item k item).
Proof.
  destruct item as [dir k' expected|l|l|items et sk u dir]; simpl.
  - intros H. apply bind_Ok in H as (cf & Hcf & [= <-]).
    case_decide as Hk.
    + subst k'. simpl. unfold key_step, key_view. simpl.
      destruct (collection_completions st !! k) as [c|] eqn:Hc.
      * eapply check_same in Hcf; [exact Hcf|]. by rewrite lookup_insert_eq.
      * eapply check_same in Hcf; [exact Hcf|]. by rewrite lookup_insert_eq.
    + simpl. unfold key_view. simpl.
      apply check_other in Hcf as [-> ->]; [|done].
      destruct (collection_completions st !! k'); by rewrite lookup_insert_ne.
  - by intros [= <-].
  - by intros [= <-].
  - intros H. apply bind_Ok in H as (st1 & H1 & H).
    apply items_loop_view in H1.
    assert (key_view k st' = key_view k st1) as ->.
    { case_decide; [by eapply move_batch_logs_view | by injection H as <-]. }
    rewrite H1. done.
Qed.

Lemma summary_loop_view {disk} queue : ∀ st st',
  summary_loop disk sd st queue = Ok st' →
  key_view k st' = foldl (key_step k sd) (key_view k st) (key_events k queue).
Proof.
  induction queue as [|item queue IH]; intros st st'; simpl.
  - by intros [= <-].
  - intros H. apply bind_Ok in H as (st1 & H1 & H).
    apply IH in H. rewrite H.
    apply summary_step_view in H1. rewrite H1.
    unfold key_events. simpl. by rewrite foldl_app.
Qed.

Lemma event_markers_app es1 es2 :
  event_markers (es1 ++ es2) = event_markers es1 ++ event_markers es2.
Proof.
  induction es1 as [|[d n|] es1 IH]; simpl; [done| |done]. by rewrite IH.
Qed.

Lemma event_outcomes_app es1 es2 :
  event_outcomes (es1 ++ es2) = (event_outcomes es1 + event_outcomes es2)%nat.
Proof.
  induction es1 as [|[d n|] es1 IH]; simpl; [done|done|]. by rewrite IH.
Qed.

Lemma event_markers_outcomes {A} (l : list A) :
  event_markers ((fun _ => key_outcome) <$> l) = [].
Proof. induction l; simpl; done. Qed.

Lemma event_outcomes_outcomes {A} (l : list A) :
  event_outcomes ((fun _ => key_outcome) <$> l) = length l.
Proof. induction l; simpl; [done|]. by f_equal. Qed.

Lemma key_events_markers queue :
  event_markers (key_events k queue) = markers_for k queue.
Proof.
  unfold key_events, markers_for.
  induction queue as [|item queue IH]; [done|].
  rewrite !bind_cons, event_markers_app, IH. f_equal.
  destruct item; simpl; try done.
  - case_decide; done.
  - apply event_markers_outcomes.
Qed.

Lemma key_events_outcomes queue :
  event_outcomes (key_events k queue) = length (outcomes_for k queue).
Proof.
  unfold key_events, outcomes_for.
  induction queue as [|item queue IH]; [done|].
  rewrite !bind_cons, event_outcomes_app, length_app, IH. f_equal.
  destruct item; simpl; try done.
  - case_decide; done.
  - apply event_outcomes_outcomes.
Qed.

Lemma key_run_quiet es v :
  event_markers es = [] → event_outcomes es = 0%nat →
  foldl (key_step k sd) v es = v.
Proof. destruct es as [|[d n|] es]; simpl; done. Qed.

Ltac key_step_now :=
  match goal with
  | |- context [foldl _ ?v _] =>
      let E := fresh "E" in
      let v' := fresh "v" in
      remember v as v' eqn:E; unfold key_step, key_check in E;
      simpl in E; try case_decide; subst v'
  end.

Ltac owed_entry :=
  eexists; split; [reflexivity|]; simpl; split_and!; try done; lia.

Lemma key_run_owed dir n es : ∀ v,
  owed dir n es v →
  foldl (key_step k sd) v es = (None, v.2 ++ [collection_moved k dir sd]).
Proof.
  induction es as [|e es IH]; intros [oc moved]; unfold owed at 1; simpl.
  - intros [(_ & ? & _)|[(c & _ & _ & _ & ? & _)|(c & _ & _ & _ & ? & _ & ?)]];
      simpl in *; try done. lia.
  - intros [(-> & Hm & Ho)|[(c & -> & He & Hc & Hm & Ho)
                            |(c & -> & He & Hd & Hc & Hm & Ho)]];
      destruct e as [d m|]; simpl in *; simplify_eq.
    + (* the marker arrives first *)
      key_step_now.
      * rewrite key_run_quiet; [done|done|lia].
      * apply IH. right; right. owed_entry.
    + (* an outcome arrives first *)
      key_step_now. apply IH. right; left.
      owed_entry.
    + (* the marker arrives after some outcomes *)
      key_step_now.
      * rewrite key_run_quiet; [done|done|lia].
      * apply IH. right; right. owed_entry.
    + key_step_now; [lia|].
      apply IH. right; left. owed_entry.
    + key_step_now.
      * rewrite key_run_quiet; [done|done|lia].
      * apply IH. right; right. owed_entry.
Qed.

Lemma key_run_unmarked es : ∀ v,
  event_markers es = [] → unmarked v →
  let v' := foldl (key_step k sd) v es in
  v'.2 = v.2 ∧ unmarked v'
  ∧ current_of v' = current_of v + Z.of_nat (event_outcomes es)
  ∧ (event_outcomes es = 0%nat → v'.1 = v.1).
Proof.
  induction es as [|e es IH]; intros [oc moved] Hm Hu; simpl.
  - split_and!; try done. lia.
  - destruct e as [d m|]; [done|]. simpl in Hm.
    destruct oc as [c|]; unfold unmarked, current_of in *; simpl in *.
    + destruct Hu as [He Hc].
      key_step_now; [lia|].
      edestruct (IH (Some {| expected_completions := expected_completions c;
                  current_completions := current_completions c + 1;
                  completion_temp_dir := completion_temp_dir c |}, moved))
        as (H1 & H2 & H3 & H4); [done|simpl; lia|].
      simpl in *. split_and!; try done. lia.
    + key_step_now.
      edestruct (IH (Some {| expected_completions := -1;
                  current_completions := 1;
                  completion_temp_dir := "" |}, moved))
        as (H1 & H2 & H3 & H4); [done|simpl; lia|].
      simpl in *. split_and!; try done. lia.
Qed.

Lemma key_run_nonneg es : ∀ v,
  0 ≤ current_of v → 0 ≤ current_of (foldl (key_step k sd) v es).
Proof.
  induction es as [|e es IH]; intros [oc moved] Hv; simpl; [done|].
  apply IH. unfold current_of in *.
  destruct e as [d m|], oc as [c|]; unfold key_step, key_check; simpl in *;
    try case_decide; simpl; lia.
Qed.

End one_key.

(** ** The aggregator does not raise on well-formed items *)

Lemma count_docking_inv o s o' :
  count_docking o s = Ok o' →
  ∃ n, dockings_status o !! s = Some n
       ∧ dockings_status o' = <[s := n + 1]> (dockings_status o)
       ∧ total_dockings o' = total_dockings o + 1.
Proof.
  unfold count_docking. intros H.
  apply bind_Ok in H as (n & Hn%getitem_Ok & [= <-]). eauto.
Qed.

Lemma record_score_dom sd it sd' s :
  record_score sd it = Ok sd' → is_Some (sd !! s) → is_Some (sd' !! s).
Proof.
  unfold record_score. intros H Hs.
  apply bind_Ok in H as (rows & _ & H).
  apply bind_Ok in H as (sc & _ & H).
  destruct (dict_get _ _); injection H as <-;
    rewrite lookup_insert_is_Some; destruct (decide (scenario_key it = s)); auto.
Qed.

Lemma moved_to_app p fs1 fs2 :
  moved_to p (fs1 ++ fs2) = moved_to p fs1 ++ moved_to p fs2.
Proof. apply omap_app. Qed.

(** A move whose destination holds an entry of the same name raises. *)
Lemma shutil_move_exists disk src n p fs :
  n ∈ moved_to p fs →
  shutil_move disk src n p fs
  = Raise (OSError ("Destination path '" +:+ path_join (show_place p) n
                    +:+ "' already exists")).
Proof. intros Hin. unfold shutil_move. by rewrite decide_True. Qed.

(** On a disk that cooperates. *)
Section cooperative_disk.
  Context (disk : file_system).
  Hypothesis Hdisk : cooperative disk.

Lemma move_entries_ok src p names : ∀ fs,
  NoDup names → (∀ n, n ∈ names → n ∉ moved_to p fs) →
  ∃ fs', move_entries disk src p names fs = Ok fs'.
Proof.
  destruct Hdisk as (_ & _ & Hmove & _).
  induction names as [|n names IH]; intros fs Hnd Hfresh; simpl; [eauto|].
  apply NoDup_cons in Hnd as [Hn Hnd].
  unfold shutil_move. rewrite decide_False by (apply Hfresh; by left).
  rewrite Hmove. simpl. apply IH; [done|].
  intros n' Hn'. rewrite moved_to_app, not_elem_of_app. split.
  - apply Hfresh. by right.
  - simpl. rewrite decide_True by done. simpl.
    rewrite list_elem_of_singleton. by intros ->.
Qed.

Lemma move_directory_ok src p fs :
  listing_fresh disk fs src p →
  ∃ fs', move_directory disk src p fs = Ok fs'.
Proof.
  intros (names & Hls & Hnd & Hfresh). unfold move_directory.
  rewrite Hls. simpl. by apply move_entries_ok.
Qed.

Lemma move_outputs_ok dir sd : ∀ fs,
  ∃ fs', move_outputs disk dir sd fs = Ok fs'.
Proof.
  induction sd as [|sk sd IH]; intros fs; simpl; [eauto|].
  destruct (move_directory_ok (path_div (path_div dir "output") sk)
              (final_dir sk) fs) as [fs1 ->]; [apply Hdisk|].
  simpl. apply IH.
Qed.

Lemma check_present_ok cc fs k sd :
  is_Some (cc !! k) →
  ∃ r, check_for_completion_of_collection_key disk cc fs k sd = Ok r.
Proof.
  intros [c Hc]. unfold check_for_completion_of_collection_key.
  rewrite Hc. simpl. case_decide; [|eauto].
  destruct (move_outputs_ok (completion_temp_dir c) sd fs) as [fs1 ->].
  simpl. destruct Hdisk as (_ & _ & _ & Hrm). rewrite Hrm. simpl. eauto.
Qed.

Lemma count_completion_ok sd st k :
  ∃ st', count_completion disk sd st k = Ok st'.
Proof.
  unfold count_completion. destruct (collection_completions st !! k); [|eauto].
  edestruct check_present_ok as [r ->]; [|simpl; eauto].
  rewrite lookup_insert_eq. eauto.
Qed.

Lemma single_item_step_ok sd st it :
  state_ok sd st → task_ok sd it →
  ∃ st', single_item_step disk sd st it = Ok st' ∧ state_ok sd st'.
Proof.
  intros (Hs & Hf & Hsd) Hit. unfold single_item_step.
  assert (∀ st1, state_ok sd st1 →
            ∃ st', count_completion disk sd st1 (base_collection_key it) = Ok st'
                   ∧ state_ok sd st') as Hcc.
  { intros st1 H1. destruct (count_completion_ok sd st1 (base_collection_key it))
      as [st' Hst']. exists st'. split; [done|].
    apply count_completion_rest in Hst' as (Ho & Hd & _).
    unfold state_ok. by rewrite Ho, Hd. }
  destruct Hit as [(Hst & Hsk & [sc Hsc])|(Hst & [l Hl])]; rewrite Hst; simpl.
  - destruct Hs as [a Ha]. unfold count_docking. rewrite Ha. simpl.
    destruct (Hsd _ Hsk) as [rows Hrows].
    unfold record_score. simpl. rewrite Hrows, Hsc. simpl.
    destruct (dict_get (ligand_key it) rows); simpl; apply Hcc;
      (split_and!; simpl;
       [rewrite lookup_insert_eq; eauto
       |rewrite lookup_insert_ne by done; done
       |intros s' Hin; rewrite lookup_insert_is_Some;
        destruct (decide (scenario_key it = s')); auto]).
  - destruct Hf as [b Hb]. unfold count_docking. rewrite Hb. simpl.
    rewrite Hl. simpl. apply Hcc.
    split_and!; simpl;
      [rewrite lookup_insert_ne by done; done
      |rewrite lookup_insert_eq; eauto|done].
Qed.

Lemma items_loop_ok sd items : ∀ st,
  state_ok sd st → Forall (task_ok sd) items →
  ∃ st', items_loop disk sd st items = Ok st' ∧ state_ok sd st'.
Proof.
  induction items as [|it items IH]; intros st Hst Hall; simpl; [eauto|].
  apply Forall_cons in Hall as [Hit Hall].
  destruct (single_item_step_ok sd st it) as (st1 & -> & H1); [done..|].
  simpl. by apply IH.
Qed.

Lemma summary_step_ok sd st item :
  state_ok sd st → summary_item_ok sd item →
  ∃ st', summary_step disk sd st item = Ok st' ∧ state_ok sd st'.
Proof.
  intros Hst Hit. destruct item as [dir k expected|l|l|items et sk u dir]; simpl.
  - edestruct check_present_ok as [r ->].
    { destruct (collection_completions st !! k); rewrite lookup_insert_eq; eauto. }
    simpl. eauto.
  - eauto.
  - eauto.
  - destruct Hit as [Hall Hb].
    edestruct (items_loop_ok sd items) as (st1 & -> & H1); [|done|].
    { exact Hst. }
    simpl. case_decide as Het; [|eauto].
    destruct (Hb Het) as (Hsk & [u' ->] & [d' ->]).
    unfold move_batch_logs. rewrite decide_True by done. simpl.
    destruct (move_directory_ok (pure_path d') (batch_dir sk u') (fs_log st1))
      as [fs1 ->]; [apply Hdisk|].
    simpl. destruct Hdisk as (_ & _ & _ & Hrm). rewrite Hrm. simpl. eauto.
Qed.

Lemma summary_loop_ok sd queue : ∀ st,
  state_ok sd st → Forall (summary_item_ok sd) queue →
  ∃ st', summary_loop disk sd st queue = Ok st' ∧ state_ok sd st'.
Proof.
  induction queue as [|item queue IH]; intros st Hst Hall; simpl; [eauto|].
  apply Forall_cons in Hall as [Hit Hall].
  destruct (summary_step_ok sd st item) as (st1 & -> & H1); [done..|].
  simpl. by apply IH.
Qed.

End cooperative_disk.

Lemma initial_summary_data sd : ∀ m s,
  is_Some (foldl (fun m k => <[k := []]> m) m sd !! s)
  ↔ s ∈ sd ∨ is_Some ((m : gmap string (dict summary_row)) !! s).
Proof.
  induction sd as [|k sd IH]; intros m s; simpl.
  - rewrite elem_of_nil. tauto.
  - rewrite IH, lookup_insert_is_Some, elem_of_cons.
    destruct (decide (k = s)) as [->|Hne]; intuition congruence.
Qed.

Lemma initial_state_ok sd : state_ok sd (initial_state sd).
Proof.
  split_and!; simpl; [by eexists|by eexists|].
  intros s Hs. apply initial_summary_data. by left.
Qed.

(** ** Claims on the aggregator's loop *)

Lemma count_docking_balanced o s o' :
  count_docking o s = Ok o' → balanced o → balanced o'.
Proof.
  intros (n & Hn & Hds & Ht)%count_docking_inv (a & b & Hab & Hsum).
  unfold balanced. rewrite Hds, Ht, Hab. rewrite Hab in Hn.
  destruct (decide (s = "success")) as [->|Hs].
  - rewrite lookup_insert_eq in Hn. injection Hn as <-.
    exists (a + 1), b. split; [by rewrite insert_insert_eq | lia].
  - rewrite lookup_insert_ne in Hn by done.
    apply lookup_singleton_Some in Hn as [<- <-].
    exists a, (b + 1). split; [|lia].
    rewrite insert_insert_ne by done. by rewrite insert_singleton_eq.
Qed.

Lemma single_item_step_balanced {disk} sd st it st' :
  single_item_step disk sd st it = Ok st' →
  balanced (overview_data st) → balanced (overview_data st').
Proof.
  unfold single_item_step. intros H Hb.
  apply bind_Ok in H as (s & _ & H).
  apply bind_Ok in H as (o & Ho & H).
  apply bind_Ok in H as (st1 & H1 & H).
  apply count_completion_rest in H as (-> & _ & _).
  apply count_docking_balanced in Ho; [|done].
  case_decide.
  - apply bind_Ok in H1 as (? & _ & [= <-]). done.
  - apply bind_Ok in H1 as (? & _ & [= <-]). done.
Qed.

Lemma items_loop_balanced {disk} sd items : ∀ st st',
  items_loop disk sd st items = Ok st' →
  balanced (overview_data st) → balanced (overview_data st').
Proof.
  induction items as [|it items IH]; intros st st'; simpl.
  - by intros [= <-].
  - intros H Hb. apply bind_Ok in H as (st1 & H1 & H).
    eapply IH; [done|]. by eapply single_item_step_balanced.
Qed.

Lemma summary_step_balanced {disk} sd st item st' :
  summary_step disk sd st item = Ok st' →
  balanced (overview_data st) → balanced (overview_data st').
Proof.
  destruct item as [dir k expected|l|l|items et sk u dir]; simpl.
  - intros H. apply bind_Ok in H as (cf & _ & [= <-]). done.
  - by intros [= <-].
  - by intros [= <-].
  - intros H Hb. apply bind_Ok in H as (st1 & H1 & H).
    apply items_loop_balanced in H1; [|done].
    case_decide; [|by injection H as <-].
    apply move_batch_logs_Ok in H as (? & ? & ? & _ & _ & _ & ->). done.
Qed.

Lemma summary_loop_balanced {disk} sd queue : ∀ st st',
  summary_loop disk sd st queue = Ok st' →
  balanced (overview_data st) → balanced (overview_data st').
Proof.
  induction queue as [|item queue IH]; intros st st'; simpl.
  - by intros [= <-].
  - intros H Hb. apply bind_Ok in H as (st1 & H1 & H).
    eapply IH; [done|]. by eapply summary_step_balanced.
Qed.

(** C5.  After every summary item the aggregator has handled, the overview
    counters agree: [dockings_status.success + dockings_status.failed] is
    [total_dockings].  A task whose status is neither ["success"] nor
    ["failed"] makes line 761 raise [KeyError], so no state is reached with
    such a task counted. *)
Theorem overview_counters_balance (disk : file_system) (sd : list string)
    (queue : list summary_item) (st : summary_state) :
  summary_loop disk sd (initial_state sd) queue = Ok st →
  ∃ a b, dockings_status (overview_data st) !! "success" = Some a
         ∧ dockings_status (overview_data st) !! "failed" = Some b
         ∧ a + b = total_dockings (overview_data st).
Proof.
  intros H. apply summary_loop_balanced in H as (a & b & Hab & Hsum).
  - exists a, b. rewrite Hab. split_and!; [done|done|done].
  - exists 0, 0. done.
Qed.

(** A listing that shows a name already moved into the destination makes
    the moves raise. *)
Lemma move_entries_collides disk src p names n : ∀ fs,
  n ∈ names → n ∈ moved_to p fs →
  ∃ e, move_entries disk src p names fs = Raise e.
Proof.
  induction names as [|m names IH]; intros fs Hin Hmoved;
    [by apply elem_of_nil in Hin|].
  cbn [move_entries]. unfold shutil_move.
  destruct (decide (m ∈ moved_to p fs)) as [Hm|Hm]; [by eexists|].
  destruct (fs_move disk fs (path_div src m) p) as [[]|e]; [|by eexists].
  cbn [mbind result_bind].
  apply elem_of_cons in Hin as [->|Hin]; [done|].
  apply IH; [done|]. rewrite moved_to_app, elem_of_app. by left.
Qed.

Lemma move_outputs_app disk dir pre rest : ∀ fs,
  move_outputs disk dir (pre ++ rest) fs
  = (fs1 ← move_outputs disk dir pre fs; move_outputs disk dir rest fs1).
Proof.
  induction pre as [|sk pre IH]; intros fs; [done|].
  cbn [app move_outputs].
  destruct (move_directory disk _ (final_dir sk) fs) as [fs1|e]; [|done].
  cbn [mbind result_bind]. apply IH.
Qed.

(** C1, amended.  Take a queue in which key [k] has exactly one delete
    marker, with scratch directory [dir] and expected count [n], and exactly
    [n] per-task docking outcomes, in any interleaving with each other and
    with the items of other collections.  On every run in which the
    aggregator handles the queue without an exception, the completion
    transition of [k] (scenario output moved to the final tree, [dir]
    removed, entry popped) happens exactly once, and the entry of [k] is
    gone at the end.  The aggregator does handle the queue without an
    exception when its items are well formed and the disk cooperates.  When
    the transition of [k] is due and the listing of a scenario's output
    directory shows a name that was already moved into that scenario's final
    directory, the check raises instead of completing the transition. *)
Theorem completion_fires_exactly_once (disk : file_system) (sd : list string)
    (queue : list summary_item) (k dir : string) (n : Z) :
  markers_for k queue = [(dir, n)] →
  Z.of_nat (length (outcomes_for k queue)) = n →
  (∀ st, summary_loop disk sd (initial_state sd) queue = Ok st →
         moves_of k (fs_log st) = [collection_moved k dir sd]
         ∧ collection_completions st !! k = None)
  ∧ (Forall (summary_item_ok sd) queue → cooperative disk →
     ∃ st, summary_loop disk sd (initial_state sd) queue = Ok st)
  ∧ (∀ cc fs c pre sk post fs1 names name,
       cc !! k = Some c →
       current_completions c = expected_completions c →
       sd = pre ++ sk :: post →
       move_outputs disk (completion_temp_dir c) pre fs = Ok fs1 →
       fs_iterdir disk fs1
         (path_div (path_div (completion_temp_dir c) "output") sk)
       = Ok names →
       name ∈ names → name ∈ moved_to (final_dir sk) fs1 →
       ∃ e, check_for_completion_of_collection_key disk cc fs k sd
            = Raise e).
Proof.
  intros Hm Hn. split_and!.
  - intros st Hst. apply (summary_loop_view k) in Hst.
    rewrite (key_run_owed k sd dir n) in Hst.
    + unfold key_view in Hst. simpl in Hst. by injection Hst as -> ->.
    + left. simpl. rewrite key_events_markers, key_events_outcomes. done.
  - intros Hok Hdisk.
    destruct (summary_loop_ok disk Hdisk sd queue (initial_state sd))
      as (st & Hst & _); [apply initial_state_ok|done|].
    by exists st.
  - intros cc fs c pre sk post fs1 names name Hc Heq -> Hpre Hls Hin Hmoved.
    unfold check_for_completion_of_collection_key.
    rewrite Hc. cbn [getitem mbind result_bind].
    rewrite decide_True by done.
    rewrite move_outputs_app, Hpre. cbn [mbind result_bind move_outputs].
    unfold move_directory. rewrite Hls. cbn [mbind result_bind].
    destruct (move_entries_collides disk
                (path_div (path_div (completion_temp_dir c) "output") sk)
                (final_dir sk) names name fs1 Hin Hmoved) as [e ->].
    by exists e.
Qed.

(** C3.  In every state the aggregator reaches, as long as no delete marker
    of key [k] has arrived: no completion transition of [k] has happened; an
    entry of [k], which docking outcomes created, has [expected_completions]
    at the sentinel -1 and [current_completions] at least 1, and the
    completion check on it changes nothing.  In every reached state
    [current_completions] is non-negative for every key. *)
Theorem no_completion_before_marker (disk : file_system) (sd : list string)
    (queue : list summary_item) (st : summary_state) (k : string) :
  summary_loop disk sd (initial_state sd) queue = Ok st →
  markers_for k queue = [] →
  moves_of k (fs_log st) = []
  ∧ (∀ c, collection_completions st !! k = Some c →
          expected_completions c = -1
          ∧ 1 ≤ current_completions c
          ∧ check_for_completion_of_collection_key disk
              (collection_completions st) (fs_log st) k sd
            = Ok (collection_completions st, fs_log st))
  ∧ (∀ k' c', collection_completions st !! k' = Some c' →
              0 ≤ current_completions c').
Proof.
  intros Hst Hm. split_and!.
  - apply (summary_loop_view k) in Hst.
    destruct (key_run_unmarked k sd (key_events k queue)
                (key_view k (initial_state sd))) as (H2 & _);
      [by rewrite key_events_markers|done|].
    rewrite <- Hst in H2. exact H2.
  - intros c Hc. apply (summary_loop_view k) in Hst.
    destruct (key_run_unmarked k sd (key_events k queue)
                (key_view k (initial_state sd))) as (_ & Hu & _);
      [by rewrite key_events_markers|done|].
    rewrite <- Hst in Hu. unfold unmarked, key_view in Hu. simpl in Hu.
    rewrite Hc in Hu. destruct Hu as [He Hcur]. split_and!; [done..|].
    unfold check_for_completion_of_collection_key. rewrite Hc. simpl.
    rewrite decide_False by lia. done.
  - intros k' c' Hc'. apply (summary_loop_view k') in Hst.
    pose proof (key_run_nonneg k' sd (key_events k' queue)
                  (key_view k' (initial_state sd))) as Hnn.
    rewrite <- Hst in Hnn. unfold current_of, key_view in Hnn. simpl in Hnn.
    rewrite Hc' in Hnn. apply Hnn. done.
Qed.

(** ** Dicts *)

Lemma dict_get_set {V} (k k' : string) (v : V) (d : dict V) :
  dict_get k (dict_set k' v d) =
    if decide (k = k') then Some v else dict_get k d.
Proof.
  induction d as [|[k0 v0] d IH]; simpl.
  - repeat case_decide; done.
  - destruct (decide (k' = k0)) as [->|Hne]; simpl.
    + repeat case_decide; congruence.
    + rewrite IH. repeat case_decide; congruence.
Qed.

Lemma dict_get_set_eq {V} (k : string) (v : V) (d : dict V) :
  dict_get k (dict_set k v d) = Some v.
Proof. rewrite dict_get_set. by rewrite decide_True. Qed.

Lemma dict_get_set_ne {V} (k k' : string) (v : V) (d : dict V) :
  k ≠ k' → dict_get k (dict_set k' v d) = dict_get k d.
Proof. intros. rewrite dict_get_set. by rewrite decide_False. Qed.

(** ** The validator *)

Lemma completions_per_ligand_count ctx :
  completions_per_ligand ctx = Z.of_nat (replicas_per_ligand ctx).
Proof.
  unfold completions_per_ligand, replicas_per_ligand.
  assert (∀ (l : list nat) n, foldl (fun n _ => n + 1) n l
                              = n + Z.of_nat (length l)) as Hin.
  { induction l as [|x l IH]; intros n; [simpl; lia|].
    cbn [foldl]. rewrite IH, length_cons, Nat2Z.inj_succ. lia. }
  assert (∀ (scs : dict scenario) n,
            foldl (fun n sc => foldl (fun n _ => n + 1) n (range (replicas sc.2)))
              n scs
            = n + Z.of_nat (sum_list (replica_count <$> scs.*2))) as Hout.
  { induction scs as [|sc scs IH]; intros n; [simpl; lia|].
    cbn [foldl]. rewrite IH, Hin, !fmap_cons. cbn [sum_list_with sum_list].
    unfold id, replica_count at 2. rewrite Nat2Z.inj_add. lia. }
  by rewrite Hout.
Qed.

Lemma submit_ligand_for_docking_length ctx n p ck bck a td :
  length (submit_ligand_for_docking ctx n p ck bck a td)
  = replicas_per_ligand ctx.
Proof.
  unfold submit_ligand_for_docking, replicas_per_ligand.
  induction (docking_scenarios ctx) as [|sc scs IH]; [done|].
  rewrite bind_cons, length_app, IH. simpl. f_equal.
  unfold replica_count. induction (range (replicas sc.2)) as [|i l IHl]; [done|].
  rewrite bind_cons, length_app. simpl. by rewrite IHl.
Qed.

Lemma dispatched_cons ctx env k l ligs :
  dispatched ctx env ((k, l) :: ligs) =
    if passes ctx env l then (k, l) :: dispatched ctx env ligs
    else dispatched ctx env ligs.
Proof.
  unfold dispatched. destruct (passes ctx env l) eqn:Hp.
  - by rewrite filter_cons_True.
  - rewrite filter_cons_False; [done|]. simpl. by rewrite Hp.
Qed.

Lemma ligands_loop_decided ctx env td per_ligand ligs : ∀ expected,
  Forall (fun kl => decided ctx env kl.2) ligs →
  ligands_loop ctx env td per_ligand ligs expected
  = (ligs ≫= ligand_puts ctx env td,
     inl (expected
          + Z.of_nat (length (dispatched ctx env ligs)) * per_ligand)).
Proof.
  induction ligs as [|[k l] ligs IH]; intros expected Hall.
  - simpl. do 2 f_equal. lia.
  - apply Forall_cons in Hall as [Hd Hall].
    rewrite bind_cons, dispatched_cons. cbn [ligands_loop].
    unfold ligand_puts at 1. unfold passes, decided, scan_ligand in *.
    cbn [fst snd] in *.
    destruct (read_lines env (path l)) as [lines|e];
      [|destruct Hd as [?|[? ?]]; done].
    destruct (scan_lines ctx env lines []) eqn:Hscan;
      try (destruct Hd as [?|[? ?]]; done).
    + rewrite IH by done. rewrite length_cons, Nat2Z.inj_succ.
      do 2 f_equal. lia.
    + rewrite IH by done. done.
Qed.

Lemma ligand_puts_markers ctx env td kl :
  filter (fun p => is_marker p = true) (ligand_puts ctx env td kl) = [].
Proof.
  unfold ligand_puts. destruct (scan_ligand ctx env kl.2); try done.
  induction (submit_ligand_for_docking _ _ _ _ _ _ _) as [|t ts IH]; [done|].
  rewrite fmap_cons, filter_cons_False; done.
Qed.

Lemma ligand_puts_tasks ctx env td kl :
  length (filter (fun p => is_task p = true) (ligand_puts ctx env td kl))
  = if passes ctx env kl.2 then replicas_per_ligand ctx else 0%nat.
Proof.
  unfold ligand_puts, passes. destruct (scan_ligand ctx env kl.2); try done.
  rewrite <- (submit_ligand_for_docking_length ctx kl.1 (path kl.2)
                (ligand_collection_key kl.2) (ligand_base_collection_key kl.2)
                (ligand_attrs env (path kl.2)) td).
  induction (submit_ligand_for_docking _ _ _ _ _ _ _) as [|t ts IH]; [done|].
  rewrite fmap_cons, filter_cons_True by done. simpl. by rewrite IH.
Qed.

Lemma body_markers ctx env td (ligs : dict ligand) :
  filter (fun p => is_marker p = true) (ligs ≫= ligand_puts ctx env td) = [].
Proof.
  induction ligs as [|kl ligs IH]; [done|].
  by rewrite bind_cons, filter_app, ligand_puts_markers, IH.
Qed.

Lemma body_tasks ctx env td (ligs : dict ligand) :
  length (filter (fun p => is_task p = true) (ligs ≫= ligand_puts ctx env td))
  = (length (dispatched ctx env ligs) * replicas_per_ligand ctx)%nat.
Proof.
  induction ligs as [|[k l] ligs IH]; [done|].
  rewrite bind_cons, filter_app, length_app, IH, ligand_puts_tasks.
  rewrite dispatched_cons. simpl. destruct (passes ctx env l); simpl; lia.
Qed.

(** The loop stops at the first ligand whose scan ends in the worker's
    return or in an exception: the earlier ligands have had their [put]
    calls, and nothing is put for that ligand or a later one. *)
Lemma ligands_loop_stops ctx env td per_ligand pre k l post : ∀ expected,
  Forall (fun kl => decided ctx env kl.2) pre →
  ¬ decided ctx env l →
  ligands_loop ctx env td per_ligand (pre ++ (k, l) :: post) expected
  = (pre ≫= ligand_puts ctx env td,
     inr (match scan_ligand ctx env l with
          | scan_raise e => stage_raise e
          | _ => stage_return
          end)).
Proof.
  induction pre as [|[k0 l0] pre IH]; intros expected Hall Hnot.
  - cbn [app ligands_loop]. unfold decided, scan_ligand in *.
    destruct (read_lines env (path l)) as [lines|e]; [|done].
    destruct (scan_lines ctx env lines []) eqn:Hscan; try done.
    + destruct Hnot. by left.
    + destruct Hnot. right. by eexists.
  - apply Forall_cons in Hall as [Hd Hall].
    rewrite <- app_comm_cons, bind_cons. cbn [ligands_loop].
    unfold ligand_puts at 1. unfold decided, scan_ligand in Hd |- *.
    cbn [fst snd] in *.
    destruct (read_lines env (path l0)) as [lines|e];
      [|destruct Hd as [?|[? ?]]; done].
    destruct (scan_lines ctx env lines []) eqn:Hscan;
      try (destruct Hd as [?|[? ?]]; done).
    + by rewrite IH.
    + by rewrite IH.
Qed.

(** A scan ends in the worker's return only at a line with a tranche
    annotation, with the tranche filter on and no compiled regex. *)
Lemma scan_lines_return ctx env lines : ∀ coords,
  scan_lines ctx env lines coords = scan_return →
  dynamic_tranche_filtering ctx = 1
  ∧ compiled_regex env = None
  ∧ ∃ line, line ∈ lines ∧ search_tranche env line = true.
Proof.
  induction lines as [|line lines IH]; intros coords; [done|].
  cbn [scan_lines].
  destruct (if decide (run_atom_check ctx = 1)
            then search_elements env line else None); [done|].
  destruct (search_atom env line && bool_decide (coord_str env line ∈ coords));
    [done|].
  assert (∀ c, scan_lines ctx env lines c = scan_return →
               dynamic_tranche_filtering ctx = 1
               ∧ compiled_regex env = None
               ∧ ∃ l, l ∈ line :: lines ∧ search_tranche env l = true) as IH'.
  { intros c Hc. destruct (IH c Hc) as (? & ? & l & ? & ?).
    split_and!; [done..|]. exists l. split; [by right|done]. }
  case_decide as Hf; [|by apply IH'].
  destruct (search_tranche env line) eqn:Ht; [|by apply IH'].
  destruct (tranche_of env line) as [tranche|e]; [|done].
  destruct (compiled_regex env) as [search|] eqn:Hre.
  - destruct (search tranche); [by apply IH'|done].
  - intros _. split_and!; [done..|]. exists line. split; [by left|done].
Qed.

(** C2, amended.  For a collection item with a ligand set whose ligand
    scans all end in a dispatch decision (the ligand passes or is skipped),
    the validator puts, for each ligand in turn, either its docking tasks or
    its skip event, and then, as its last [put], one delete marker keyed by
    the item's collection key; no other [put] is a delete marker, and the
    marker's [expected_completions] is the number of non-skipped ligands
    times the replicas run per ligand (the sum over the scenarios of
    [len(range(replicas))]), which is the number of docking tasks put.

    At the first ligand whose scan ends otherwise the worker is left, by its
    [return] or by the exception of the scan: the ligands before it have had
    their [put] calls, nothing is put for it or for a later ligand, and no
    delete marker is put.  A scan ends in the [return] only with the tranche
    filter on, no compiled regex, and a line with a tranche annotation in
    the ligand file. *)
Theorem delete_marker_after_dispatch (ctx : context) (env : environment)
    (item : collection_queue_item) (ligs : dict ligand) :
  ligands item = Some ligs →
  (Forall (fun kl => decided ctx env kl.2) ligs →
   let body := ligs ≫= ligand_puts ctx env (collection_item_temp_dir item) in
   let expected :=
     Z.of_nat (length (dispatched ctx env ligs))
     * Z.of_nat (replicas_per_ligand ctx) in
   collection_process ctx env item
   = {| puts :=
          body ++ [put_summary
                     (item_delete (collection_item_temp_dir item)
                        (collection_item_key item) expected)];
        ended := stage_done |}
   ∧ filter (fun p => is_marker p = true) body = []
   ∧ expected = Z.of_nat (length (filter (fun p => is_task p = true) body)))
  ∧ (∀ pre k l post,
       ligs = pre ++ (k, l) :: post →
       Forall (fun kl => decided ctx env kl.2) pre →
       ¬ decided ctx env l →
       let body :=
         pre ≫= ligand_puts ctx env (collection_item_temp_dir item) in
       collection_process ctx env item
       = {| puts := body;
            ended := match scan_ligand ctx env l with
                     | scan_raise e => stage_raise e
                     | _ => stage_return
                     end |}
       ∧ filter (fun p => is_marker p = true) body = []
       ∧ (scan_ligand ctx env l = scan_return →
          dynamic_tranche_filtering ctx = 1
          ∧ compiled_regex env = None
          ∧ ∃ lines line,
              read_lines env (path l) = Ok lines
              ∧ line ∈ lines ∧ search_tranche env line = true)).
Proof.
  intros Hl. split.
  - intros Hall body expected. split_and!.
    + unfold collection_process. rewrite Hl.
      rewrite ligands_loop_decided by done.
      rewrite completions_per_ligand_count. done.
    + apply body_markers.
    + unfold body, expected. rewrite body_tasks. lia.
  - intros pre k l post -> Hall Hnot body. split_and!.
    + unfold collection_process. rewrite Hl.
      rewrite ligands_loop_stops by done.
      by destruct (scan_ligand ctx env l).
    + apply body_markers.
    + unfold scan_ligand.
      destruct (read_lines env (path l)) as [lines|e]; [|done].
      intros (? & ? & line & ? & ?)%scan_lines_return.
      split_and!; [done..|]. by exists lines, line.
Qed.

Lemma delete_marker_after_dispatch_witness :
  collection_process filtering_ctx (annotated_env (Some (fun _ => true)))
    two_ligand_item
  = {| puts :=
         (default [] (ligands two_ligand_item)
          ≫= ligand_puts filtering_ctx (annotated_env (Some (fun _ => true)))
               "/tmp/vf/c1")
         ++ [put_summary (item_delete "/tmp/vf/c1" "AAAA_1" 4)];
       ended := stage_done |}
  ∧ collection_process filtering_ctx (annotated_env None) two_ligand_item
    = {| puts := []; ended := stage_return |}.
Proof.
  split.
  - apply (delete_marker_after_dispatch filtering_ctx
             (annotated_env (Some (fun _ => true))) two_ligand_item
             [sample_ligand "AAAA_1" "lig1"; sample_ligand "AAAA_1" "lig2"]).
    + reflexivity.
    + repeat constructor.
  - apply (proj2 (delete_marker_after_dispatch filtering_ctx
                    (annotated_env None) two_ligand_item
                    [sample_ligand "AAAA_1" "lig1";
                     sample_ligand "AAAA_1" "lig2"] eq_refl)
             [] "lig1" (sample_ligand "AAAA_1" "lig1").2
             [sample_ligand "AAAA_1" "lig2"]).
    + reflexivity.
    + constructor.
    + intros [H|[reason H]]; vm_compute in H; discriminate.
Defined.

(** C2 as stated fails: with the tranche filter on and a regex that does not
    compile, the worker returns at the first ligand with a tranche
    annotation and puts no delete marker for the collection item. *)
Lemma invalid_regex_no_marker :
  collection_process filtering_ctx (annotated_env None) two_ligand_item
  = {| puts := []; ended := stage_return |}
  ∧ length (filter (fun p => is_marker p = true)
              (puts (collection_process filtering_ctx (annotated_env None)
                       two_ligand_item))) ≠ 1%nat.
Proof. split; [reflexivity|]. vm_compute. discriminate. Qed.

(** C4.  For an item whose archive cannot be opened, [unpack_item] returns
    [None] and [untar] still forwards the item, with [ligands] set to
    [None]; on that item the validator raises [TypeError] at its loop over
    the ligands, before any [put]. *)
Theorem unopened_archive_reaches_validator (env : environment)
    (item : unpack_queue_item) :
  tar_members env (local_path item) = None →
  unpack_item env item = Ok None
  ∧ ∃ forwarded,
      untar env item = Ok forwarded
      ∧ ligands forwarded = None
      ∧ ∀ ctx env',
          collection_process ctx env' forwarded
          = {| puts := [];
               ended := stage_raise
                          (TypeError "'NoneType' object is not iterable") |}.
Proof.
  intros Hopen. unfold untar, unpack_item. rewrite Hopen. simpl.
  split; [done|]. eexists. split_and!; [done|done|]. done.
Qed.

Lemma unopened_archive_reaches_validator_witness :
  unpack_item (annotated_env None) unreadable_item = Ok None
  ∧ ∃ forwarded,
      untar (annotated_env None) unreadable_item = Ok forwarded
      ∧ ligands forwarded = None
      ∧ ∀ ctx env',
          collection_process ctx env' forwarded
          = {| puts := [];
               ended := stage_raise
                          (TypeError "'NoneType' object is not iterable") |}.
Proof.
  apply (unopened_archive_reaches_validator (annotated_env None)
           unreadable_item).
  reflexivity.
Defined.

(** ** The unpacker *)











(** ** The executor *)

Lemma rmtree_created d w :
  rmtree d {| run_dirs := {[ d ]} ∪ run_dirs w;
              uuids_drawn := S (uuids_drawn w) |}
  = ({| run_dirs := run_dirs w ∖ {[ d ]};
        uuids_drawn := S (uuids_drawn w) |}, Ok ()).
Proof.
  unfold rmtree. simpl. rewrite decide_True by set_solver.
  do 2 f_equal. set_solver.
Qed.

Lemma set_reason_tmp_run_dir item reason :
  tmp_run_dir (set_reason item reason) = tmp_run_dir item.
Proof. done. Qed.

(** Backends that return, under commands that end with an exit status or
    with the timeout. *)
Section returning_backends.
  Context (env : executor_env) (td : string).
  Hypothesis Hrun : run_returns env.

Lemma process_docking_completion_returns item rc out err b :
  DOCKING_PROGRAMS env !! program item = Some b →
  backend_returns b →
  ∃ item', process_docking_completion env item rc out err = Ok item'
           ∧ tmp_run_dir item' = tmp_run_dir item.
Proof.
  intros Hb (f & g & _ & Hg & _ & Hret).
  unfold process_docking_completion. simpl. rewrite Hb, Hg.
  destruct (Hret (set_executor item (Some "failed") (score item) (uuid item)
                    (tmp_run_dir item) (log item)) rc out err) as [r ->].
  simpl. destruct r; eauto.
Qed.

Lemma run_single_returns item w b :
  DOCKING_PROGRAMS env !! program item = Some b →
  backend_returns b →
  ∃ item',
    run_single env td item w
    = ({| run_dirs :=
            run_dirs w ∖ {[ run_dir td (uuid4 env (uuids_drawn w)) ]};
          uuids_drawn := S (uuids_drawn w) |}, Ok item').
Proof.
  intros Hb Hret. unfold run_single, docking_process_setup_common.
  unfold program_runstring_array. simpl. rewrite Hb.
  destruct Hret as (f & g & Hf & Hg & Hcmd & Hfin). rewrite Hf.
  edestruct Hcmd as [cmd ->].
  destruct (subprocess_run env cmd (timeout item)) as [rc out err| |e] eqn:Hr.
  - case_decide.
    + edestruct process_docking_completion_returns as (item' & -> & ->);
        [exact Hb|by exists f, g|].
      simpl. rewrite rmtree_created. eauto.
    + simpl. rewrite rmtree_created. eauto.
  - simpl. rewrite rmtree_created. eauto.
  - by apply Hrun in Hr.
Qed.

Lemma created_dirs_S w n :
  created_dirs env td w (S n)
  = run_dir td (uuid4 env (uuids_drawn w))
    :: created_dirs env td
         {| run_dirs := run_dirs w ∖ {[ run_dir td (uuid4 env (uuids_drawn w)) ]};
            uuids_drawn := S (uuids_drawn w) |} n.
Proof.
  unfold created_dirs. simpl. rewrite Nat.add_0_r. f_equal.
  rewrite <- fmap_S_seq, <- list_fmap_compose. apply list_fmap_ext.
  intros _ i _. simpl. do 2 f_equal. lia.
Qed.

Lemma run_singles_returns items : ∀ w,
  (∀ item, item ∈ items →
           ∃ b, DOCKING_PROGRAMS env !! program item = Some b
                ∧ backend_returns b) →
  ∃ w' items',
    run_singles env td items w = (w', Ok items')
    ∧ uuids_drawn w' = (uuids_drawn w + length items)%nat
    ∧ run_dirs w'
      = run_dirs w ∖ list_to_set (created_dirs env td w (length items)).
Proof.
  induction items as [|item items IH]; intros w Hb.
  - exists w, []. split_and!; [done|simpl; lia|].
    unfold created_dirs. simpl. set_solver.
  - destruct (Hb item) as (b & Hitem & Hret); [by left|].
    destruct (run_single_returns item w b) as [item' Hsingle]; [done..|].
    cbn [run_singles]. rewrite Hsingle.
    edestruct IH as (w' & items' & -> & Hn & Hd).
    { intros i Hi. apply Hb. by right. }
    eexists _, _. split_and!; [done|simpl in *; lia|].
    rewrite Hd, length_cons, created_dirs_S. simpl. set_solver.
Qed.

End returning_backends.

Lemma mark_failed_program item : program (mark_failed item) = program item.
Proof. done. Qed.

(** Whatever the backend does, a completion that returns keeps the run
    directory the item names. *)
Lemma process_docking_completion_tmp_run_dir env item rc out err item' :
  process_docking_completion env item rc out err = Ok item' →
  tmp_run_dir item' = tmp_run_dir item.
Proof.
  unfold process_docking_completion. simpl.
  destruct (DOCKING_PROGRAMS env !! program item) as [b|]; [|done].
  destruct (finish b) as [g|]; [|done].
  destruct (g _ rc out err) as [[sc|reason]|e]; simpl; [| |done].
  - by intros [= <-].
  - by intros [= <-].
Qed.

(** One pass of the loop of the single model: an identifier is drawn; when
    the pass returns, the run directory it created is gone, and when it
    raises, the directory is still there. *)
Lemma run_single_world env td item w w' r :
  run_single env td item w = (w', r) →
  uuids_drawn w' = S (uuids_drawn w)
  ∧ match r with
    | Ok _ =>
        run_dirs w'
        = run_dirs w ∖ {[ run_dir td (uuid4 env (uuids_drawn w)) ]}
    | Raise _ =>
        run_dirs w'
        = {[ run_dir td (uuid4 env (uuids_drawn w)) ]} ∪ run_dirs w
    end.
Proof.
  unfold run_single, docking_process_setup_common.
  destruct (program_runstring_array env _) as [cmd|e]; [|by intros [= <- <-]].
  destruct (subprocess_run env cmd _) as [rc out err| |e].
  - match goal with
    | |- context [if ?c then ?a else ?b] =>
        destruct (if c then a else b) as [item'|e] eqn:Hfin
    end; [|by intros [= <- <-]].
    assert (tmp_run_dir item'
            = Some (run_dir td (uuid4 env (uuids_drawn w)))) as ->.
    { case_decide.
      - by apply process_docking_completion_tmp_run_dir in Hfin.
      - by injection Hfin as <-. }
    simpl. rewrite rmtree_created. by intros [= <- <-].
  - simpl. rewrite rmtree_created. by intros [= <- <-].
  - by intros [= <- <-].
Qed.

(** The loop of the single model: when it returns, every run directory it
    created is gone; when it raises, the one created last is still there. *)
Lemma run_singles_world env td items : ∀ w w' r,
  run_singles env td items w = (w', r) →
  match r with
  | Ok _ =>
      uuids_drawn w' = (uuids_drawn w + length items)%nat
      ∧ run_dirs w'
        = run_dirs w ∖ list_to_set (created_dirs env td w (length items))
  | Raise _ =>
      (uuids_drawn w < uuids_drawn w')%nat
      ∧ run_dir td (uuid4 env (uuids_drawn w' - 1)) ∈ run_dirs w'
  end.
Proof.
  induction items as [|item items IH]; intros w w' r.
  - intros [= <- <-]. split; [simpl; lia|].
    unfold created_dirs. simpl. set_solver.
  - cbn [run_singles].
    destruct (run_single env td item w) as [w1 [item1|e]] eqn:H1;
      apply run_single_world in H1 as [Hn Hd].
    + destruct (run_singles env td items w1) as [w2 [items2|e]] eqn:H2;
        apply IH in H2 as [Hn2 Hd2]; intros [= <- <-].
      * split; [simpl; lia|].
        rewrite Hd2, Hd, length_cons, created_dirs_S.
        replace (created_dirs env td w1 (length items))
          with (created_dirs env td
                  {| run_dirs :=
                       run_dirs w
                       ∖ {[ run_dir td (uuid4 env (uuids_drawn w)) ]};
                     uuids_drawn := S (uuids_drawn w) |} (length items))
          by (unfold created_dirs; simpl; by rewrite Hn).
        set_solver.
      * split; [lia|done].
    + intros [= <- <-]. split; [lia|].
      rewrite Hn, Hd. replace (S (uuids_drawn w) - 1)%nat
        with (uuids_drawn w) by lia.
      set_solver.
Qed.

(** C9, amended.  Every run of [docking_process_batch] that returns has
    removed each run directory it created, whichever way the invocations
    ended: by the timeout, a non-zero exit status, or a zero exit status
    with or without a score.  Every run that raises after a set-up leaves
    the run directory created last in place.  In the single-ligand model the
    routine does return when the backend functions of the items return and
    running a command ends with an exit status or with the timeout. *)
Theorem run_dirs_removed_when_returning (env : executor_env)
    (sc : scenario) (items : list docking_item) (td : string)
    (w : executor_world) :
  (∀ w' out,
     docking_process_batch env sc items td w = (w', Ok out) →
     uuids_drawn w' = (uuids_drawn w + length items)%nat
     ∧ run_dirs w'
       = run_dirs w ∖ list_to_set (created_dirs env td w (length items))
     ∧ ∀ d, d ∈ created_dirs env td w (length items) → d ∉ run_dirs w')
  ∧ (∀ w' e,
       docking_process_batch env sc items td w = (w', Raise e) →
       (uuids_drawn w < uuids_drawn w')%nat →
       run_dir td (uuid4 env (uuids_drawn w' - 1)) ∈ run_dirs w')
  ∧ (∀ b0,
       DOCKING_PROGRAMS env !! scenario_program sc = Some b0 →
       model b0 = Some "single" →
       (∀ item, item ∈ items →
                ∃ b, DOCKING_PROGRAMS env !! program item = Some b
                     ∧ backend_returns b) →
       run_returns env →
       ∃ w' out, docking_process_batch env sc items td w = (w', Ok out)).
Proof.
  split_and!.
  - intros w' out. unfold docking_process_batch. case_decide as Hlen.
    { intros [= <- <-]. rewrite Hlen. unfold created_dirs. simpl.
      split_and!; [lia|set_solver|set_solver]. }
    destruct (DOCKING_PROGRAMS env !! scenario_program sc) as [b|]; [|done].
    destruct (model b) as [ty|]; [|done].
    case_decide.
    + destruct (run_singles env td (mark_failed <$> items) w)
        as [w1 [items1|e]] eqn:H1; [|done].
      apply run_singles_world in H1 as [Hn Hd].
      rewrite length_fmap in Hn, Hd. intros [= <- <-].
      split_and!; [done|done|]. intros d Hin. rewrite Hd. set_solver.
    + case_decide; [|done]. unfold run_batch. simpl. done.
  - intros w' e. unfold docking_process_batch. case_decide as Hlen; [done|].
    destruct (DOCKING_PROGRAMS env !! scenario_program sc) as [b|];
      [|intros [= <- <-]; lia].
    destruct (model b) as [ty|]; [|intros [= <- <-]; lia].
    case_decide.
    + destruct (run_singles env td (mark_failed <$> items) w)
        as [w1 [items1|e1]] eqn:H1; [done|].
      apply run_singles_world in H1 as [Hn Hd]. by intros [= <- <-].
    + case_decide; [|intros [= <- <-]; lia].
      unfold run_batch, docking_process_setup_common.
      intros [= <- <-] _. cbn [uuids_drawn run_dirs].
      replace (S (uuids_drawn w) - 1)%nat with (uuids_drawn w) by lia.
      set_solver.
  - intros b0 Hsc Hmodel Hb Hrun. unfold docking_process_batch.
    case_decide as Hlen; [by eauto|].
    rewrite Hsc, Hmodel. rewrite decide_True by done.
    destruct (run_singles_returns env td Hrun (mark_failed <$> items) w)
      as (w' & items' & -> & _).
    { intros item (i & -> & Hi)%list_elem_of_fmap.
      rewrite mark_failed_program. by apply Hb. }
    eauto.
Qed.

Lemma run_dirs_removed_when_returning_witness :
  ∃ w' out,
    docking_process_batch
      (sample_executor scoring_backends timeout_expired)
      (sample_scenario "s1" 1).2
      [sample_task "s1" "lig1" "AB_1" "failed" None] "/tmp/vf" empty_world
    = (w', Ok out)
    ∧ uuids_drawn w' = 1%nat
    ∧ "/tmp/vf/run/u0" ∉ run_dirs w'.
Proof.
  pose proof (run_dirs_removed_when_returning
                (sample_executor scoring_backends timeout_expired)
                (sample_scenario "s1" 1).2
                [sample_task "s1" "lig1" "AB_1" "failed" None] "/tmp/vf"
                empty_world) as (Hgone & _ & Hret).
  destruct (Hret {| start :=
                      Some (fun t => Ok ["vina"; "--ligand"; ligand_path t]);
                    finish := Some (fun _ _ _ _ => Ok (inl (-15 # 2)%Q));
                    model := Some "single" |}) as (w' & out & Hrun).
  - reflexivity.
  - reflexivity.
  - intros item Hin. apply list_elem_of_singleton in Hin. subst item.
    eexists. split; [reflexivity|].
    eexists _, _. split_and!; [reflexivity|reflexivity|eauto|eauto].
  - intros cmd t e. simpl. discriminate.
  - exists w', out. destruct (Hgone w' out Hrun) as (Hn & _ & Hd).
    split_and!; [done|done|]. apply Hd. by left.
Defined.

(** C9 as stated fails: when the start function of the backend raises, the
    exception leaves [docking_process_batch] and the run directory created
    by the set-up is still there. *)
Lemma run_dir_left_when_start_raises :
  ∃ w',
    docking_process_batch (sample_executor raising_backends timeout_expired)
      dock6_scenario [dock6_task] "/tmp/vf" empty_world
    = (w', Raise (KeyError "receptor_site_file"))
    ∧ created_dirs (sample_executor raising_backends timeout_expired)
        "/tmp/vf" empty_world 1 = ["/tmp/vf/run/u0"]
    ∧ "/tmp/vf/run/u0" ∈ run_dirs w'.
Proof.
  eexists. split_and!; [reflexivity|reflexivity|].
  simpl. set_solver.
Qed.

(** The batch model never reaches the removal of its run directory. *)
Lemma run_batch_raises env td w :
  ∃ w', run_batch env td w = (w', Raise (KeyError "input_files_dir"))
        ∧ run_dir td (uuid4 env (uuids_drawn w)) ∈ run_dirs w'.
Proof.
  eexists. split; [reflexivity|]. simpl. set_solver.
Qed.

(** ** Floats *)

(** The integer [round_half_even] picks is a nearest one. *)
Lemma round_half_even_nearest num den :
  0 ≤ num → 0 < den →
  let m := round_half_even num den in
  0 ≤ m
  ∧ 2 * Z.abs (m * den - num) ≤ den
  ∧ (∀ j, j * den ≤ num → j ≤ m)
  ∧ (∀ j, num ≤ j * den → m ≤ j).
Proof.
  intros Hnum Hden. unfold round_half_even.
  pose proof (Z.div_mod num den ltac:(lia)) as Hdm.
  pose proof (Z.mod_pos_bound num den Hden) as Hr.
  pose proof (Z.div_pos num den Hnum Hden) as Hq.
  set (q := num / den) in *. set (r := num mod den) in *.
  assert (∀ j, j * den ≤ num → j ≤ q) as Hlow by (intros j Hj; nia).
  assert (∀ j, num ≤ j * den → 0 < r → q + 1 ≤ j) as Hup by (intros j Hj ?; nia).
  assert (∀ j, num ≤ j * den → q ≤ j) as Hup0 by (intros j Hj; nia).
  destruct (Z.compare_spec (2 * r) den) as [Heq|Hlt|Hgt].
  - destruct (Z.even q).
    + split_and!; [lia|nia|auto|auto].
    + split_and!; [lia|nia|intros j Hj; specialize (Hlow j Hj); lia|].
      intros j Hj. apply Hup; [done|lia].
  - split_and!; [lia|nia|auto|auto].
  - split_and!; [lia|nia|intros j Hj; specialize (Hlow j Hj); lia|].
    intros j Hj. apply Hup; [done|lia].
Qed.

(** Comparing [a / d] with [2^e], brought to a scale [c] at which every
    exponent is non-negative. *)
Lemma scaled_le a d e c :
  0 ≤ c → 0 ≤ c + e →
  d * 2 ^ Z.max 0 e ≤ a * 2 ^ Z.max 0 (- e) ↔ d * 2 ^ (c + e) ≤ a * 2 ^ c.
Proof.
  intros Hc Hce. destruct (Z.le_gt_cases 0 e) as [He|He].
  - rewrite Z.max_r, Z.max_l by lia. rewrite Z.pow_add_r by lia.
    assert (0 < 2 ^ c) by (apply Z.pow_pos_nonneg; lia).
    rewrite Z.pow_0_r. nia.
  - rewrite Z.max_l, (Z.max_r 0 (- e)) by lia.
    replace c with ((c + e) + - e) at 2 by lia.
    rewrite (Z.pow_add_r 2 (c + e) (- e)) by lia.
    assert (0 < 2 ^ (c + e)) by (apply Z.pow_pos_nonneg; lia).
    rewrite Z.pow_0_r. nia.
Qed.

Lemma pow2_le_mono (x y : Z) : 0 ≤ x ≤ y → 2 ^ x ≤ 2 ^ y.
Proof. intros. apply Z.pow_le_mono_r; lia. Qed.

(** [log2_floor a d] is the exponent of the power of two at or below
    [a / d]. *)
Lemma log2_floor_spec a d c :
  0 < a → 0 < d → Z.log2 d + 2 ≤ c →
  let k := log2_floor a d in
  0 ≤ c + k
  ∧ d * 2 ^ (c + k) ≤ a * 2 ^ c
  ∧ a * 2 ^ c < d * 2 ^ (c + k + 1).
Proof.
  intros Ha Hd Hc.
  pose proof (Z.log2_spec a Ha) as [Hla1 Hla2].
  pose proof (Z.log2_spec d Hd) as [Hld1 Hld2].
  pose proof (Z.log2_nonneg a) as Hla0.
  pose proof (Z.log2_nonneg d) as Hld0.
  set (la := Z.log2 a) in *. set (ld := Z.log2 d) in *.
  assert (0 < 2 ^ c) as Hpc by (apply Z.pow_pos_nonneg; lia).
  (* a / d < 2^(k0 + 1) *)
  assert (a * 2 ^ c < d * 2 ^ (c + (la - ld) + 1)) as Hup.
  { apply Z.lt_le_trans with (2 ^ Z.succ la * 2 ^ c); [nia|].
    replace (c + (la - ld) + 1) with (Z.succ la + c - ld) by lia.
    apply Z.le_trans with (2 ^ ld * 2 ^ (Z.succ la + c - ld)).
    - rewrite <- !Z.pow_add_r by lia. apply pow2_le_mono. lia.
    - apply Z.mul_le_mono_nonneg_r; [|lia].
      apply Z.pow_nonneg. lia. }
  (* 2^(k0 - 1) < a / d *)
  assert (d * 2 ^ (c + (la - ld) - 1) ≤ a * 2 ^ c) as Hlow.
  { apply Z.le_trans with (2 ^ la * 2 ^ c); [|nia].
    apply Z.le_trans with (2 ^ Z.succ ld * 2 ^ (c + (la - ld) - 1)).
    - apply Z.mul_le_mono_nonneg_r; [|lia]. apply Z.pow_nonneg. lia.
    - rewrite <- !Z.pow_add_r by lia. apply pow2_le_mono. lia. }
  unfold log2_floor. fold la ld. case_decide as Hk.
  - apply (scaled_le a d (la - ld) c) in Hk; [|lia..].
    split_and!; [lia|done|done].
  - rewrite (scaled_le a d (la - ld) c) in Hk by lia.
    split_and!; [lia| |].
    + replace (c + (la - ld - 1)) with (c + (la - ld) - 1) by lia. done.
    + replace (c + (la - ld - 1) + 1) with (c + (la - ld)) by lia. lia.
Qed.

(** The significand [float_of_fraction] computes. *)
Lemma significand_spec a d :
  0 < a → 0 < d →
  let e := Z.max (log2_floor a d - 52) (-1074) in
  let m := round_half_even (a * 2 ^ Z.max 0 (- e)) (d * 2 ^ Z.max 0 e) in
  0 ≤ m ≤ 2 ^ 53
  ∧ (e = -1074 ∨ 2 ^ 52 ≤ m)
  ∧ 2 * Z.abs (m * (d * 2 ^ Z.max 0 e) - a * 2 ^ Z.max 0 (- e))
    ≤ d * 2 ^ Z.max 0 e.
Proof.
  intros Ha Hd e m.
  assert (0 < 2 ^ Z.max 0 e) as HP by (apply Z.pow_pos_nonneg; lia).
  assert (0 < 2 ^ Z.max 0 (- e)) as HR by (apply Z.pow_pos_nonneg; lia).
  destruct (round_half_even_nearest (a * 2 ^ Z.max 0 (- e))
              (d * 2 ^ Z.max 0 e)) as (Hm0 & Hhalf & Hlow & Hup); [nia|nia|].
  fold m in Hm0, Hhalf, Hlow, Hup.
  pose proof (Z.log2_nonneg d) as Hld0.
  set (c := Z.log2 d + 1200).
  destruct (log2_floor_spec a d c Ha Hd) as (Hck & Hge & Hlt); [lia|].
  set (k := log2_floor a d) in *.
  assert (-1074 ≤ e) as He by lia.
  assert (k - 52 ≤ e) as Hke by lia.
  assert (0 ≤ c + e) as Hce by lia.
  assert (0 < 2 ^ c) as Hpc by (apply Z.pow_pos_nonneg; lia).
  assert (∀ x y : Z, 0 ≤ x → 0 ≤ y → 2 ^ x * 2 ^ y = 2 ^ (x + y)) as Hadd.
  { intros x y Hx Hy. by rewrite Z.pow_add_r. }
  split_and!; [done| | |done].
  - (* a / d < 2^(k + 1) <= 2^(e + 53) *)
    apply Hup.
    destruct (Z.le_gt_cases ((2 ^ 53 * d) * 2 ^ Z.max 0 e)
                (a * 2 ^ Z.max 0 (- e))) as [Hle|Hgt]; [|lia].
    apply (scaled_le a (2 ^ 53 * d) e c) in Hle; [|lia..].
    assert (2 ^ (c + k + 1) ≤ 2 ^ 53 * 2 ^ (c + e)) as Hpow.
    { rewrite Hadd by lia. apply pow2_le_mono. lia. }
    nia.
  - destruct (decide (e = -1074)) as [|Hne]; [by left|right].
    apply Hlow.
    cut ((2 ^ 52 * d) * 2 ^ Z.max 0 e ≤ a * 2 ^ Z.max 0 (- e)); [lia|].
    apply (scaled_le a (2 ^ 52 * d) e c); [lia..|].
    assert (2 ^ 52 * 2 ^ (c + e) = 2 ^ (c + k)) as Hpow.
    { rewrite Hadd by lia. f_equal. lia. }
    nia.
Qed.

Lemma pow2_num_den e :
  Qnum (pow2 e) = 2 ^ Z.max 0 e
  ∧ Z.pos (Qden (pow2 e)) = 2 ^ Z.max 0 (- e).
Proof.
  unfold pow2. cbn [Qnum Qden]. split; [done|].
  rewrite Z2Pos.id; [done|]. apply Z.pow_pos_nonneg; lia.
Qed.

(** [float_of_fraction] gives a binary64 number within half a unit in the
    last place of its argument. *)
Lemma float_of_fraction_rounds x y :
  float_of_fraction x = Ok y → rounds_to x y.
Proof.
  unfold float_of_fraction. case_decide as Hzero.
  - intros [= <-]. exists 0, (-1074).
    split_and!; [done|lia|lia|done|by left|].
    assert (Qnum x = 0) as Hn by lia.
    unfold Qle, Qmult, Qabs, Qminus, Qplus, Qopp, inject_Z.
    destruct x as [n d]. cbn [Qnum Qden] in *. subst n. cbn. lia.
  - set (a := Z.abs (Qnum x)) in *.
    set (d := Z.pos (Qden x)).
    destruct (significand_spec a d) as ([Hm0 Hm] & Hnorm & Hhalf); [lia|lia|].
    set (e := Z.max (log2_floor a d - 52) (-1074)) in *.
    set (m := round_half_even (a * 2 ^ Z.max 0 (- e))
                (d * 2 ^ Z.max 0 e)) in *.
    case_decide as Hover; [done|]. intros [= <-].
    assert (0 < 2 ^ Z.max 0 e) as HP by (apply Z.pow_pos_nonneg; lia).
    assert (0 < 2 ^ Z.max 0 (- e)) as HR by (apply Z.pow_pos_nonneg; lia).
    exists (Z.sgn (Qnum x) * m), e.
    assert (Z.abs (Z.sgn (Qnum x) * m) = m) as Habs.
    { unfold a in Hzero.
      destruct (Z.sgn_spec (Qnum x)) as [[? ->]|[[? ->]|[? ->]]]; lia. }
    split_and!.
    + apply Qred_correct.
    + lia.
    + (* no overflow *)
      destruct (Z.le_gt_cases e 971) as [|Hbig]; [done|exfalso].
      destruct Hnorm as [|Hnorm]; [lia|].
      rewrite Z.max_r in Hover by lia.
      assert (2 ^ 972 ≤ 2 ^ e) by (apply Z.pow_le_mono_r; lia).
      apply Hover.
      replace (2 ^ 1024) with (2 ^ 52 * 2 ^ 972) by (by rewrite <- Z.pow_add_r).
      apply Z.mul_le_mono_nonneg; lia.
    + lia.
    + rewrite Habs. done.
    + rewrite (Qred_correct
                 (Qmult (inject_Z (Z.sgn (Qnum x) * m)) (pow2 e))).
      destruct (pow2_num_den e) as [Hpn Hpd].
      unfold Qle, Qmult, Qabs, Qminus, Qplus, Qopp, inject_Z.
      destruct x as [n dx]. cbn [Qnum Qden] in *.
      rewrite !Pos2Z.inj_mul, Hpn, Hpd. fold d.
      change (Z.pos 1) with 1.
      assert (Z.abs (Z.sgn n * m * 2 ^ Z.max 0 e * d
                     + - n * (1 * 2 ^ Z.max 0 (- e)))
              = Z.abs (m * (d * 2 ^ Z.max 0 e) - a * 2 ^ Z.max 0 (- e)))
        as ->.
      { unfold a. destruct (Z.sgn_spec n) as [[? ->]|[[? ->]|[? ->]]];
          destruct (Z.abs_spec n) as [[? ->]|[? ->]]; lia. }
      clear Hover Hm Hnorm Habs Hpn Hpd.
      revert Hhalf HP HR.
      generalize (Z.abs (m * (d * 2 ^ Z.max 0 e) - a * 2 ^ Z.max 0 (- e))).
      generalize (2 ^ Z.max 0 e). generalize (2 ^ Z.max 0 (- e)).
      intros R P X Hhalf HP HR. nia.
Qed.

(** The builtin [min] gives an element of the list that no element is
    below. *)
Lemma py_min_least scores lo :
  py_min scores = Ok lo →
  lo ∈ scores ∧ ∀ s, s ∈ scores → Qle lo s.
Proof.
  destruct scores as [|x rest]; [done|]. simpl. intros [= <-].
  revert x. induction rest as [|y rest IH]; intros x; simpl.
  - split; [by left|]. intros s ->%list_elem_of_singleton. apply Qle_refl.
  - destruct (Qle_bool x y) eqn:Hxy.
    + destruct (IH x) as [Hin Hle]. split.
      * apply elem_of_cons in Hin as [->|Hin]; [by left|by right; right].
      * intros s [->|[->|Hs]%elem_of_cons]%elem_of_cons.
        -- apply Hle. by left.
        -- apply Qle_trans with x; [apply Hle; by left|].
           by apply Qle_bool_iff.
        -- apply Hle. by right.
    + destruct (IH y) as [Hin Hle]. split; [by right|].
      intros s [->|Hs]%elem_of_cons; [|by apply Hle].
      apply Qle_trans with y; [apply Hle; by left|].
      apply Qlt_le_weak, Qnot_le_lt. rewrite <- Qle_bool_iff. by rewrite Hxy.
Qed.

Lemma mean_float scores avg :
  mean scores = Ok avg →
  scores ≠ []
  ∧ float_of_fraction (exact_mean scores) = Ok avg
  ∧ rounds_to (exact_mean scores) avg.
Proof.
  destruct scores as [|x rest]; [done|]. unfold mean. intros H.
  split_and!; [done|done|]. by apply float_of_fraction_rounds.
Qed.

(** ** The reports *)

Lemma dict_get_pop_ne {V} (k k' : string) (d : dict V) :
  k ≠ k' → dict_get k (dict_pop k' d) = dict_get k d.
Proof.
  intros Hne. induction d as [|[k0 v0] d IH]; simpl; [done|].
  destruct (decide (k' = k0)) as [->|Hne']; simpl.
  - by rewrite decide_False.
  - by rewrite IH.
Qed.

Lemma set_indexed_get {A} (k prefix : string) (g : A → cell) xs : ∀ i d,
  (∀ j : nat, k ≠ prefix +:+ pretty j) →
  dict_get k (set_indexed prefix g i xs d) = dict_get k d.
Proof.
  induction xs as [|x xs IH]; intros i d Hk; simpl; [done|].
  rewrite IH by done. by apply dict_get_set_ne.
Qed.

Lemma set_attrs_get (k : string) attrs : ∀ d cols,
  (∀ a, k ≠ "attr_" +:+ a) →
  dict_get k (set_attrs attrs d cols).1 = dict_get k d.
Proof.
  induction attrs as [|[a v] attrs IH]; intros d cols Hk; [done|].
  cbn [set_attrs]. rewrite IH by done. by apply dict_get_set_ne.
Qed.

Lemma set_attrs_cols attrs : ∀ d cols,
  (set_attrs attrs d cols).2
  = foldl (fun cols a => add_column cols ("attr_" +:+ a.1)) cols attrs.
Proof.
  induction attrs as [|[a v] attrs IH]; intros d cols; [done|].
  cbn [set_attrs foldl]. by rewrite IH.
Qed.

Ltac other_key :=
  first [ done | intros; simpl; discriminate ].

Ltac dict_lookup :=
  repeat first
    [ rewrite dict_get_set_eq
    | rewrite dict_get_set_ne by other_key
    | rewrite dict_get_pop_ne by other_key
    | rewrite set_indexed_get by other_key
    | rewrite set_attrs_get by other_key ].

Lemma set_indexed_lookup {A} (prefix : string) (g : A → cell) xs :
  ∀ (j : nat) d (i : nat),
  dict_get (prefix +:+ pretty i) (set_indexed prefix g j xs d)
  = if decide (j ≤ i < j + length xs)%nat then g <$> xs !! (i - j)%nat
    else dict_get (prefix +:+ pretty i) d.
Proof.
  induction xs as [|x xs IH]; intros j d i; simpl.
  - rewrite decide_False by lia. done.
  - rewrite IH, dict_get_set.
    destruct (decide (i = j)) as [->|Hne].
    + rewrite decide_False by lia. rewrite decide_True by done.
      rewrite decide_True by lia. by rewrite Nat.sub_diag.
    + rewrite (decide_False (P := _ = _)); last first.
      { intros Heq. apply (inj (String.app prefix)) in Heq.
        by apply (inj pretty) in Heq. }
      destruct (decide (S j ≤ i < S j + length xs)%nat).
      * rewrite decide_True by lia.
        replace (i - j)%nat with (S (i - S j)) by lia. done.
      * rewrite decide_False by lia. done.
Qed.

Lemma row_dict_no_tranche r (i : nat) :
  dict_get ("tranche_" +:+ pretty i) (row_dict r) = None.
Proof.
  unfold row_dict. cbn [dict_get].
  repeat (rewrite decide_False by (simpl; discriminate)). done.
Qed.

Lemma reduce_row_row_dict r cols m d cols' m' :
  reduce_row (row_dict r) cols m = Ok (d, cols', m') →
  cols' = foldl (fun cols a => add_column cols ("attr_" +:+ a.1)) cols
            (row_attrs r)
  ∧ m' = (if decide (m < length (row_scores r))%nat
          then length (row_scores r) else m)
  ∧ row_reduced r d.
Proof.
  unfold reduce_row.
  assert (get_scores (row_dict r) = Ok (row_scores r)) as -> by done.
  cbn [mbind result_bind].
  destruct (mean (row_scores r)) as [avg|] eqn:Havg; [|done].
  cbn [mbind result_bind].
  destruct (py_min (row_scores r)) as [lo|] eqn:Hlo; [|done].
  cbn [mbind result_bind].
  unfold get_attr_dict. dict_lookup.
  assert (dict_get "attrs" (row_dict r) = Some (cell_attrs (row_attrs r)))
    as -> by done.
  cbn [getitem mbind result_bind].
  destruct (set_attrs _ _ _) as [d2 cols2] eqn:Hattrs.
  unfold get_str. dict_lookup.
  assert (d2 = (set_attrs (row_attrs r)
                  (dict_pop "scores"
                     (dict_set "score_min" (cell_num lo)
                        (dict_set "score_average" (cell_num avg)
                           (set_indexed "score_" cell_num 0 (row_scores r)
                              (row_dict r))))) cols).1) as Hd2
    by (by rewrite Hattrs).
  assert (cols2 = (set_attrs (row_attrs r)
                  (dict_pop "scores"
                     (dict_set "score_min" (cell_num lo)
                        (dict_set "score_average" (cell_num avg)
                           (set_indexed "score_" cell_num 0 (row_scores r)
                              (row_dict r))))) cols).2) as Hc2
    by (by rewrite Hattrs).
  rewrite set_attrs_cols in Hc2. clear Hattrs.
  rewrite Hd2 at 1. dict_lookup.
  assert (dict_get "collection_key" (row_dict r)
          = Some (cell_str (row_collection_key r))) as -> by done.
  cbn [getitem mbind result_bind].
  destruct (split_underscore (row_collection_key r))
    as [|name [|number [|? ?]]] eqn:Hkey; try done.
  intros [= <- <- <-]. split_and!; [done|done|].
  exists avg, lo. subst d2.
  split_and!; [done|done|by dict_lookup|by dict_lookup|by dict_lookup|].
  exists name, number. split; [done|]. intros i.
  rewrite set_indexed_lookup, Nat.sub_0_r. case_decide as Hi; [done|].
  dict_lookup. rewrite row_dict_no_tranche.
  symmetry. rewrite fmap_None. apply lookup_ge_None. lia.
Qed.

Lemma reduce_rows_row_dicts rows : ∀ cols m reduced cols' m',
  reduce_rows (prod_map id row_dict <$> rows) cols m = Ok (reduced, cols', m') →
  cols' = attr_columns_from cols rows
  ∧ m' = max_scores_from m rows
  ∧ rows_reduced rows reduced.
Proof.
  induction rows as [|[k r] rows IH]; intros cols m reduced cols' m'.
  - intros [= <- <- <-]. split_and!; [done|done|constructor].
  - rewrite fmap_cons. cbn [prod_map fst snd id reduce_rows].
    intros H. apply bind_Ok in H as ([[d c1] m1] & Hrow & H).
    apply bind_Ok in H as ([[rest c2] m2] & Hrest & [= <- <- <-]).
    apply reduce_row_row_dict in Hrow as (-> & -> & Hred).
    apply IH in Hrest as (-> & -> & Hall).
    split_and!; [done|done|]. constructor; [done|done].
Qed.

Lemma add_column_app pre cols k :
  k ∉ pre → add_column (pre ++ cols) k = pre ++ add_column cols k.
Proof.
  intros Hk. unfold add_column.
  destruct (decide (k ∈ cols)) as [Hin|Hin].
  - rewrite decide_True; [done|]. apply elem_of_app. by right.
  - rewrite decide_False; [by rewrite app_assoc|].
    rewrite elem_of_app. tauto.
Qed.

Lemma attr_columns_from_app pre rows : ∀ cols,
  (∀ a, "attr_" +:+ a ∉ pre) →
  attr_columns_from (pre ++ cols) rows = pre ++ attr_columns_from cols rows.
Proof.
  intros cols Hpre. revert cols. unfold attr_columns_from.
  induction rows as [|[k r] rows IH]; intros cols; [done|].
  cbn [foldl snd]. rewrite <- IH. f_equal.
  generalize (row_attrs r). intros attrs. revert cols.
  induction attrs as [|[a v] attrs IHa]; intros cols; [done|].
  cbn [foldl fst]. rewrite add_column_app by done. apply IHa.
Qed.

Lemma fixed_columns_no_attr a : "attr_" +:+ a ∉ fixed_columns.
Proof.
  unfold fixed_columns. rewrite !not_elem_of_cons.
  split_and!; try (simpl; discriminate). apply not_elem_of_nil.
Qed.

Lemma summarize_scenario_uploads ctx sk rows ups :
  summarize_scenario ctx sk rows = Ok ups →
  ∃ reduced, rows_reduced rows reduced
             ∧ ups = scenario_uploads ctx sk rows reduced.
Proof.
  unfold summarize_scenario. intros H.
  apply bind_Ok in H as ([[reduced cols] m] & Hred & [= <-]).
  apply reduce_rows_row_dicts in Hred as (-> & -> & Hall).
  exists reduced. split; [done|]. unfold scenario_uploads, csv_header.
  change ["ligand"; "collection_key"; "scenario"; "score_average"; "score_min"]
    with (fixed_columns ++ []).
  rewrite attr_columns_from_app by apply fixed_columns_no_attr.
  rewrite <- !app_assoc. done.
Qed.

(** Every upload of [generate_summary_file] is one of a configured scenario
    with rows. *)
Lemma generate_summary_file_loop_uploads ctx sd keys : ∀ ups r u,
  generate_summary_file_loop ctx sd keys = (ups, r) →
  u ∈ ups →
  ∃ sk rows reduced,
    sk ∈ keys ∧ sd !! sk = Some rows ∧ rows ≠ []
    ∧ rows_reduced rows reduced
    ∧ u ∈ scenario_uploads ctx sk rows reduced.
Proof.
  induction keys as [|sk keys IH]; intros ups r u; simpl.
  - intros [= <- <-]. by intros ?%elem_of_nil.
  - destruct (sd !! sk) as [rows|] eqn:Hrows;
      [|intros [= <- <-]; by intros ?%elem_of_nil].
    case_decide as Hlen; [intros [= <- <-]; by intros ?%elem_of_nil|].
    destruct (summarize_scenario ctx sk rows) as [ups1|e] eqn:Hsum;
      [|intros [= <- <-]; by intros ?%elem_of_nil].
    destruct (generate_summary_file_loop ctx sd keys) as [ups2 r2] eqn:Hloop.
    intros [= <- <-] [Hu|Hu]%elem_of_app.
    + apply summarize_scenario_uploads in Hsum as (reduced & Hred & ->).
      exists sk, rows, reduced. split_and!; try done; [by left|].
      by destruct rows.
    + destruct (IH ups2 r2 u eq_refl Hu) as (sk' & rows' & red' & ? & ?).
      exists sk', rows', red'. split; [by right|done].
Qed.

Lemma add_column_elem cols k x :
  x ∈ add_column cols k → x ∈ cols ∨ x = k.
Proof.
  unfold add_column. case_decide; [by left|].
  rewrite elem_of_app, list_elem_of_singleton. done.
Qed.

Lemma attr_columns_from_elem rows : ∀ cols x,
  x ∈ attr_columns_from cols rows → x ∈ cols ∨ ∃ a, x = "attr_" +:+ a.
Proof.
  unfold attr_columns_from.
  induction rows as [|[k r] rows IH]; intros cols x; [by left|].
  cbn [foldl snd]. intros [Hx|Hx]%IH; [|by right].
  revert cols Hx. generalize (row_attrs r). intros attrs.
  induction attrs as [|[a v] attrs IHa]; intros cols Hx; [by left|].
  cbn [foldl fst] in Hx. apply IHa in Hx as [Hx|Hx]; [|by right].
  apply add_column_elem in Hx as [Hx| ->]; [by left|right; by eexists].
Qed.

Lemma csv_header_no_tranche rows (i : nat) :
  "tranche_" +:+ pretty i ∉ csv_header rows.
Proof.
  unfold csv_header. rewrite !elem_of_app. intros [H|[H|H]].
  - unfold fixed_columns in H. rewrite !elem_of_cons in H.
    destruct H as [H|[H|[H|[H|[H|H]]]]]; try (simpl in H; discriminate).
    by apply elem_of_nil in H.
  - apply attr_columns_from_elem in H as [H|[a H]].
    + by apply elem_of_nil in H.
    + simpl in H. discriminate.
  - unfold score_columns in H. apply list_elem_of_fmap in H as (j & H & _).
    simpl in H. discriminate.
Qed.

Lemma rows_reduced_tranches rows reduced :
  rows_reduced rows reduced →
  Forall2 (fun kr kd => kd.1 = kr.1 ∧ tranche_cells kr.2 kd.2) rows reduced.
Proof.
  intros Hall. eapply Forall2_impl; [exact Hall|].
  intros kr kd [Hk Hred]. split; [done|].
  by destruct Hred as (avg & lo & _ & _ & _ & _ & _ & Ht).
Qed.

(** C7, amended.  The header of every delimited-text table
    [generate_summary_file] writes is [ligand, collection_key, scenario,
    score_average, score_min], then the [attr_*] columns in the order the
    rows first show them, then [score_0] to [score_{R-1}] for [R] the
    largest number of scores of a row of the scenario; no [tranche_*] column
    is part of it, and every line gives the cells of a reduced row for the
    columns of the header.  The reduced rows, which are the rows of the
    columnar table, do hold the tranche letters: under [tranche_i] the
    [i]-th letter of the collection name of the row, for every letter of
    that name. *)
Theorem csv_column_ordering (ctx : context)
    (sd : gmap string (dict summary_row)) (sk : string) :
  (∀ header lines,
     upload_csv sk header lines ∈ (generate_summary_file ctx sd).1 →
     ∃ rows reduced,
       sd !! sk = Some rows
       ∧ header
         = ["ligand"; "collection_key"; "scenario"; "score_average";
            "score_min"]
           ++ attr_columns rows ++ score_columns (max_scores rows)
       ∧ (∀ i : nat, "tranche_" +:+ pretty i ∉ header)
       ∧ Forall2 (fun kr kd => kd.1 = kr.1 ∧ tranche_cells kr.2 kd.2)
           rows reduced
       ∧ lines = ordered_summary_list header <$> reduced.*2)
  ∧ (∀ reduced,
       upload_parquet sk reduced ∈ (generate_summary_file ctx sd).1 →
       ∃ rows,
         sd !! sk = Some rows
         ∧ Forall2 (fun kr kd => kd.1 = kr.1 ∧ tranche_cells kr.2 kd.2)
             rows reduced).
Proof.
  unfold generate_summary_file.
  destruct (generate_summary_file_loop ctx sd _) as [ups r] eqn:Hloop.
  split.
  - intros header lines Hin.
    eapply generate_summary_file_loop_uploads in Hin
      as (sk' & rows & reduced & _ & Hrows & _ & Hred & Hu); [|done].
    unfold scenario_uploads in Hu. apply elem_of_app in Hu as [Hu|Hu].
    + case_decide; [|by apply elem_of_nil in Hu].
      by apply list_elem_of_singleton in Hu.
    + case_decide; [|by apply elem_of_nil in Hu].
      apply list_elem_of_singleton in Hu. injection Hu as -> -> ->.
      exists rows, reduced.
      split_and!; [done|done|apply csv_header_no_tranche| |done].
      by apply rows_reduced_tranches.
  - intros reduced' Hin.
    eapply generate_summary_file_loop_uploads in Hin
      as (sk' & rows & reduced & _ & Hrows & _ & Hred & Hu); [|done].
    unfold scenario_uploads in Hu. apply elem_of_app in Hu as [Hu|Hu].
    + case_decide; [|by apply elem_of_nil in Hu].
      apply list_elem_of_singleton in Hu. injection Hu as -> ->.
      exists rows. split; [done|]. by apply rows_reduced_tranches.
    + case_decide; [|by apply elem_of_nil in Hu].
      by apply list_elem_of_singleton in Hu.
Qed.

Lemma csv_column_ordering_witness :
  ∃ rows reduced,
    replica_summary_data !! "s1" = Some rows
    ∧ replica_header
      = ["ligand"; "collection_key"; "scenario"; "score_average"; "score_min"]
        ++ attr_columns rows ++ score_columns (max_scores rows)
    ∧ (∀ i : nat, "tranche_" +:+ pretty i ∉ replica_header)
    ∧ Forall2 (fun kr kd => kd.1 = kr.1 ∧ tranche_cells kr.2 kd.2)
        rows reduced
    ∧ replica_lines = ordered_summary_list replica_header <$> reduced.*2.
Proof.
  apply (proj1 (csv_column_ordering two_scenario_ctx replica_summary_data
                  "s1") replica_header replica_lines).
  vm_compute. constructor.
Defined.

(** C7 as stated fails: the table written for a row of collection [AB_1]
    goes from the attribute column straight to the score columns, without
    [tranche_0] and [tranche_1]. *)
Lemma csv_header_without_tranches :
  (∃ ov,
     summary_process c1_disk two_scenario_ctx replica_queue
     = ([upload_overview ov;
         upload_csv "s1" replica_header replica_lines;
         upload_archive "s1"; upload_archive "s2"], Ok ()))
  ∧ ordering_with_tranches replica_rows
    = ["ligand"; "collection_key"; "scenario"; "score_average"; "score_min";
       "attr_smi"; "tranche_0"; "tranche_1"; "score_0"; "score_1"]
  ∧ replica_header ≠ ordering_with_tranches replica_rows.
Proof.
  split_and!.
  - eexists. vm_compute. reflexivity.
  - vm_compute. reflexivity.
  - vm_compute. discriminate.
Qed.

(** C8.  Two scenarios are configured; the only docking of [s1] failed and
    the one of [s2] succeeded.  On the stop marker the aggregator writes the
    overview and one archive per scenario, and no table at all: [s2] has a
    row, and its table is missing because the scenario loop of
    [generate_summary_file] left at [s1], which has none. *)
Theorem no_table_after_empty_scenario :
  ∃ st r,
    summary_loop c1_disk (scenario_directory two_scenario_ctx)
      (initial_state (scenario_directory two_scenario_ctx)) mixed_queue
    = Ok st
    ∧ dockings_processed st = 2
    ∧ summary_data st !! "s1" = Some []
    ∧ summary_data st !! "s2" = Some [("lig1", r)]
    ∧ summary_process c1_disk two_scenario_ctx mixed_queue
      = ([upload_overview (overview_data st);
          upload_archive "s1"; upload_archive "s2"], Ok ()).
Proof.
  eexists _, _. split_and!.
  - vm_compute. reflexivity.
  - reflexivity.
  - reflexivity.
  - reflexivity.
  - vm_compute. reflexivity.
Qed.

(** The overview is written first, whatever was processed. *)
Lemma summary_stop_overview ctx st :
  ∃ rest, (summary_stop ctx st).1 = upload_overview (overview_data st) :: rest.
Proof.
  unfold summary_stop, generate_overview_file. case_decide; [|by eexists].
  destruct (generate_summary_file ctx (summary_data st)) as [ups [[]|e]];
    by eexists.
Qed.

(** One archive per configured scenario once a batch was processed and the
    tables were written without an exception. *)
Lemma summary_stop_archives ctx st sk :
  0 < dockings_processed st →
  (generate_summary_file ctx (summary_data st)).2 = Ok () →
  sk ∈ scenario_directory ctx →
  upload_archive sk ∈ (summary_stop ctx st).1.
Proof.
  intros Hpos Hok Hsk. unfold summary_stop. rewrite decide_True by done.
  destruct (generate_summary_file ctx (summary_data st)) as [ups r].
  simpl in Hok. subst r. simpl. right. apply elem_of_app. right.
  unfold generate_output_archives. by apply list_elem_of_fmap_2.
Qed.

(** The first configured scenario gets its tables when it has rows. *)
Lemma first_scenario_tables ctx sd sk rest rows ups :
  dict_keys (docking_scenarios ctx) = sk :: rest →
  sd !! sk = Some rows → rows ≠ [] →
  summarize_scenario ctx sk rows = Ok ups →
  ∀ u, u ∈ ups → u ∈ (generate_summary_file ctx sd).1.
Proof.
  intros Hkeys Hrows Hne Hsum u Hu. unfold generate_summary_file.
  rewrite Hkeys. cbn [generate_summary_file_loop]. rewrite Hrows.
  rewrite decide_False by (by destruct rows). rewrite Hsum.
  destruct (generate_summary_file_loop ctx sd rest) as [ups' r].
  simpl. apply elem_of_app. by left.
Qed.

(** ** The score table follows the queue *)

Lemma dict_get_None {V} (k : string) (d : dict V) :
  dict_get k d = None ↔ k ∉ d.*1.
Proof.
  induction d as [|[k0 v0] d IH]; simpl.
  - split; [intros _; apply not_elem_of_nil|done].
  - rewrite not_elem_of_cons. case_decide; [|tauto].
    split; [done|]. intros [? _]. done.
Qed.

Lemma dict_set_keys {V} (k : string) (v : V) (d : dict V) :
  (dict_set k v d).*1 = if decide (k ∈ d.*1) then d.*1 else d.*1 ++ [k].
Proof.
  induction d as [|[k0 v0] d IH].
  - cbn [dict_set fmap list_fmap fst]. rewrite decide_False; [done|].
    apply not_elem_of_nil.
  - cbn [dict_set]. rewrite fmap_cons. cbn [fst].
    destruct (decide (k = k0)) as [->|Hne].
    + rewrite decide_True; [done|by left].
    + rewrite fmap_cons, IH. cbn [fst].
      destruct (decide (k ∈ d.*1)) as [Hin|Hin].
      * rewrite decide_True; [done|by right].
      * rewrite decide_False; [done|]. rewrite elem_of_cons. tauto.
Qed.

Lemma dict_set_NoDup {V} (k : string) (v : V) (d : dict V) :
  NoDup d.*1 → NoDup (dict_set k v d).*1.
Proof.
  intros Hnd. rewrite dict_set_keys. case_decide as Hin; [done|].
  apply NoDup_app. split_and!; [done| |apply NoDup_singleton].
  intros x Hx ->%list_elem_of_singleton. done.
Qed.

Lemma dict_get_elem {V} (k : string) (v : V) (d : dict V) :
  NoDup d.*1 → (k, v) ∈ d → dict_get k d = Some v.
Proof.
  induction d as [|[k0 v0] d IH]; [by intros _ ?%elem_of_nil|].
  rewrite fmap_cons, NoDup_cons. simpl.
  intros [Hk0 Hnd] [[= -> ->]|Hin]%elem_of_cons.
  - by rewrite decide_True.
  - rewrite decide_False; [by apply IH|].
    intros ->. apply Hk0. by apply (list_elem_of_fmap_2 fst) in Hin.
Qed.

Lemma tracks_ext h h' sd :
  (∀ sk lig, h sk lig = h' sk lig) → tracks h sd → tracks h' sd.
Proof.
  intros Hh Ht sk rows Hrows. destruct (Ht sk rows Hrows) as [Hnd Hl].
  split; [done|]. intros lig. specialize (Hl lig). rewrite <- Hh. done.
Qed.

Lemma score_of_Some sk lig it sc :
  score_of sk lig it = Some sc →
  status it = Some "success" ∧ scenario_key it = sk ∧ ligand_key it = lig
  ∧ score it = Some sc.
Proof. unfold score_of. case_decide; [|done]. tauto. Qed.

Lemma record_score_tracks h sd it sd' :
  status it = Some "success" →
  record_score sd it = Ok sd' → tracks h sd →
  tracks (fun sk lig => h sk lig ++ option_list (score_of sk lig it)) sd'.
Proof.
  intros Hst H Ht. unfold record_score in H.
  apply bind_Ok in H as (rows & Hrows%getitem_Ok & H).
  apply bind_Ok in H as (sc & Hsc%getitem_Ok & H).
  destruct (Ht _ _ Hrows) as [Hnd Hl].
  assert (∀ lig, score_of (scenario_key it) lig it
                 = if decide (ligand_key it = lig) then Some sc else None)
    as Hsame.
  { intros lig. unfold score_of. destruct (decide (ligand_key it = lig)).
    - by rewrite decide_True.
    - rewrite decide_False; [done|]. tauto. }
  assert (∀ sk lig, sk ≠ scenario_key it → score_of sk lig it = None)
    as Hother.
  { intros sk lig Hne. unfold score_of. rewrite decide_False; [done|].
    intros (_ & ? & _). done. }
  pose proof (Hl (ligand_key it)) as Hit.
  destruct (dict_get (ligand_key it) rows) as [r|] eqn:Hget;
    injection H as <-; intros sk rows'; rewrite lookup_insert;
    (case_decide as Hsk;
     [ subst sk; intros [= <-]; split; [by apply dict_set_NoDup|];
       intros lig; rewrite dict_get_set, Hsame;
       destruct (decide (lig = ligand_key it)) as [->|Hne];
       [ rewrite decide_True by done; simpl
       | rewrite decide_False by done; simpl; rewrite app_nil_r; apply Hl ]
     | intros Hrows'; destruct (Ht _ _ Hrows') as [Hnd' Hl'];
       split; [done|]; intros lig; rewrite Hother by done;
       simpl; rewrite app_nil_r; apply Hl' ]).
  - destruct Hit as [-> ->]. done.
  - rewrite Hit. done.
Qed.

Lemma single_item_step_tracks {disk} h sd st it st' :
  single_item_step disk sd st it = Ok st' → tracks h (summary_data st) →
  tracks (fun sk lig => h sk lig ++ option_list (score_of sk lig it))
    (summary_data st').
Proof.
  unfold single_item_step. intros H Ht.
  apply bind_Ok in H as (s & Hs%getitem_Ok & H).
  apply bind_Ok in H as (o & _ & H).
  apply bind_Ok in H as (st1 & H1 & H).
  apply count_completion_rest in H as (_ & -> & _).
  case_decide as Hsucc.
  - subst s. apply bind_Ok in H1 as (sd' & Hrec & [= <-]). simpl in *.
    by eapply record_score_tracks.
  - apply bind_Ok in H1 as (l & _ & [= <-]). simpl.
    eapply tracks_ext; [|done]. intros sk lig. unfold score_of.
    rewrite decide_False; [by rewrite app_nil_r|].
    intros (Hst & _). rewrite Hs in Hst. by injection Hst.
Qed.

Lemma items_loop_tracks {disk} sd items : ∀ h st st',
  items_loop disk sd st items = Ok st' → tracks h (summary_data st) →
  tracks (fun sk lig => h sk lig ++ omap (score_of sk lig) items)
    (summary_data st').
Proof.
  induction items as [|it items IH]; intros h st st'; simpl.
  - intros [= <-] Ht. eapply tracks_ext; [|done].
    intros. by rewrite app_nil_r.
  - intros H Ht. apply bind_Ok in H as (st1 & H1 & H).
    eapply single_item_step_tracks in H1; [|done].
    eapply IH in H; [|done]. eapply tracks_ext; [|done].
    intros sk lig. simpl. rewrite <- app_assoc. f_equal.
    destruct (score_of sk lig it); done.
Qed.

Lemma summary_step_tracks {disk} h sd st item st' :
  summary_step disk sd st item = Ok st' → tracks h (summary_data st) →
  tracks (fun sk lig => h sk lig ++ scores_of_item sk lig item)
    (summary_data st').
Proof.
  assert (tracks h (summary_data st) →
          tracks (fun sk lig => h sk lig ++ []) (summary_data st)) as Hnil.
  { intros Ht. eapply tracks_ext; [|done]. intros. by rewrite app_nil_r. }
  destruct item as [dir k expected|l|l|items et sk u dir]; simpl.
  - intros H. apply bind_Ok in H as (cf & _ & [= <-]). done.
  - by intros [= <-].
  - by intros [= <-].
  - intros H Ht. apply bind_Ok in H as (st1 & H1 & H).
    eapply items_loop_tracks in H1; [|done].
    case_decide; [|by injection H as <-].
    apply move_batch_logs_Ok in H as (? & ? & ? & _ & _ & _ & ->). done.
Qed.

Lemma summary_loop_tracks {disk} sd queue : ∀ h st st',
  summary_loop disk sd st queue = Ok st' → tracks h (summary_data st) →
  tracks (fun sk lig => h sk lig ++ scores_for sk lig queue)
    (summary_data st').
Proof.
  induction queue as [|item queue IH]; intros h st st'; cbn [summary_loop].
  - intros [= <-] Ht. eapply tracks_ext; [|done].
    intros. unfold scores_for. cbn [mbind list_bind]. by rewrite app_nil_r.
  - intros H Ht. apply bind_Ok in H as (st1 & H1 & H).
    eapply summary_step_tracks in H1; [|done].
    eapply IH in H; [|done]. eapply tracks_ext; [|done].
    intros sk lig. cbn beta. unfold scores_for. rewrite bind_cons.
    by rewrite <- app_assoc.
Qed.

Lemma initial_summary_data_empty sd : ∀ m s rows,
  (∀ s rows, (m : gmap string (dict summary_row)) !! s = Some rows → rows = []) →
  foldl (fun m k => <[k := []]> m) m sd !! s = Some rows → rows = [].
Proof.
  induction sd as [|k sd IH]; intros m s rows Hm; simpl; [by apply Hm|].
  apply IH. intros s' rows'. rewrite lookup_insert. case_decide.
  - by intros [= <-].
  - apply Hm.
Qed.

Lemma initial_state_tracks sd :
  tracks (fun _ _ => []) (summary_data (initial_state sd)).
Proof.
  intros sk rows Hrows. simpl in Hrows.
  apply initial_summary_data_empty in Hrows as ->; [|done].
  split; [constructor|done].
Qed.

Lemma summary_loop_scores {disk} sd queue st sk rows lig r :
  summary_loop disk sd (initial_state sd) queue = Ok st →
  summary_data st !! sk = Some rows → (lig, r) ∈ rows →
  row_ligand r = lig ∧ row_scores r = scores_for sk lig queue.
Proof.
  intros Hloop Hrows Hin.
  eapply summary_loop_tracks in Hloop; [|apply initial_state_tracks].
  destruct (Hloop _ _ Hrows) as [Hnd Hl]. specialize (Hl lig).
  rewrite (dict_get_elem lig r rows) in Hl by done. done.
Qed.

Lemma rows_reduced_elem rows reduced k d :
  rows_reduced rows reduced → (k, d) ∈ reduced →
  ∃ r, (k, r) ∈ rows ∧ row_reduced r d.
Proof.
  intros Hall (i & Hi)%list_elem_of_lookup_1.
  destruct (Forall2_lookup_r _ _ _ _ _ Hall Hi) as ([k' r] & Hr & Hk & Hred).
  simpl in *. subst k'. exists r. split; [|done].
  by eapply list_elem_of_lookup_2.
Qed.

(** The uploads of [summary_process] that are tables. *)
Lemma summary_process_tables {disk} ctx queue u :
  u ∈ (summary_process disk ctx queue).1 → is_table u = true →
  ∃ st sk rows reduced,
    summary_loop disk (scenario_directory ctx)
      (initial_state (scenario_directory ctx)) queue = Ok st
    ∧ summary_data st !! sk = Some rows
    ∧ rows_reduced rows reduced
    ∧ u ∈ scenario_uploads ctx sk rows reduced.
Proof.
  unfold summary_process.
  destruct (summary_loop disk _ _ queue) as [st|e] eqn:Hloop;
    [|by intros ?%elem_of_nil].
  unfold summary_stop, generate_overview_file, generate_output_archives.
  intros Hu Ht.
  assert (∀ ups, u ∈ upload_overview (overview_data st) :: ups → u ∈ ups)
    as Hov.
  { intros ups [->|?]%elem_of_cons; done. }
  simpl in Hu.
  assert (∀ ks : list string, u ∉ upload_archive <$> ks) as Har.
  { intros ks (k & -> & _)%list_elem_of_fmap. done. }
  case_decide; [|apply Hov in Hu; by apply elem_of_nil in Hu].
  unfold generate_summary_file in Hu.
  destruct (generate_summary_file_loop ctx (summary_data st) _)
    as [ups r] eqn:Hgen.
  assert (u ∈ ups) as Hin.
  { destruct r; simpl in Hu; apply Hov in Hu; [|done].
    apply elem_of_app in Hu as [?|Har']; [done|]. by apply Har in Har'. }
  eapply generate_summary_file_loop_uploads in Hin
    as (sk & rows & reduced & _ & Hrows & _ & Hred & Hups); [|done].
  by exists st, sk, rows, reduced.
Qed.

(** C10.  Every row of a table [summary_process] writes, as a line of a
    delimited-text table or as a row of a columnar one, belongs to a ligand
    [lig] of its scenario [sk] with at least one score, the scores of the
    successful docking outcomes of [lig] in [sk] in the order the aggregator
    received them.  Its [score_min] is what [min] gives on these scores: one
    of them, and no score is below it.  Its [score_average] is what
    [statistics.mean] gives on them: their sum divided by their number,
    as the float nearest to it, which is within half a unit in the last
    place of the exact quotient. *)
Theorem written_rows_reduce_scores (disk : file_system) (ctx : context)
    (queue : list summary_item) (u : upload_item) :
  u ∈ (summary_process disk ctx queue).1 →
  match u with
  | upload_csv sk header lines =>
      ∀ line, line ∈ lines →
        ∃ lig avg lo,
          scores_for sk lig queue ≠ []
          ∧ mean (scores_for sk lig queue) = Ok avg
          ∧ float_of_fraction (exact_mean (scores_for sk lig queue)) = Ok avg
          ∧ rounds_to (exact_mean (scores_for sk lig queue)) avg
          ∧ py_min (scores_for sk lig queue) = Ok lo
          ∧ lo ∈ scores_for sk lig queue
          ∧ (∀ s, s ∈ scores_for sk lig queue → Qle lo s)
          ∧ header !! 0%nat = Some "ligand"
          ∧ line !! 0%nat = Some (cell_str lig)
          ∧ header !! 3%nat = Some "score_average"
          ∧ line !! 3%nat = Some (cell_num avg)
          ∧ header !! 4%nat = Some "score_min"
          ∧ line !! 4%nat = Some (cell_num lo)
  | upload_parquet sk rows =>
      ∀ lig d, (lig, d) ∈ rows →
        ∃ avg lo,
          scores_for sk lig queue ≠ []
          ∧ mean (scores_for sk lig queue) = Ok avg
          ∧ float_of_fraction (exact_mean (scores_for sk lig queue)) = Ok avg
          ∧ rounds_to (exact_mean (scores_for sk lig queue)) avg
          ∧ py_min (scores_for sk lig queue) = Ok lo
          ∧ lo ∈ scores_for sk lig queue
          ∧ (∀ s, s ∈ scores_for sk lig queue → Qle lo s)
          ∧ dict_get "ligand" d = Some (cell_str lig)
          ∧ dict_get "score_average" d = Some (cell_num avg)
          ∧ dict_get "score_min" d = Some (cell_num lo)
  | _ => True
  end.
Proof.
  intros Hu. destruct u as [o|sk rows|sk header lines|sk]; [done| | |done].
  - intros lig d Hd.
    apply summary_process_tables in Hu
      as (st & sk' & rows' & reduced & Hloop & Hrows & Hred & Hu); [|done].
    unfold scenario_uploads in Hu. apply elem_of_app in Hu as [Hu|Hu];
      (case_decide; [|by apply elem_of_nil in Hu]);
      apply list_elem_of_singleton in Hu; [|done].
    injection Hu as -> ->.
    destruct (rows_reduced_elem _ _ _ _ Hred Hd) as (r & Hr & Hrr).
    destruct (summary_loop_scores _ _ _ _ _ _ _ Hloop Hrows Hr) as [Hl Hs].
    destruct Hrr as (avg & lo & Havg & Hlo & Hga & Hgm & Hgl & _).
    rewrite Hs in Havg, Hlo. rewrite Hl in Hgl.
    destruct (mean_float _ _ Havg) as (Hne & Hfl & Hrd).
    destruct (py_min_least _ _ Hlo) as [Hin Hleast].
    by exists avg, lo.
  - intros line Hline.
    apply summary_process_tables in Hu
      as (st & sk' & rows' & reduced & Hloop & Hrows & Hred & Hu); [|done].
    unfold scenario_uploads in Hu. apply elem_of_app in Hu as [Hu|Hu];
      (case_decide; [|by apply elem_of_nil in Hu]);
      apply list_elem_of_singleton in Hu; [done|].
    injection Hu as -> -> ->.
    apply list_elem_of_fmap in Hline as (d & -> & Hd).
    apply list_elem_of_fmap in Hd as ([k d'] & -> & Hd).
    destruct (rows_reduced_elem _ _ _ _ Hred Hd) as (r & Hr & Hrr).
    destruct (summary_loop_scores _ _ _ _ _ _ _ Hloop Hrows Hr) as [Hl Hs].
    destruct Hrr as (avg & lo & Havg & Hlo & Hga & Hgm & Hgl & _).
    rewrite Hs in Havg, Hlo. rewrite Hl in Hgl.
    destruct (mean_float _ _ Havg) as (Hne & Hfl & Hrd).
    destruct (py_min_least _ _ Hlo) as [Hin Hleast].
    exists k, avg, lo.
    unfold ordered_summary_list, csv_header, fixed_columns.
    cbn [app fmap list_fmap lookup list_lookup snd].
    rewrite Hga, Hgm, Hgl. done.
Qed.

Lemma written_rows_reduce_scores_witness :
  ∃ lig avg lo,
    scores_for "s1" lig replica_queue = [(-15 # 2)%Q; (-17 # 2)%Q]
    ∧ mean (scores_for "s1" lig replica_queue) = Ok avg
    ∧ rounds_to (exact_mean (scores_for "s1" lig replica_queue)) avg
    ∧ py_min (scores_for "s1" lig replica_queue) = Ok lo
    ∧ (∀ s, s ∈ scores_for "s1" lig replica_queue → Qle lo s)
    ∧ replica_line !! 0%nat = Some (cell_str lig)
    ∧ replica_line !! 3%nat = Some (cell_num avg)
    ∧ replica_line !! 4%nat = Some (cell_num lo).
Proof.
  destruct (written_rows_reduce_scores c1_disk two_scenario_ctx replica_queue
              (upload_csv "s1" replica_header replica_lines)
              ltac:(vm_compute; right; left) replica_line ltac:(left))
    as (lig & avg & lo & _ & Havg & _ & Hrd & Hlo & _ & Hleast & _ & Hlig
        & _ & Ha & _ & Hm).
  exists lig, avg, lo. injection Hlig as <-.
  split_and!; [reflexivity|done..].
Defined.

(** ** The aggregator's claims on sample queues *)

Lemma mixed_queue_ok :
  Forall (summary_item_ok ["s1"; "s2"]) mixed_queue.
Proof.
  unfold mixed_queue, single_batch.
  repeat (apply Forall_cons; split); try (by apply Forall_nil).
  - split; [|discriminate]. apply Forall_cons; split; [|by apply Forall_nil].
    right. split; [reflexivity|by eexists].
  - split; [|discriminate]. apply Forall_cons; split; [|by apply Forall_nil].
    left. split_and!; [reflexivity| |by eexists]. right. left.
  - exact I.
Qed.

Lemma moved_to_names p fs n : n ∈ moved_to p fs → n ∈ moved_names fs.
Proof.
  unfold moved_to, moved_names.
  induction fs as [|e fs IH]; [done|]. destruct e as [p' n'| |]; cbn.
  - case_decide; cbn.
    + intros [->|Hin]%elem_of_cons; [by left|right; by apply IH].
    + intros Hin. right. by apply IH.
  - apply IH.
  - apply IH.
Qed.

Lemma draining_disk_cooperative table : cooperative (draining_disk table).
Proof.
  assert (∀ fs d p, listing_fresh (draining_disk table) fs d p) as Hfresh.
  { intros fs d p. eexists. split; [reflexivity|]. split.
    - apply NoDup_filter, NoDup_remove_dups.
    - intros n [Hn _]%list_elem_of_filter Hin. apply Hn.
      by eapply moved_to_names. }
  split_and!; [intros; apply Hfresh|intros; apply Hfresh|done|done].
Qed.

Lemma completion_fires_exactly_once_witness :
  ∃ st,
    summary_loop c1_disk ["s1"; "s2"] (initial_state ["s1"; "s2"]) mixed_queue
    = Ok st
    ∧ moves_of "AB_1" (fs_log st)
      = [collection_moved "AB_1" "/tmp/vf/c1" ["s1"; "s2"]]
    ∧ collection_completions st !! "AB_1" = None.
Proof.
  destruct (completion_fires_exactly_once c1_disk ["s1"; "s2"] mixed_queue
              "AB_1" "/tmp/vf/c1" 2 eq_refl eq_refl)
    as (Honce & Hreturns & _).
  destruct (Hreturns mixed_queue_ok (draining_disk_cooperative _))
    as [st Hst].
  exists st. split; [done|]. by apply Honce.
Defined.

(** C1 as stated fails: the collections [AB_1] and [CD_2] both hold a
    ligand [lig1], each has its marker and its one outcome, and the
    transition of [AB_1] has moved its [lig1] into the final directory of
    [s1]; when the transition of [CD_2] is due, the move of its [lig1] finds
    the destination taken and raises, so the aggregator is left with the
    scratch directory of [CD_2] in place and its entry in the map. *)
Lemma transition_raises_on_shared_ligand_key :
  markers_for "CD_2" shared_key_queue = [("/tmp/vf/c2", 1)]
  ∧ Z.of_nat (length (outcomes_for "CD_2" shared_key_queue)) = 1
  ∧ Forall (summary_item_ok ["s1"]) shared_key_queue
  ∧ (∃ st,
       summary_loop shared_key_disk ["s1"] (initial_state ["s1"])
         (take 3 shared_key_queue) = Ok st
       ∧ moved_to (final_dir "s1") (fs_log st) = ["lig1"]
       ∧ moves_of "CD_2" (fs_log st) = []
       ∧ is_Some (collection_completions st !! "CD_2"))
  ∧ summary_loop shared_key_disk ["s1"] (initial_state ["s1"])
      shared_key_queue
    = Raise (OSError "Destination path 's1/lig1' already exists").
Proof.
  split_and!.
  - reflexivity.
  - reflexivity.
  - unfold shared_key_queue, single_batch.
    repeat (apply Forall_cons; split); try (by apply Forall_nil);
      try exact I.
    + split; [|discriminate].
      apply Forall_cons; split; [|by apply Forall_nil].
      left. split_and!; [reflexivity|by left|by eexists].
    + split; [|discriminate].
      apply Forall_cons; split; [|by apply Forall_nil].
      left. split_and!; [reflexivity|by left|by eexists].
  - eexists. split_and!; [vm_compute; reflexivity|reflexivity|reflexivity|].
    vm_compute. by eexists.
  - vm_compute. reflexivity.
Qed.

Lemma no_completion_before_marker_witness :
  ∃ st,
    summary_loop c1_disk ["s1"; "s2"] (initial_state ["s1"; "s2"])
      (take 2 mixed_queue) = Ok st
    ∧ moves_of "AB_1" (fs_log st) = []
    ∧ (∀ c, collection_completions st !! "AB_1" = Some c →
            expected_completions c = -1
            ∧ 1 ≤ current_completions c
            ∧ check_for_completion_of_collection_key c1_disk
                (collection_completions st) (fs_log st) "AB_1" ["s1"; "s2"]
              = Ok (collection_completions st, fs_log st))
    ∧ (∀ k' c', collection_completions st !! k' = Some c' →
                0 ≤ current_completions c').
Proof.
  eexists. split; [vm_compute; reflexivity|].
  apply (no_completion_before_marker c1_disk ["s1"; "s2"]
           (take 2 mixed_queue) _ "AB_1").
  - vm_compute. reflexivity.
  - reflexivity.
Defined.

Lemma overview_counters_balance_witness :
  ∃ st,
    summary_loop c1_disk ["s1"; "s2"] (initial_state ["s1"; "s2"]) mixed_queue
    = Ok st
    ∧ ∃ a b, dockings_status (overview_data st) !! "success" = Some a
             ∧ dockings_status (overview_data st) !! "failed" = Some b
             ∧ a + b = total_dockings (overview_data st).
Proof.
  eexists. split; [vm_compute; reflexivity|].
  apply (overview_counters_balance c1_disk ["s1"; "s2"] mixed_queue).
  vm_compute. reflexivity.
Defined.
(** * Further properties *)

(** ** Text *)

Section text.

#[local] Arguments String.append !_ _ / : simpl nomatch.

Lemma append_nil_r (s : string) : s +:+ "" = s.
Proof. induction s as [|c s IH]; simpl; [done|by rewrite IH]. Qed.

Lemma append_assoc (s t u : string) : (s +:+ t) +:+ u = s +:+ (t +:+ u).
Proof. induction s as [|c s IH]; simpl; [done|by rewrite IH]. Qed.

Lemma append_length (s t : string) :
  String.length (s +:+ t) = (String.length s + String.length t)%nat.
Proof. induction s as [|c s IH]; simpl; [done|by rewrite IH]. Qed.

(** Two splittings of a string with tails of the same length agree. *)
Lemma append_inv_tail (s1 s2 t1 t2 : string) :
  s1 +:+ t1 = s2 +:+ t2 → String.length t1 = String.length t2 →
  s1 = s2 ∧ t1 = t2.
Proof.
  revert s2. induction s1 as [|c s1 IH]; intros [|d s2] H Hlen; simpl in *.
  - done.
  - apply (f_equal String.length) in H. simpl in H.
    rewrite append_length in H. lia.
  - apply (f_equal String.length) in H. simpl in H.
    rewrite append_length in H. lia.
  - injection H as -> H. destruct (IH _ H Hlen) as [-> ->]. done.
Qed.

Lemma append_inv_head (s t1 t2 : string) : s +:+ t1 = s +:+ t2 → t1 = t2.
Proof. induction s as [|c s IH]; simpl; [done|]. intros [= H]. auto. Qed.

Lemma lstrip_length s : (String.length (lstrip s) ≤ String.length s)%nat.
Proof.
  induction s as [|c s IH]; simpl; [done|].
  destruct (isspace c); simpl; lia.
Qed.

Lemma rstrip_length s : (String.length (rstrip s) ≤ String.length s)%nat.
Proof.
  induction s as [|c s IH]; simpl; [done|].
  destruct (rstrip s); [destruct (isspace c)|]; simpl in *; lia.
Qed.

Lemma lstrip_blank pad s : blank pad = true → lstrip (pad +:+ s) = lstrip s.
Proof.
  induction pad as [|c pad IH]; simpl; [done|].
  intros [-> ?]%andb_prop. auto.
Qed.

Lemma rstrip_blank pad : blank pad = true → rstrip pad = "".
Proof.
  induction pad as [|c pad IH]; simpl; [done|].
  intros [-> ?]%andb_prop. by rewrite IH.
Qed.

Lemma rstrip_app_blank s pad :
  blank pad = true → rstrip (s +:+ pad) = rstrip s.
Proof.
  intros Hpad. induction s as [|c s IH]; simpl.
  - by apply rstrip_blank.
  - by rewrite IH.
Qed.

Lemma rstrip_app s t : rstrip t ≠ "" → rstrip (s +:+ t) = s +:+ rstrip t.
Proof.
  intros Ht. induction s as [|c s IH]; simpl; [done|].
  rewrite IH. destruct s; simpl; [by destruct (rstrip t)|done].
Qed.

Lemma rstrip_cons_ne c s : rstrip (String c s) = String c s → rstrip s = s.
Proof.
  simpl. destruct (rstrip s) eqn:Hs.
  - destruct (isspace c); [done|]. by intros [= <-].
  - by intros [= <-].
Qed.

(** A string [strip] leaves as it is: it neither starts nor ends with
    whitespace. *)
Lemma strip_fixed s :
  strip s = s → lstrip s = s ∧ rstrip s = s.
Proof.
  unfold strip. intros H.
  assert (lstrip s = s) as Hl.
  { destruct s as [|c s]; [done|]. simpl in *.
    destruct (isspace c); [|done].
    pose proof (rstrip_length (lstrip s)). pose proof (lstrip_length s).
    apply (f_equal String.length) in H. simpl in H. lia. }
  by rewrite Hl in H.
Qed.

Lemma lstrip_fixed_app s t : lstrip s = s → s ≠ "" → lstrip (s +:+ t) = s +:+ t.
Proof.
  destruct s as [|c s]; [done|]. simpl. intros H _.
  destruct (isspace c); [|done].
  pose proof (lstrip_length s). apply (f_equal String.length) in H.
  simpl in H. lia.
Qed.

Lemma blank_no_equals pad : blank pad = true → contains "=" pad = false.
Proof.
  induction pad as [|c pad IH]; simpl; [done|].
  intros [Hc ?]%andb_prop. case_decide as Heq; [by subst|auto].
Qed.

Lemma contains_app c s t :
  contains c (s +:+ t) = contains c s || contains c t.
Proof.
  induction s as [|a s IH]; simpl; [done|]. by case_decide.
Qed.

Lemma split_first_app c l r :
  contains c l = false → split_first c (l +:+ String c r) = Some (l, r).
Proof.
  induction l as [|a l IH]; simpl.
  - intros _. by rewrite decide_True.
  - case_decide; [done|]. intros H'. by rewrite IH.
Qed.

(** X1.  A line [key = value], with any whitespace around the key, around the
    value and around the line, is read back as the pair [(key, value)],
    provided the key holds no [=] and neither starts nor ends with
    whitespace, and the value neither starts nor ends with whitespace: the
    first [=] separates, later ones belong to the value. *)
Theorem read_config_line_round_trip (k v pad1 pad2 pad3 pad4 : string) :
  strip k = k → strip v = v → contains "=" k = false →
  blank pad1 = true → blank pad2 = true →
  blank pad3 = true → blank pad4 = true →
  read_config_line
    (pad1 +:+ k +:+ pad2 +:+ "=" +:+ pad3 +:+ v +:+ pad4) = (k, v).
Proof.
  intros [Hkl Hkr]%strip_fixed [Hvl Hvr]%strip_fixed Hk H1 H2 H3 H4.
  unfold read_config_line.
  set (pad2' := if decide (k = "") then "" else pad2).
  set (pad3' := if decide (v = "") then "" else pad3).
  assert (blank pad2' = true) as H2' by (unfold pad2'; by case_decide).
  assert (blank pad3' = true) as H3' by (unfold pad3'; by case_decide).
  assert (strip (pad1 +:+ k +:+ pad2 +:+ "=" +:+ pad3 +:+ v +:+ pad4)
          = (k +:+ pad2') +:+ String "=" (pad3' +:+ v)) as ->.
  { unfold strip. rewrite lstrip_blank by done.
    assert (lstrip (k +:+ pad2 +:+ "=" +:+ pad3 +:+ v +:+ pad4)
            = k +:+ pad2' +:+ "=" +:+ pad3 +:+ v +:+ pad4) as ->.
    { unfold pad2'. case_decide as Hke.
      - subst k. simpl. by rewrite lstrip_blank.
      - by apply lstrip_fixed_app. }
    rewrite <- !append_assoc.
    rewrite (append_assoc (k +:+ pad2') "=" pad3).
    rewrite (append_assoc (k +:+ pad2') ("=" +:+ pad3) v).
    rewrite (append_assoc (k +:+ pad2') (("=" +:+ pad3) +:+ v) pad4).
    rewrite rstrip_app.
    - f_equal. rewrite rstrip_app_blank by done. simpl.
      unfold pad3'. case_decide as Hve.
      + subst v. rewrite append_nil_r, rstrip_blank by done. done.
      + rewrite rstrip_app, Hvr by (by rewrite Hvr).
        destruct (pad3 +:+ v) eqn:Hpv; [|done].
        destruct pad3, v; done.
    - rewrite rstrip_app_blank by done. simpl.
      by destruct (rstrip (pad3 +:+ v)). }
  unfold partition. rewrite split_first_app.
  2:{ rewrite contains_app, Hk. simpl. by apply blank_no_equals. }
  f_equal.
  - unfold strip, pad2'. case_decide as Hke.
    + by subst k.
    + rewrite lstrip_fixed_app, rstrip_app_blank by done. done.
  - unfold strip. rewrite lstrip_blank by done. rewrite Hvl. done.
Qed.

Lemma read_config_line_round_trip_witness :
  read_config_line "  receptor =  ../input-files/a=b.pdbqt
" = ("receptor", "../input-files/a=b.pdbqt").
Proof.
  apply (read_config_line_round_trip "receptor" "../input-files/a=b.pdbqt"
           "  " " " "  " "
"); reflexivity.
Defined.

(** ** Configuration files *)

Lemma dict_get_app {V} (k : string) (d1 d2 : dict V) :
  dict_get k (d1 ++ d2)
  = match dict_get k d1 with Some v => Some v | None => dict_get k d2 end.
Proof.
  induction d1 as [|[k' v'] d1 IH]; simpl; [done|]. by case_decide.
Qed.

Lemma dict_set_app_r {V} (k : string) (v : V) (d1 d2 : dict V) :
  dict_get k d1 = None → dict_set k v (d1 ++ d2) = d1 ++ dict_set k v d2.
Proof.
  induction d1 as [|[k' v'] d1 IH]; simpl; [done|].
  case_decide; [done|]. intros H'. by rewrite IH.
Qed.

Lemma dict_get_not_in {V} (k : string) (d : dict V) :
  k ∉ dict_keys d → dict_get k d = None.
Proof.
  induction d as [|[k' v'] d IH]; simpl; [done|].
  rewrite not_elem_of_cons. intros [? ?]. rewrite decide_False by done. auto.
Qed.

(** On a dict, the loop that cuts the comments is a map over the values. *)
Lemma cut_comments_map (d : dict string) : ∀ pre,
  NoDup (dict_keys (pre ++ d)) →
  cut_comments (pre ++ d) (dict_keys d)
  = Ok (pre ++ (prod_map id uncomment <$> d)).
Proof.
  induction d as [|[k v] d IH]; intros pre Hnd.
  - simpl. by rewrite !app_nil_r.
  - cbn [dict_keys fmap list_fmap cut_comments fst]. unfold cut_comment.
    unfold dict_keys in Hnd. rewrite fmap_app in Hnd.
    apply NoDup_app in Hnd as (Hpre & Hdisj & Hd).
    assert (dict_get k pre = None) as Hk.
    { apply dict_get_not_in. intros Hin. apply (Hdisj _ Hin). by left. }
    rewrite dict_get_app, Hk. simpl. rewrite decide_True by done. simpl.
    assert (∀ v', pre ++ (k, v') :: d = (pre ++ [(k, v')]) ++ d) as Hcons
      by (intros; by rewrite <- app_assoc).
    assert (NoDup (dict_keys ((pre ++ [(k, v)]) ++ d))) as Hnd'.
    { unfold dict_keys. rewrite <- app_assoc, fmap_app.
      apply NoDup_app. done. }
    assert (uncomment v = if contains "#" v then before_first "#" v else v)
      as Hun by done.
    destruct (contains "#" v) eqn:Hc; simpl; rewrite Hun.
    + rewrite dict_set_app_r by done. simpl. rewrite decide_True by done.
      rewrite Hcons, IH.
      * by rewrite <- app_assoc.
      * unfold dict_keys in *. by rewrite !fmap_app in *.
    + rewrite Hcons, IH by done. by rewrite <- app_assoc.
Qed.

Lemma dict_of_pairs_snoc {V} (pairs : list (string * V)) k v :
  dict_of_pairs (pairs ++ [(k, v)]) = dict_set k v (dict_of_pairs pairs).
Proof. unfold dict_of_pairs. by rewrite foldl_app. Qed.

Lemma dict_of_pairs_NoDup {V} (pairs : list (string * V)) :
  NoDup (dict_keys (dict_of_pairs pairs)).
Proof.
  induction pairs as [|[k v] pairs IH] using rev_ind.
  - constructor.
  - rewrite dict_of_pairs_snoc. by apply dict_set_NoDup.
Qed.

(** [dict(pairs)[k]] is the value of the last pair with key [k]. *)
Lemma dict_of_pairs_get {V} (pairs : list (string * V)) k :
  dict_get k (dict_of_pairs pairs)
  = snd <$> last (filter (fun kv => kv.1 = k) pairs).
Proof.
  induction pairs as [|[k' v] pairs IH] using rev_ind; [reflexivity|].
  rewrite dict_of_pairs_snoc, dict_get_set, filter_app.
  rewrite filter_cons, filter_nil. simpl. case_decide as Hk.
  - subst k'. rewrite decide_True by done. by rewrite last_snoc.
  - rewrite decide_False by done. by rewrite app_nil_r.
Qed.

Lemma dict_get_fmap {V W} (f : V → W) (k : string) (d : dict V) :
  dict_get k (prod_map id f <$> d) = f <$> dict_get k d.
Proof.
  induction d as [|[k' v'] d IH]; simpl; [done|]. by case_decide.
Qed.

Lemma before_first_contains c s : contains c (before_first c s) = false.
Proof.
  unfold before_first. destruct (split_first c s) as [[l r]|] eqn:H.
  - revert l r H. induction s as [|a s IH]; intros l r; simpl; [done|].
    case_decide; [by intros [= <- <-]|].
    destruct (split_first c s) as [[l' r']|]; [|done].
    intros [= <- <-]. simpl. rewrite decide_False by done. eauto.
  - revert H. induction s as [|a s IH]; simpl; [done|].
    case_decide; [done|]. destruct (split_first c s) as [[l' r']|]; [done|].
    auto.
Qed.

Lemma uncomment_clean v : contains "#" (uncomment v) = false.
Proof.
  unfold uncomment. destruct (contains "#" v) eqn:H; [|done].
  apply before_first_contains.
Qed.

(** X2.  [load_config] returns for every file; the value it holds for a key
    is the value of the last line with that key, cut at its first [#]; no
    value it holds has a [#] in it. *)
Theorem load_config_last_line_wins (lines : list string) :
  ∃ config,
    load_config lines = Ok config
    ∧ NoDup (dict_keys config)
    ∧ (∀ k, dict_get k config
            = (fun kv => uncomment kv.2) <$> last_line_of k lines)
    ∧ (∀ k v, dict_get k config = Some v → contains "#" v = false).
Proof.
  unfold load_config.
  pose proof (dict_of_pairs_NoDup (read_config_line <$> lines)) as Hnd.
  pose proof (cut_comments_map (dict_of_pairs (read_config_line <$> lines))
                [] Hnd) as Hcut.
  simpl in Hcut. cbv zeta. rewrite Hcut.
  eexists. split; [done|]. split_and!.
  - unfold dict_keys in *. rewrite <- list_fmap_compose.
    erewrite list_fmap_ext; [exact Hnd|]. by intros _ [] _.
  - intros k. rewrite dict_get_fmap, dict_of_pairs_get.
    unfold last_line_of. by destruct (last _).
  - intros k v. rewrite dict_get_fmap.
    destruct (dict_get k _); [|done]. intros [= <-]. apply uncomment_clean.
Qed.

(** ** [format_ligand] *)

Lemma split_on_pieces c s : Forall (fun w => contains c w = false) (split_on c s).
Proof.
  induction s as [|a s IH]; simpl; [by repeat constructor|].
  case_decide as Ha; [by constructor|].
  destruct (split_on c s) as [|w ws]; [by repeat constructor; simpl; rewrite decide_False|].
  apply Forall_cons in IH as [Hw Hws]. constructor; [|done].
  simpl. by rewrite decide_False.
Qed.

Lemma set_last_Forall {A} (P : A → Prop) (x : A) (l : list A) :
  P x → Forall P l → Forall P (set_last x l).
Proof.
  intros Hx. induction l as [|a [|b l] IH]; intros Hl; simpl.
  - constructor.
  - by repeat constructor.
  - apply Forall_cons in Hl as [Ha Hl]. constructor; [done|]. by apply IH.
Qed.

Lemma join_empty_contains c l :
  Forall (fun w => contains c w = false) l → contains c (join_empty l) = false.
Proof.
  induction 1 as [|w l Hw Hl IH]; simpl; [done|].
  by rewrite contains_app, Hw, IH.
Qed.

(** X3.  When the last dot-separated piece of the path is not the wanted
    format, [format_ligand] runs the converter and returns a name that has
    lost every dot of the path: the pieces are joined without a separator,
    so the result holds no [.] unless the format has one. *)
Theorem format_ligand_drops_dots (ligand_path file_format : string) :
  last (split_on "." ligand_path) ≠ Some file_format →
  contains "." file_format = false →
  ∃ r, format_ligand ligand_path file_format
       = (r, Some ("obabel " +:+ ligand_path +:+ " -O " +:+ r))
       ∧ contains "." r = false.
Proof.
  intros Hlast Hfmt. unfold format_ligand.
  rewrite decide_True.
  - eexists. split; [done|]. apply join_empty_contains.
    apply set_last_Forall; [done|]. apply split_on_pieces.
  - intros Heq. apply Hlast.
    destruct (last (split_on "." ligand_path)) eqn:Hl; simpl in Heq.
    + by subst.
    + apply last_None in Hl. by destruct ligand_path; simpl in Hl;
        repeat (case_decide || destruct (split_on _ _)).
Qed.

Lemma format_ligand_drops_dots_witness :
  ∃ r, format_ligand "ligands/lig1.mol2" "pdbqt"
       = (r, Some ("obabel " +:+ "ligands/lig1.mol2" +:+ " -O " +:+ r))
       ∧ contains "." r = false.
Proof.
  apply (format_ligand_drops_dots "ligands/lig1.mol2" "pdbqt");
    [vm_compute; discriminate|reflexivity].
Defined.

End text.

(** ** [get_attrs] *)

Lemma defaults_get (attrs : list string) k : ∀ d,
  dict_get k (foldl (fun d key => dict_set key "N/A" d) d attrs)
  = if decide (k ∈ attrs) then Some "N/A" else dict_get k d.
Proof.
  induction attrs as [|a attrs IH]; intros d; simpl.
  - done.
  - rewrite IH, dict_get_set. destruct (decide (k ∈ attrs)) as [Hin|Hin].
    + rewrite decide_True; [done|by right].
    + case_decide as Hk.
      * subst. rewrite decide_True; [done|by left].
      * rewrite decide_False; [done|]. rewrite elem_of_cons. tauto.
Qed.

(** What the scan of the lines keeps true of the attributes. *)
Lemma attr_lines_keeps re n (P : dict string → Prop) lines : ∀ d found,
  (∀ d v, P d → P (dict_set "smi" v d)) →
  (∀ d v, P d → P (dict_set "heavy_atom_count" v d)) →
  P d → P (attr_lines re n lines d found).
Proof.
  induction lines as [|line lines IH]; intros d found Hs Hh Hd; simpl; [done|].
  destruct (search_smiles_current re (strip line));
    destruct (search_smiles re (strip line));
    destruct (search_heavy_atom_count re (strip line));
    case_decide; try apply IH; auto.
Qed.

(** X4.  Whatever the format and the file hold, [get_attrs] gives a value for
    every requested attribute, and gives a value other than ["N/A"] only for
    [smi] and [heavy_atom_count]; it has no key besides the requested ones
    and these two. *)
Theorem get_attrs_keys (re : attr_searches) (ligand_format : string)
    (lines : list string) (attrs : list string) (k : string) :
  let attributes := get_attrs re ligand_format lines attrs in
  (k ∈ attrs → is_Some (dict_get k attributes))
  ∧ (∀ v, dict_get k attributes = Some v → v ≠ "N/A" →
          k = "smi" ∨ k = "heavy_atom_count")
  ∧ (is_Some (dict_get k attributes) →
     k ∈ attrs ∨ k = "smi" ∨ k = "heavy_atom_count").
Proof.
  simpl. unfold get_attrs.
  set (P := fun d : dict string =>
         (k ∈ attrs → is_Some (dict_get k d))
         ∧ (∀ v, dict_get k d = Some v → v ≠ "N/A" →
                 k = "smi" ∨ k = "heavy_atom_count")
         ∧ (is_Some (dict_get k d) →
            k ∈ attrs ∨ k = "smi" ∨ k = "heavy_atom_count")).
  assert (P (foldl (fun d key => dict_set key "N/A" d) [] attrs)) as H0.
  { unfold P. rewrite defaults_get. case_decide as Hin; simpl.
    - split_and!; [eauto|congruence|auto].
    - split_and!; [done|done|by intros [? [=]]]. }
  assert (∀ a, a = "smi" ∨ a = "heavy_atom_count" →
               ∀ d v, P d → P (dict_set a v d)) as Hset.
  { intros a Ha d v (H1 & H2 & H3). unfold P. rewrite dict_get_set.
    case_decide as Hk; [subst k; split_and!; eauto|done]. }
  case_decide; [|exact H0].
  apply (attr_lines_keeps re (length attrs) P); auto.
Qed.

(** ** [process_config] *)

Lemma list_getitem_Ok {A} (l : list A) i a :
  list_getitem l i = Ok a → l !! i = Some a.
Proof. unfold list_getitem. destruct (l !! i); congruence. Qed.

Lemma scenarios_loop_inv raw names : ∀ pre acc scs,
  docking_scenario_names raw = pre ++ names →
  NoDup (dict_keys acc) →
  (∀ name, name ∈ dict_keys acc ↔ name ∈ pre) →
  (∀ name sc, dict_get name acc = Some sc →
              scenario_from raw (length pre) name sc) →
  scenarios_loop raw (length pre) names acc = Ok scs →
  NoDup (dict_keys scs)
  ∧ (∀ name, name ∈ dict_keys scs ↔ name ∈ docking_scenario_names raw)
  ∧ (∀ name sc, dict_get name scs = Some sc →
                scenario_from raw (length (docking_scenario_names raw))
                  name sc).
Proof.
  induction names as [|scenario names IH]; intros pre acc scs Hall Hnd Hkeys Hacc.
  - simpl. intros [= <-]. rewrite Hall, app_nil_r. done.
  - cbn [scenarios_loop]. intros H.
    apply bind_Ok in H as (m & Hm%list_getitem_Ok & H).
    apply bind_Ok in H as (r' & Hr%list_getitem_Ok & H).
    apply bind_Ok in H as (r & -> & H).
    apply bind_Ok in H as (b' & Hb%list_getitem_Ok & H).
    apply bind_Ok in H as (b & -> & H).
    assert (docking_scenario_names raw !! length pre = Some scenario) as Hi.
    { rewrite Hall. by rewrite list_lookup_middle. }
    replace (S (length pre)) with (length (pre ++ [scenario])) in H
      by (rewrite length_app; simpl; lia).
    refine (IH (pre ++ [scenario]) _ scs _ _ _ _ H);
      [by rewrite <- app_assoc|by apply dict_set_NoDup| |].
    + intros name. unfold dict_keys in *. rewrite dict_set_keys, elem_of_app.
      rewrite list_elem_of_singleton. case_decide as Hin.
      * rewrite Hkeys. split; [auto|]. intros [?| ->]; [done|].
        by apply Hkeys.
      * rewrite elem_of_app, list_elem_of_singleton, Hkeys. done.
    + intros name sc. rewrite dict_get_set, length_app. simpl.
      case_decide as Hname.
      * intros [= <-]. subst name. split; [done|].
        exists (length pre), m. simpl. split_and!; try done; [lia|].
        intros j ?. lia.
      * intros Hsc. destruct (Hacc _ _ Hsc) as (Hkey & i & m' & ? & ? & Hlast & ? & ? & ? & ?).
        split; [done|]. exists i, m'. split_and!; try done; [lia|].
        intros j Hj. destruct (decide (j = length pre)) as [->|Hne].
        -- rewrite Hi. congruence.
        -- apply Hlast. lia.
Qed.

(** X5.  When [process_config] returns, the scenario table has one entry per
    configured scenario name (each name once), every entry is keyed by its
    own [key] field and is built from the last position of its name in
    [docking_scenario_names]: its program is [smina] or [gwovina] when the
    method at that position starts with that word and the method itself
    otherwise, its replicas and batch size are the integers at that
    position.  The summary formats default to [csv.gz]. *)
Theorem process_config_scenarios (raw : raw_config)
    (scs : dict scenario) (fmts : list string) :
  process_config raw = Ok (scs, fmts) →
  fmts = default ["csv.gz"] (raw_summary_formats raw)
  ∧ NoDup (dict_keys scs)
  ∧ (∀ name, name ∈ dict_keys scs ↔ name ∈ docking_scenario_names raw)
  ∧ (∀ name sc, dict_get name scs = Some sc →
                scenario_from raw (length (docking_scenario_names raw))
                  name sc).
Proof.
  unfold process_config. intros H.
  apply bind_Ok in H as (scs' & Hloop & [= <- <-]).
  split; [by destruct (raw_summary_formats raw)|].
  apply (scenarios_loop_inv raw (docking_scenario_names raw) [] []);
    try done.
  constructor.
Qed.

Lemma process_config_scenarios_witness :
  ∃ scs fmts,
    process_config sample_raw_config = Ok (scs, fmts)
    ∧ fmts = ["csv.gz"]
    ∧ dict_keys scs = ["s1"; "s2"]
    ∧ (∀ name sc, dict_get name scs = Some sc →
                  scenario_from sample_raw_config 3 name sc).
Proof.
  eexists _, _. split; [reflexivity|].
  destruct (process_config_scenarios sample_raw_config _ _ eq_refl)
    as (Hf & _ & _ & Hsc).
  split_and!; [exact Hf|reflexivity|exact Hsc].
Defined.

(** ** Where the outputs go *)

Lemma append_tail_ne (s1 s2 t1 t2 : string) :
  String.length t1 = String.length t2 → t1 ≠ t2 → s1 +:+ t1 ≠ s2 +:+ t2.
Proof. intros Hlen Hne H. by destruct (append_inv_tail _ _ _ _ H Hlen). Qed.

Lemma append_inv_mid (s1 s2 t : string) : s1 +:+ t = s2 +:+ t → s1 = s2.
Proof. intros H. by destruct (append_inv_tail _ _ _ _ H eq_refl). Qed.

(** Paths that end in different extensions differ. *)
Ltac by_extension H :=
  exfalso;
  change "json.gz" with ("j" +:+ "son.gz") in H;
  change "parquet" with ("p" +:+ "arquet") in H;
  rewrite <- !append_assoc in H;
  by apply append_tail_ne in H.

Lemma remote_path_artifact cfg u1 u2 :
  remote_path cfg u1 = remote_path cfg u2 → artifact u1 = artifact u2.
Proof.
  unfold remote_path, generate_output_path.
  destruct u1, u2; simpl; case_decide as Hmode; intros H; try done;
    try by_extension H;
    repeat apply append_inv_head in H;
    by apply append_inv_mid in H as ->.
Qed.

Lemma NoDup_fmap_through {A B C} (f : A → B) (g : A → C) (l : list A) :
  (∀ x y, f x = f y → g x = g y) → NoDup (g <$> l) → NoDup (f <$> l).
Proof.
  intros Hfg. induction l as [|a l IH]; simpl; [constructor|].
  rewrite !NoDup_cons. intros [Ha Hl]. split; [|auto].
  intros (b & Hab & Hb)%list_elem_of_fmap. apply Ha.
  apply list_elem_of_fmap. exists b. split; [by apply Hfg|done].
Qed.

Lemma scenario_uploads_artifacts ctx sk rows reduced :
  artifact <$> scenario_uploads ctx sk rows reduced
  = (if decide ("parquet" ∈ summary_formats ctx)
     then [("parquet", Some sk)] else [])
    ++ (if decide ("csv.gz" ∈ summary_formats ctx)
        then [("csv", Some sk)] else []).
Proof. unfold scenario_uploads. rewrite fmap_app. by repeat case_decide. Qed.

(** The tables of [generate_summary_file]: of configured scenarios, each
    artifact once. *)
Lemma generate_summary_file_loop_artifacts ctx sd keys : ∀ ups r,
  NoDup keys →
  generate_summary_file_loop ctx sd keys = (ups, r) →
  NoDup (artifact <$> ups)
  ∧ ∀ a, a ∈ artifact <$> ups →
         (a.1 = "parquet" ∨ a.1 = "csv") ∧ ∃ sk, sk ∈ keys ∧ a.2 = Some sk.
Proof.
  induction keys as [|sk keys IH]; intros ups r Hnd; simpl.
  - intros [= <- <-]. split; [constructor|]. by intros a ?%elem_of_nil.
  - apply NoDup_cons in Hnd as [Hsk Hnd].
    assert (∀ a : string * option string,
              a ∈ @nil (string * option string) →
              (a.1 = "parquet" ∨ a.1 = "csv")
              ∧ ∃ sk0, sk0 ∈ sk :: keys ∧ a.2 = Some sk0) as Hnil
      by (by intros a ?%elem_of_nil).
    destruct (sd !! sk) as [rows|] eqn:Hrows;
      [|intros [= <- <-]; split; [constructor|done]].
    case_decide as Hlen; [intros [= <- <-]; split; [constructor|done]|].
    destruct (summarize_scenario ctx sk rows) as [ups1|e] eqn:Hsum;
      [|intros [= <- <-]; split; [constructor|done]].
    destruct (generate_summary_file_loop ctx sd keys) as [ups2 r2] eqn:Hloop.
    intros [= <- <-].
    destruct (IH ups2 r2 Hnd eq_refl) as [Hnd2 Hin2].
    apply summarize_scenario_uploads in Hsum as (reduced & _ & ->).
    rewrite fmap_app, scenario_uploads_artifacts. split.
    + apply NoDup_app. split_and!; [| |done].
      * repeat case_decide; simpl; repeat constructor;
          rewrite ?elem_of_cons; try apply not_elem_of_nil.
        intros [[=]|?%elem_of_nil]; done.
      * intros a Ha Ha2. destruct (Hin2 a Ha2) as (_ & sk' & Hsk' & Heq).
        assert (a.2 = Some sk) as Heq2.
        { repeat case_decide; simpl in Ha;
            repeat (apply elem_of_cons in Ha as [->|Ha]; [done|]);
            by apply elem_of_nil in Ha. }
        rewrite Heq2 in Heq. injection Heq as ->. done.
    + intros a [Ha|Ha]%elem_of_app.
      * assert ((a.1 = "parquet" ∨ a.1 = "csv") ∧ a.2 = Some sk) as [? ?].
        { repeat case_decide; simpl in Ha;
            repeat (apply elem_of_cons in Ha as [->|Ha]; [by auto|]);
            by apply elem_of_nil in Ha. }
        split; [done|]. exists sk. split; [by left|done].
      * destruct (Hin2 a Ha) as (? & sk' & ? & ?). split; [done|].
        exists sk'. split; [by right|done].
Qed.

(** X6.  The artifacts one run of the aggregator hands to the uploader (the
    overview, a columnar and a delimited-text table per scenario, an archive
    per scenario) have pairwise different remote paths: no upload of a
    subjob overwrites another one. *)
Theorem remote_paths_distinct (disk : file_system) (ctx : context)
    (cfg : output_config) (queue : list summary_item) :
  NoDup (dict_keys (docking_scenarios ctx)) →
  NoDup (remote_path cfg <$> (summary_process disk ctx queue).1).
Proof.
  intros Hnd.
  apply (NoDup_fmap_through _ artifact); [apply remote_path_artifact|].
  unfold summary_process.
  destruct (summary_loop disk _ _ queue) as [st|e]; [|constructor].
  unfold summary_stop, generate_overview_file.
  case_decide; [|simpl; apply NoDup_singleton].
  destruct (generate_summary_file ctx (summary_data st)) as [ups r] eqn:Hgen.
  unfold generate_summary_file in Hgen.
  apply generate_summary_file_loop_artifacts in Hgen as [Hups Hin];
    [|done].
  assert (("summary", None) ∉ artifact <$> ups) as Hov.
  { intros (_ & sk & _ & [=])%Hin. }
  assert (NoDup (artifact <$> [upload_overview (overview_data st)] ++ ups))
    as Hfirst.
  { rewrite fmap_app. simpl. by constructor. }
  destruct r as [[]|e]; cbn [fst]; [|exact Hfirst].
  rewrite app_assoc, fmap_app. apply NoDup_app. split_and!; [done| |].
  - intros a Ha (u & -> & (sk & -> & Hsk)%list_elem_of_fmap)%list_elem_of_fmap.
    rewrite fmap_app, elem_of_app in Ha.
    destruct Ha as [Ha|Ha].
    + simpl in Ha. apply list_elem_of_singleton in Ha. done.
    + apply Hin in Ha as ([Hk|Hk] & _); simpl in Hk; done.
  - unfold generate_output_archives, scenario_directory.
    rewrite <- list_fmap_compose.
    apply NoDup_fmap_2; [|done]. by intros sk1 sk2 [= ->].
Qed.

Lemma remote_paths_distinct_witness :
  NoDup (remote_path sample_output_config
           <$> (summary_process c1_disk two_scenario_ctx replica_queue).1).
Proof.
  apply (remote_paths_distinct c1_disk two_scenario_ctx sample_output_config
           replica_queue).
  vm_compute. repeat constructor; set_solver.
Defined.

(** ** The overview follows the queue *)

Lemma accounts_refl o : accounts o [] o.
Proof.
  unfold accounts. simpl. rewrite !app_nil_r, !Z.add_0_r. done.
Qed.

Lemma count_completion_overview {disk} sd st k st' :
  count_completion disk sd st k = Ok st' →
  overview_data st' = overview_data st
  ∧ dockings_processed st' = dockings_processed st.
Proof.
  unfold count_completion. destruct (collection_completions st !! k).
  - intros (cf & _ & [= <-])%bind_Ok. done.
  - intros [= <-]. done.
Qed.

Lemma single_item_step_overview {disk} sd st it st' :
  single_item_step disk sd st it = Ok st' →
  let o := overview_data st in
  let o' := overview_data st' in
  skipped_ligand_list o' = skipped_ligand_list o
  ∧ skipped_ligands o' = skipped_ligands o
  ∧ failed_downloads_log o' = failed_downloads_log o
  ∧ failed_downloads o' = failed_downloads o
  ∧ failed_downloads_dockings o' = failed_downloads_dockings o
  ∧ total_dockings o' = total_dockings o + 1
  ∧ failed_list o' = failed_list o ++ failures_of [it]
  ∧ dockings_processed st' = dockings_processed st.
Proof.
  unfold single_item_step. intros H.
  apply bind_Ok in H as (s & Hs%getitem_Ok & H).
  apply bind_Ok in H as (o1 & Ho1 & H).
  apply bind_Ok in H as (st1 & H1 & H).
  apply count_completion_overview in H as [-> ->].
  unfold count_docking in Ho1.
  apply bind_Ok in Ho1 as (n & _ & [= <-]).
  unfold failures_of. simpl. rewrite Hs.
  case_decide as Hsucc.
  - apply bind_Ok in H1 as (sd' & _ & [= <-]). subst s.
    rewrite decide_True by done. simpl. rewrite app_nil_r. done.
  - apply bind_Ok in H1 as (l & Hl%getitem_Ok & [= <-]).
    rewrite decide_False by congruence. rewrite Hl. simpl. done.
Qed.

Lemma failures_of_app l1 l2 :
  failures_of (l1 ++ l2) = failures_of l1 ++ failures_of l2.
Proof. unfold failures_of. by rewrite omap_app. Qed.

Lemma items_loop_overview {disk} sd items : ∀ st st',
  items_loop disk sd st items = Ok st' →
  let o := overview_data st in
  let o' := overview_data st' in
  skipped_ligand_list o' = skipped_ligand_list o
  ∧ skipped_ligands o' = skipped_ligands o
  ∧ failed_downloads_log o' = failed_downloads_log o
  ∧ failed_downloads o' = failed_downloads o
  ∧ failed_downloads_dockings o' = failed_downloads_dockings o
  ∧ total_dockings o' = total_dockings o + Z.of_nat (length items)
  ∧ failed_list o' = failed_list o ++ failures_of items
  ∧ dockings_processed st' = dockings_processed st.
Proof.
  induction items as [|it items IH]; intros st st'.
  - intros [= <-]. simpl. rewrite app_nil_r, Z.add_0_r. done.
  - cbn [items_loop]. intros (st1 & H1 & H)%bind_Ok.
    apply single_item_step_overview in H1
      as (F1 & F2 & F3 & F4 & F5 & F6 & F7 & F8).
    apply IH in H as (E1 & E2 & E3 & E4 & E5 & E6 & E7 & E8).
    cbv zeta in *.
    rewrite E1, E2, E3, E4, E5, E6, E7, E8, F1, F2, F3, F4, F5, F6, F7, F8.
    change (it :: items) with ([it] ++ items).
    rewrite failures_of_app, app_assoc, length_app. simpl length.
    split_and!; try done. lia.
Qed.

Lemma bind_snoc {A B} (f : A → list B) (l : list A) (x : A) :
  (l ++ [x]) ≫= f = (l ≫= f) ++ f x.
Proof.
  rewrite bind_app, bind_cons. cbn [mbind list_bind]. by rewrite app_nil_r.
Qed.

Lemma summary_step_accounts {disk} sd o0 done st item st' :
  accounts o0 done (overview_data st) →
  summary_step disk sd st item = Ok st' →
  accounts o0 (done ++ [item]) (overview_data st').
Proof.
  intros (H1 & H2 & H3 & H4 & H5 & H6 & H7) Hstep. unfold accounts.
  unfold skips_of, failed_downloads_of, tasks_of in *. rewrite !bind_snoc.
  destruct item as [dir k expected|l|l|items et sk u dir]; simpl in Hstep.
  - apply bind_Ok in Hstep as (cf & _ & [= <-]). simpl.
    rewrite !app_nil_r. done.
  - injection Hstep as <-. simpl. rewrite !app_nil_r.
    rewrite H1, H2, H3, H4, H5, H6, H7, fmap_app, foldr_app, !length_app.
    simpl. split_and!; try done; try lia; [by rewrite app_assoc|].
    assert (∀ (l0 : list Z) a, foldr Z.add a l0 = foldr Z.add 0 l0 + a)
      as Hsum.
    { induction l0 as [|x l0 IH]; intros a; simpl; [lia|].
      rewrite IH. lia. }
    rewrite (Hsum _ (dl_dockings l + 0)). lia.
  - injection Hstep as <-. simpl. rewrite !app_nil_r.
    rewrite H1, H2, H3, H4, H5, H6, H7, !length_app. simpl.
    split_and!; try done; try lia. by rewrite app_assoc.
  - apply bind_Ok in Hstep as (st1 & Hloop & Hstep).
    apply items_loop_overview in Hloop
      as (E1 & E2 & E3 & E4 & E5 & E6 & E7 & _). simpl in *.
    assert (overview_data st' = overview_data st1) as ->.
    { case_decide; [|by injection Hstep as <-].
      apply move_batch_logs_Ok in Hstep as (? & ? & ? & _ & _ & _ & ->).
      done. }
    rewrite E1, E2, E3, E4, E5, E6, E7, !app_nil_r.
    rewrite H1, H2, H3, H4, H5, H6, H7, failures_of_app, !length_app.
    split_and!; try done; try lia. by rewrite app_assoc.
Qed.

Lemma summary_loop_accounts {disk} sd o0 queue : ∀ done st st',
  accounts o0 done (overview_data st) →
  summary_loop disk sd st queue = Ok st' →
  accounts o0 (done ++ queue) (overview_data st').
Proof.
  induction queue as [|item queue IH]; intros done st st' Hacc.
  - intros [= <-]. by rewrite app_nil_r.
  - cbn [summary_loop]. intros (st1 & Hstep & Hloop)%bind_Ok.
    replace (done ++ item :: queue) with ((done ++ [item]) ++ queue)
      by (by rewrite <- app_assoc).
    eapply IH; [|exact Hloop]. by eapply summary_step_accounts.
Qed.

(** X8.  In every state the aggregator reaches, the overview holds exactly
    what the queue carried: the skip log and the download-failure log are
    the entries of the skip and download-failed items in order of arrival
    and the two counters are their lengths, the docking count of the failed
    downloads is the sum of theirs, [total_dockings] is the number of tasks
    of the processed batches, and [failed_list] is the log entries of the
    tasks that did not succeed, in order. *)
Theorem overview_follows_queue (disk : file_system) (sd : list string)
    (queue : list summary_item) (st : summary_state) :
  summary_loop disk sd (initial_state sd) queue = Ok st →
  let o := overview_data st in
  skipped_ligand_list o = skips_of queue
  ∧ skipped_ligands o = Z.of_nat (length (skips_of queue))
  ∧ failed_downloads_log o = failed_downloads_of queue
  ∧ failed_downloads o = Z.of_nat (length (failed_downloads_of queue))
  ∧ failed_downloads_dockings o
    = foldr Z.add 0 (dl_dockings <$> failed_downloads_of queue)
  ∧ total_dockings o = Z.of_nat (length (tasks_of queue))
  ∧ failed_list o = failures_of (tasks_of queue).
Proof.
  intros H.
  apply (summary_loop_accounts sd initial_overview queue []
           (initial_state sd) st (accounts_refl initial_overview)) in H.
  exact H.
Qed.

Lemma overview_follows_queue_witness :
  ∃ st,
    summary_loop c1_disk ["s1"; "s2"] (initial_state ["s1"; "s2"]) mixed_queue
    = Ok st
    ∧ total_dockings (overview_data st) = 2
    ∧ failed_list (overview_data st)
      = [ {| log_base_collection_key := "AB_1";
             log_collection_key := "AB_1";
             log_ligand_key := "lig1";
             log_reason := "" |} ].
Proof.
  assert (∃ st, summary_loop c1_disk ["s1"; "s2"]
                  (initial_state ["s1"; "s2"]) mixed_queue = Ok st)
    as [st Hloop]
    by (vm_compute; eauto).
  exists st. split; [exact Hloop|].
  destruct (overview_follows_queue c1_disk ["s1"; "s2"] mixed_queue st Hloop)
    as (_ & _ & _ & _ & _ & Ht & Hf).
  split; [by rewrite Ht|by rewrite Hf].
Defined.

(** ** The downloader *)

Lemma download_step_put env tmp_dir n item p :
  download_step env tmp_dir n item = Ok p → put_for item p.
Proof.
  unfold download_step.
  destruct (s3_download_path item) as [remote|] eqn:Hs3.
  - intros (b & Hb & H)%bind_Ok.
    destruct (download_fileobj env b remote _); [| |done].
    + injection H as <-. done.
    + apply bind_Ok in H as (d & Hd%getitem_Ok & [= <-]). simpl. eauto.
  - destruct (sharedfs_path item).
    + intros (? & _ & [= <-])%bind_Ok. done.
    + intros [= <-]. done.
Qed.

Lemma downloader_puts env tmp_dir items : ∀ n puts,
  downloader env tmp_dir n items = (puts, Ok ()) →
  Forall2 put_for items puts.
Proof.
  induction items as [|item items IH]; intros n puts; simpl.
  - intros [= <-]. constructor.
  - destruct (download_step env tmp_dir n item) as [p|e] eqn:Hstep; [|done].
    destruct (downloader env tmp_dir (S n) items) as [ps r] eqn:Hrest.
    intros [= <- ->]. constructor; [|by eapply IH].
    by eapply download_step_put.
Qed.

Lemma reports_download_failed items puts :
  Forall2 put_for items puts →
  Forall (fun item => match item with
                      | item_download_failed _ => True
                      | _ => False
                      end) (reports puts).
Proof.
  induction 1 as [|item p items puts Hp _ IH]; simpl; [constructor|].
  destruct p as [u|[]]; simpl; try done. by constructor.
Qed.

Lemma summary_loop_reports {disk} sd queue : ∀ st,
  Forall (fun item => match item with
                      | item_download_failed _ => True
                      | _ => False
                      end) queue →
  ∃ st', summary_loop disk sd st queue = Ok st'
         ∧ collection_completions st' = collection_completions st
         ∧ fs_log st' = fs_log st.
Proof.
  induction queue as [|item queue IH]; intros st Hall; simpl; [eauto|].
  apply Forall_cons in Hall as [Hitem Hall]. destruct item; try done.
  simpl. edestruct IH as (st' & -> & ? & ?); [done|]. eauto.
Qed.

(** X7.  When the downloader has taken its items without an exception, it
    has made one put per item, in order: the item forwarded to the unpacker
    under its collection key, with the archive at [<temp_dir>/tmp.<ext>], or,
    for an object-store download that failed, a report to the aggregator
    with the collection key and its docking count.  The aggregator takes the
    reports without an exception, counts each one, adds up their docking
    counts, and touches no collection. *)
Theorem downloader_forwards_or_reports (disk : file_system)
    (env : download_env) (tmp_dir : string) (n : nat)
    (items : list download_queue_item) (puts : list download_put)
    (sd : list string) :
  downloader env tmp_dir n items = (puts, Ok ()) →
  Forall2 put_for items puts
  ∧ ∃ st,
      summary_loop disk sd (initial_state sd) (reports puts) = Ok st
      ∧ failed_downloads (overview_data st)
        = Z.of_nat (length (reports puts))
      ∧ failed_downloads_dockings (overview_data st)
        = foldr Z.add 0 (dl_dockings <$> failed_downloads_of (reports puts))
      ∧ collection_completions st = ∅
      ∧ fs_log st = [].
Proof.
  intros Hputs%downloader_puts. split; [done|].
  pose proof (reports_download_failed _ _ Hputs) as Hall.
  destruct (summary_loop_reports (disk:=disk) sd (reports puts)
              (initial_state sd) Hall)
    as (st & Hloop & Hcc & Hfs).
  exists st. split; [done|].
  pose proof (summary_loop_accounts sd initial_overview (reports puts) []
                (initial_state sd) st (accounts_refl initial_overview) Hloop)
    as (_ & _ & _ & H4 & H5 & _).
  simpl in H4, H5. split_and!; [|done|done|done].
  rewrite H4.
  assert (length (failed_downloads_of (reports puts))
          = length (reports puts)) as ->; [|lia].
  clear -Hall. induction Hall as [|item queue Hitem _ IH]; [done|].
  destruct item; try done. unfold failed_downloads_of in *.
  rewrite bind_cons. simpl. by rewrite IH.
Qed.

Lemma downloader_forwards_or_reports_witness :
  ∃ puts st,
    downloader (sample_download_env "lib/AB_2.tar.gz") "/tmp/vf" 0
      [sample_download "AB_1" (Some "lib/AB_1.tar.gz");
       sample_download "AB_2" (Some "lib/AB_2.tar.gz")] = (puts, Ok ())
    ∧ summary_loop c1_disk ["s1"] (initial_state ["s1"]) (reports puts) = Ok st
    ∧ failed_downloads (overview_data st) = 1
    ∧ failed_downloads_dockings (overview_data st) = 40.
Proof.
  destruct (downloader_forwards_or_reports c1_disk
              (sample_download_env "lib/AB_2.tar.gz") "/tmp/vf" 0
              [sample_download "AB_1" (Some "lib/AB_1.tar.gz");
               sample_download "AB_2" (Some "lib/AB_2.tar.gz")] _ ["s1"]
              eq_refl) as (_ & st & Hloop & Hn & Hd & _).
  eexists _, st. split; [reflexivity|].
  split_and!; [exact Hloop|by rewrite Hn|by rewrite Hd].
Defined.

(** ** The executor's worker loop *)

Lemma process_docking_completion_submitted env item rc out err item' :
  process_docking_completion env item rc out err = Ok item' →
  submitted item' = submitted item.
Proof.
  unfold process_docking_completion. simpl.
  destruct (DOCKING_PROGRAMS env !! program item) as [b|]; [|done].
  destruct (finish b) as [f|]; [|done].
  intros (r & _ & H)%bind_Ok. destruct r; by injection H as <-.
Qed.

Lemma run_single_submitted env td item w w' item' :
  run_single env td item w = (w', Ok item') →
  submitted item' = submitted item.
Proof.
  unfold run_single, docking_process_setup_common. simpl.
  destruct (program_runstring_array env _) as [cmd|]; [|done].
  destruct (subprocess_run env cmd (timeout item)) as [rc out err| |e];
    [| |done].
  - case_decide.
    + destruct (process_docking_completion env _ rc out err) as [it|] eqn:Hp;
        [|done].
      apply process_docking_completion_submitted in Hp.
      destruct (docking_process_clean_common (tmp_run_dir it) _)
        as [w1 [[]|]]; [|done].
      by intros [= _ <-].
    + match goal with
      | |- context [docking_process_clean_common ?a ?b] =>
          destruct (docking_process_clean_common a b) as [w1 [[]|]];
            [|by intros [=]]
      end.
      by intros [= _ <-].
  - match goal with
    | |- context [rmtree ?a ?b] =>
        destruct (rmtree a b) as [w1 [[]|]]; [|by intros [=]]
    end.
    by intros [= _ <-].
Qed.

Lemma run_singles_submitted env td items : ∀ w w' items',
  run_singles env td items w = (w', Ok items') →
  submitted <$> items' = submitted <$> items.
Proof.
  induction items as [|item items IH]; intros w w' items'; simpl.
  - by intros [= _ <-].
  - destruct (run_single env td item w) as [w1 [it|]] eqn:H1; [|done].
    destruct (run_singles env td items w1) as [w2 [its|]] eqn:H2; [|done].
    intros [= _ <-]. simpl. f_equal; [by eapply run_single_submitted|].
    by eapply IH.
Qed.

(** What a call of [docking_process_batch] that returns has put. *)
Lemma docking_process_batch_put env sc items td w w' put :
  docking_process_batch env sc items td w = (w', Ok put) →
  (items = [] ∧ put = None)
  ∨ (items ≠ []
     ∧ ∃ items', put = Some (item_docking_complete items' "single" (key sc)
                               None None)
                 ∧ submitted <$> items' = submitted <$> items).
Proof.
  unfold docking_process_batch. case_decide as Hlen.
  - intros [= _ <-]. left. by destruct items.
  - destruct (DOCKING_PROGRAMS env !! scenario_program sc) as [b|]; [|done].
    destruct (model b) as [et|]; [|done].
    case_decide as Het; [|case_decide; [|done]].
    + destruct (run_singles env td (mark_failed <$> items) w)
        as [w1 [its|]] eqn:Hrun; [|done].
      intros [= _ <-]. right. split; [by destruct items|].
      exists its. subst et. split; [done|].
      apply run_singles_submitted in Hrun. rewrite Hrun.
      rewrite <- list_fmap_compose. done.
    + unfold run_batch, docking_process_setup_common. done.
Qed.

Lemma submitted_scenario_key a b :
  submitted a = submitted b → scenario_key a = scenario_key b.
Proof. intros H. by apply (f_equal scenario_key) in H. Qed.

Lemma submitted_fmap_Forall (P : string → Prop) l1 l2 :
  submitted <$> l1 = submitted <$> l2 →
  Forall (fun it => P (scenario_key it)) l2 →
  Forall (fun it => P (scenario_key it)) l1.
Proof.
  revert l2. induction l1 as [|a l1 IH]; intros [|b l2] Hs; try done.
  intros [Hb Hl2]%Forall_cons.
  pose proof (f_equal head Hs) as Hab. pose proof (f_equal tail Hs) as Hl.
  rewrite !fmap_cons in Hab, Hl. cbn [head tail] in Hab, Hl.
  apply (inj Some) in Hab. constructor; [|by eapply IH].
  by rewrite (submitted_scenario_key _ _ Hab).
Qed.

Lemma of_scenario_all s l :
  Forall (fun it => scenario_key it = s) l → of_scenario s l = l.
Proof.
  unfold of_scenario. induction 1 as [|a l Ha _ IH]; [done|].
  by rewrite filter_cons_True, IH.
Qed.

Lemma of_scenario_none s k l :
  k ≠ s → Forall (fun it => scenario_key it = k) l → of_scenario s l = [].
Proof.
  unfold of_scenario. intros Hne. induction 1 as [|a l Ha _ IH]; [done|].
  rewrite filter_cons_False by congruence. done.
Qed.

Lemma of_scenario_app s l1 l2 :
  of_scenario s (l1 ++ l2) = of_scenario s l1 ++ of_scenario s l2.
Proof. apply filter_app. Qed.

Lemma tasks_of_app q1 q2 : tasks_of (q1 ++ q2) = tasks_of q1 ++ tasks_of q2.
Proof. unfold tasks_of. apply bind_app. Qed.

Lemma dict_set_keys_present {V} (k : string) (v : V) (d : dict V) :
  is_Some (dict_get k d) → dict_keys (dict_set k v d) = dict_keys d.
Proof.
  intros [x Hx]. unfold dict_keys. rewrite dict_set_keys.
  rewrite decide_True; [done|].
  apply dec_stable. intros Hnot. apply dict_get_None in Hnot. congruence.
Qed.

Section worker.
  Context (ctx : context) (env : executor_env).

(** One flush of what is held for [k]. *)
Lemma run_held_inv st k st' rec l sc :
  dict_get k (items_queue st) = Some l →
  dict_get k (docking_scenarios ctx) = Some sc →
  Forall (fun it => scenario_key it = k) l →
  Z.of_nat (length l) ≤ Z.max 1 (batchsizes sc) →
  held_ok ctx (dict_set k [] (items_queue st)) →
  Forall (batch_ok ctx) (summary_puts st) →
  conserved rec st →
  run_held ctx env st k = Ok st' →
  held_ok ctx (items_queue st') ∧ Forall (batch_ok ctx) (summary_puts st')
  ∧ conserved rec st'
  ∧ dict_keys (items_queue st') = dict_keys (items_queue st)
  ∧ dict_get k (items_queue st') = Some []
  ∧ ∀ k', k' ≠ k →
      dict_get k' (items_queue st') = dict_get k' (items_queue st).
Proof.
  intros Hl Hsc Hk Hsize Hheld Hputs Hcons. unfold run_held.
  rewrite Hl, Hsc. simpl.
  destruct (docking_process_batch env sc l (ctx_temp_dir ctx) (world st))
    as [w' [put|]] eqn:Hbatch; [|done].
  intros [= <-]. simpl.
  split_and!; [done| | |by apply dict_set_keys_present
              |by rewrite dict_get_set_eq
              |by intros k' ?; rewrite dict_get_set_ne].
  - apply docking_process_batch_put in Hbatch
      as [[-> ->]|(Hne & items' & -> & Hsub)]; simpl.
    + by rewrite app_nil_r.
    + apply Forall_app. split; [done|]. repeat constructor.
      * intros ->. by destruct l.
      * exists k, sc. split_and!; [done|done| |].
        -- by apply (submitted_fmap_Forall (fun x => x = k) _ l).
        -- apply (f_equal length) in Hsub. rewrite !length_fmap in Hsub.
           by rewrite Hsub.
  - intros s. specialize (Hcons s). simpl. rewrite <- Hcons.
    apply docking_process_batch_put in Hbatch
      as [[-> ->]|(Hne & items' & -> & Hsub)]; simpl.
    + rewrite app_nil_r. rewrite dict_get_set. case_decide; [|done].
      subst s. by rewrite Hl.
    + rewrite tasks_of_app, of_scenario_app, !fmap_app.
      unfold tasks_of at 2. rewrite bind_cons. cbn [mbind list_bind].
      rewrite app_nil_r, dict_get_set, <- app_assoc. f_equal.
      assert (Forall (fun it => scenario_key it = k) items') as Hk'
        by (by apply (submitted_fmap_Forall (fun x => x = k) _ l)).
      case_decide as Hs.
      * subst s. rewrite Hl, of_scenario_all by done. simpl.
        by rewrite app_nil_r.
      * rewrite (of_scenario_none s k) by done. done.
Qed.

Lemma held_ok_flush iq k l :
  held_ok ctx iq → dict_get k iq = Some l →
  held_ok ctx (dict_set k [] iq).
Proof.
  intros Hheld Hl k' l'. rewrite dict_get_set. case_decide as Hk'.
  - intros [= <-]. subst k'. split; [constructor|].
    destruct (Hheld k l Hl) as (_ & sc & ? & _). eauto.
  - apply Hheld.
Qed.

Lemma run_all_held_inv keys : ∀ st st' rec,
  held_ok ctx (items_queue st) → Forall (batch_ok ctx) (summary_puts st) →
  conserved rec st →
  run_all_held ctx env st keys = Ok st' →
  held_ok ctx (items_queue st') ∧ Forall (batch_ok ctx) (summary_puts st')
  ∧ conserved rec st'
  ∧ dict_keys (items_queue st') = dict_keys (items_queue st)
  ∧ ∀ k l, dict_get k (items_queue st') = Some l →
           l = [] ∨ ((k ∉ keys) ∧ dict_get k (items_queue st) = Some l).
Proof.
  induction keys as [|k keys IH]; intros st st' rec Hheld Hputs Hcons.
  - intros [= <-]. split_and!; try done. intros k l Hl. right.
    split; [apply not_elem_of_nil|done].
  - cbn [run_all_held]. intros (st1 & H1 & H)%bind_Ok.
    pose proof H1 as H1'. unfold run_held in H1'.
    apply bind_Ok in H1' as (sc & Hsc%getitem_Ok & H1').
    apply bind_Ok in H1' as (l & Hl%getitem_Ok & _).
    destruct (Hheld k l Hl) as (Hk & sc' & Hsc' & Hsize).
    rewrite Hsc in Hsc'. injection Hsc' as <-.
    eapply (run_held_inv _ _ _ rec l sc) in H1
      as (Hh1 & Hp1 & Hc1 & Hk1 & Hempty & Hrest); try done.
    2:{ destruct Hsize as [->|?]; simpl; lia. }
    2:{ by eapply held_ok_flush. }
    apply (IH _ _ rec) in H as (Hh & Hp & Hc & Hk' & Hall); try done.
    split_and!; try done; [congruence|].
    intros k' l' Hl'. destruct (Hall k' l' Hl') as [->|[Hnotin Hl1]];
      [by left|].
    destruct (decide (k' = k)) as [->|Hne].
    + left. congruence.
    + right. split; [by apply not_elem_of_cons|]. by rewrite <- Hrest.
Qed.

(** After a flush of every key, nothing is held. *)
Lemma run_all_held_empty st st' rec :
  held_ok ctx (items_queue st) → Forall (batch_ok ctx) (summary_puts st) →
  conserved rec st →
  run_all_held ctx env st (dict_keys (items_queue st)) = Ok st' →
  held_ok ctx (items_queue st') ∧ Forall (batch_ok ctx) (summary_puts st')
  ∧ conserved rec st'
  ∧ ∀ k l, dict_get k (items_queue st') = Some l → l = [].
Proof.
  intros Hheld Hputs Hcons H.
  apply (run_all_held_inv _ _ _ rec) in H as (Hh & Hp & Hc & Hk & Hall);
    try done.
  split_and!; try done. intros k l Hl.
  destruct (Hall k l Hl) as [->|[Hnotin Hl']]; [done|].
  destruct Hnotin. apply dec_stable. intros Hn.
  apply dict_get_None in Hn. congruence.
Qed.

Lemma of_scenario_snoc s rec item :
  of_scenario s (rec ++ [item])
  = of_scenario s rec ++ (if decide (scenario_key item = s) then [item]
                          else []).
Proof.
  unfold of_scenario. rewrite filter_app. by f_equal.
Qed.

Lemma docking_step_inv st g st' rec :
  held_ok ctx (items_queue st) → Forall (batch_ok ctx) (summary_puts st) →
  conserved rec st →
  docking_step ctx env st g = Ok st' →
  held_ok ctx (items_queue st') ∧ Forall (batch_ok ctx) (summary_puts st')
  ∧ conserved (rec ++ received [g]) st'.
Proof.
  intros Hheld Hputs Hcons. destruct g as [item|]; simpl.
  2:{ intros H. rewrite app_nil_r.
      apply (run_all_held_empty _ _ rec) in H as (? & ? & ? & _); done. }
  remember (scenario_key item) as k eqn:Ek.
  set (iq := match dict_get k (items_queue st) with
             | Some _ => items_queue st
             | None => dict_set k [] (items_queue st)
             end).
  intros H. apply bind_Ok in H as (sc & Hsc%getitem_Ok & H).
  apply bind_Ok in H as (held & Hheld_k%getitem_Ok & H). revert H.
  assert (held = default [] (dict_get k (items_queue st))
          ∧ ∀ k', k' ≠ k → dict_get k' iq = dict_get k' (items_queue st))
    as [Hdef Hother].
  { unfold iq in *. destruct (dict_get k (items_queue st)) as [l|] eqn:Hl.
    - rewrite Hl in Hheld_k. by injection Hheld_k as <-.
    - rewrite dict_get_set_eq in Hheld_k. injection Hheld_k as <-.
      split; [done|]. intros k' ?. by rewrite dict_get_set_ne. }
  assert (Forall (fun it => scenario_key it = k) held
          ∧ (held = [] ∨ Z.of_nat (length held) < batchsizes sc))
    as [Hk Hsize].
  { destruct (dict_get k (items_queue st)) as [l|] eqn:Hl.
    - destruct (Hheld k l Hl) as (? & sc' & Hsc' & ?). simpl in Hdef.
      subst l. rewrite Hsc in Hsc'. by injection Hsc' as <-.
    - simpl in Hdef. subst held. split; [constructor|by left]. }
  assert (∀ l', held_ok ctx (dict_set k l' iq) ↔
                (Forall (fun it => scenario_key it = k) l'
                 ∧ (l' = [] ∨ Z.of_nat (length l') < batchsizes sc)))
    as Hset.
  { intros l'. split.
    - intros Hh. destruct (Hh k l') as (? & sc' & Hsc' & ?);
        [by rewrite dict_get_set_eq|].
      rewrite Hsc in Hsc'. by injection Hsc' as <-.
    - intros [? ?] k' l''. rewrite dict_get_set. case_decide as Hk'.
      + intros [= Heq]. subst k' l''. eauto.
      + rewrite Hother by done. apply Hheld. }
  assert (conserved (rec ++ [item])
            {| items_queue := dict_set k (held ++ [item]) iq;
               world := world st; summary_puts := summary_puts st |})
    as Hcons'.
  { intros s. specialize (Hcons s). simpl. rewrite of_scenario_snoc.
    rewrite dict_get_set, <- Ek. case_decide as Hs.
    - subst s. simpl. rewrite decide_True by done.
      rewrite fmap_app in Hcons.
      rewrite !fmap_app, <- Hcons, <- Hdef, <- app_assoc. done.
    - rewrite decide_False by done.
      rewrite Hother by done. rewrite app_nil_r. done. }
  intros H. case_decide as Hfull.
  - eapply (run_held_inv _ _ _ (rec ++ [item]) (held ++ [item]) sc) in H
      as (? & ? & ? & _); try done.
    + simpl. by rewrite dict_get_set_eq.
    + apply Forall_app. split; [done|]. by repeat constructor.
    + rewrite length_app. simpl.
      destruct Hsize as [->|?]; simpl; lia.
    + simpl. intros k' l''. rewrite !dict_get_set. case_decide as Hk'.
      * intros [= <-]. subst k'. split; [constructor|]. eauto.
      * rewrite Hother by done. apply Hheld.
  - injection H as <-. simpl. split_and!; [|done|done].
    apply Hset. split.
    + apply Forall_app. split; [done|]. by repeat constructor.
    + right. lia.
Qed.

Lemma received_app g1 g2 : received (g1 ++ g2) = received g1 ++ received g2.
Proof. unfold received. apply omap_app. Qed.

Lemma docking_loop_inv gets : ∀ st st' rec,
  held_ok ctx (items_queue st) → Forall (batch_ok ctx) (summary_puts st) →
  conserved rec st →
  docking_loop ctx env st gets = Ok st' →
  held_ok ctx (items_queue st') ∧ Forall (batch_ok ctx) (summary_puts st')
  ∧ conserved (rec ++ received gets) st'.
Proof.
  induction gets as [|g gets IH]; intros st st' rec Hheld Hputs Hcons.
  - intros [= <-]. by rewrite app_nil_r.
  - cbn [docking_loop]. intros (st1 & H1 & H)%bind_Ok.
    apply (docking_step_inv _ _ _ rec) in H1 as (? & ? & ?); try done.
    apply (IH _ _ (rec ++ received [g])) in H; try done.
    change (g :: gets) with ([g] ++ gets).
    by rewrite received_app, app_assoc.
Qed.

End worker.

(** X9.  When a worker of the executor ends without an exception, every task
    it took from the docking queue is in exactly one of the batches it
    reported, with the fields the validator gave it, and the tasks of one
    scenario are reported in the order they were taken.  Every reported
    batch is of the single-ligand model, is not empty, holds tasks of one
    configured scenario only, and is no longer than the batch size of that
    scenario (one task, where the batch size is below one).  Nothing is
    left held back. *)
Theorem docking_process_reports_each_task_once (ctx : context)
    (env : executor_env) (w : executor_world) (gets : list queue_get)
    (st : docking_state) :
  docking_process ctx env w gets = Ok st →
  Forall (batch_ok ctx) (summary_puts st)
  ∧ (∀ s, submitted <$> of_scenario s (tasks_of (summary_puts st))
          = submitted <$> of_scenario s (received gets))
  ∧ ∀ k l, dict_get k (items_queue st) = Some l → l = [].
Proof.
  unfold docking_process. intros (st1 & Hloop & H)%bind_Ok.
  apply (docking_loop_inv ctx env _ _ _ []) in Hloop as (Hh & Hp & Hc);
    [|done|constructor|done].
  apply (run_all_held_empty ctx env _ _ (received gets)) in H
    as (_ & Hp' & Hc' & Hempty); try done.
  split_and!; [done| |done].
  intros s. rewrite <- Hc'.
  destruct (dict_get s (items_queue st)) as [l|] eqn:Hl; simpl.
  - rewrite (Hempty s l Hl). by rewrite app_nil_r.
  - by rewrite app_nil_r.
Qed.

Lemma docking_process_reports_each_task_once_witness :
  ∃ st,
    docking_process batching_ctx
      (sample_executor scoring_backends timeout_expired) empty_world
      sample_gets = Ok st
    ∧ Forall (batch_ok batching_ctx) (summary_puts st)
    ∧ ligand_key <$> of_scenario "s1" (tasks_of (summary_puts st))
      = ["lig1"; "lig2"; "lig3"].
Proof.
  assert (∃ st, docking_process batching_ctx
                  (sample_executor scoring_backends timeout_expired)
                  empty_world sample_gets = Ok st) as [st Hst]
    by (vm_compute; eauto).
  exists st. split; [exact Hst|].
  destruct (docking_process_reports_each_task_once _ _ _ _ _ Hst)
    as (Hb & Hc & _).
  split; [exact Hb|].
  specialize (Hc "s1"). apply (f_equal (fmap ligand_key)) in Hc.
  rewrite <- !list_fmap_compose in Hc.
  exact Hc.
Defined.

Section ready_worker.
  Context (ctx : context) (env : executor_env).
  Hypothesis Hrun : run_returns env.

Lemma docking_process_batch_ready sc l w :
  (l ≠ [] → ∃ b0, DOCKING_PROGRAMS env !! scenario_program sc = Some b0
                  ∧ model b0 = Some "single") →
  (∀ item, item ∈ l →
           ∃ b, DOCKING_PROGRAMS env !! program item = Some b
                ∧ backend_returns b) →
  ∃ w' put,
    docking_process_batch env sc l (ctx_temp_dir ctx) w = (w', Ok put)
    ∧ run_dirs w' ⊆ run_dirs w.
Proof.
  intros Hsc Hb. unfold docking_process_batch. case_decide as Hlen.
  - by exists w, None.
  - destruct Hsc as (b0 & -> & ->); [by intros ->|].
    rewrite decide_True by done.
    destruct (run_singles_returns env (ctx_temp_dir ctx) Hrun
                (mark_failed <$> l) w) as (w' & items' & -> & _ & Hd).
    { intros item (i & -> & Hi)%list_elem_of_fmap.
      rewrite mark_failed_program. by apply Hb. }
    eexists _, _. split; [done|]. rewrite Hd. set_solver.
Qed.

Lemma run_held_ready st k l sc :
  dict_get k (items_queue st) = Some l →
  dict_get k (docking_scenarios ctx) = Some sc →
  Forall (fun it => scenario_key it = k) l →
  Forall (task_ready ctx env) l →
  held_ready ctx env (items_queue st) →
  ∃ st', run_held ctx env st k = Ok st'
         ∧ held_ready ctx env (items_queue st')
         ∧ run_dirs (world st') ⊆ run_dirs (world st).
Proof.
  intros Hl Hsc Hk Hready Hheld. unfold run_held. rewrite Hl, Hsc. simpl.
  destruct (docking_process_batch_ready sc l (world st))
    as (w' & put & -> & Hd).
  - intros Hne. destruct l as [|it l]; [done|].
    apply Forall_cons in Hk as [Hit _].
    apply Forall_cons in Hready as [(sc' & b0 & b & Hsc' & ? & ? & _) _].
    rewrite Hit, Hsc in Hsc'. injection Hsc' as <-. eauto.
  - intros item Hin. rewrite Forall_forall in Hready.
    destruct (Hready item Hin) as (_ & _ & b & _ & _ & _ & ? & ?). eauto.
  - eexists. split; [done|]. simpl. split; [|done].
    intros k' l'. rewrite dict_get_set. case_decide.
    + intros [= <-]. constructor.
    + apply Hheld.
Qed.

Lemma run_held_items_queue st k st' :
  run_held ctx env st k = Ok st' →
  items_queue st' = dict_set k [] (items_queue st).
Proof.
  unfold run_held. intros (sc & _ & H)%bind_Ok.
  apply bind_Ok in H as (l & _ & H).
  destruct (docking_process_batch env sc l _ _) as [w' [put|]]; [|done].
  by injection H as <-.
Qed.

Lemma run_all_held_ready keys : ∀ st,
  held_ok ctx (items_queue st) → held_ready ctx env (items_queue st) →
  keys ⊆ dict_keys (items_queue st) →
  ∃ st', run_all_held ctx env st keys = Ok st'
         ∧ held_ready ctx env (items_queue st')
         ∧ run_dirs (world st') ⊆ run_dirs (world st).
Proof.
  induction keys as [|k keys IH]; intros st Hok Hready Hkeys.
  - by exists st.
  - destruct (dict_get k (items_queue st)) as [l|] eqn:Hl.
    2:{ apply dict_get_None in Hl. destruct Hl. apply Hkeys. set_solver. }
    destruct (Hok k l Hl) as (Hk & sc & Hsc & Hsize).
    destruct (run_held_ready st k l sc) as (st1 & H1 & Hr1 & Hd1);
      [done|done|done|by eapply Hready|done|].
    pose proof (run_held_items_queue _ _ _ H1) as Hiq.
    destruct (IH st1) as (st' & H & Hr & Hd); [|done| |].
    + rewrite Hiq. by eapply held_ok_flush.
    + rewrite Hiq. rewrite dict_set_keys_present by eauto.
      intros k' Hk'. apply Hkeys. set_solver.
    + exists st'. cbn [run_all_held]. rewrite H1. simpl.
      split_and!; [done|done|]. set_solver.
Qed.

Lemma docking_step_ready st g :
  held_ok ctx (items_queue st) → held_ready ctx env (items_queue st) →
  Forall (task_ready ctx env) (received [g]) →
  ∃ st', docking_step ctx env st g = Ok st'
         ∧ held_ready ctx env (items_queue st')
         ∧ run_dirs (world st') ⊆ run_dirs (world st).
Proof.
  intros Hok Hready Hg. destruct g as [item|]; simpl.
  2:{ by apply run_all_held_ready. }
  apply Forall_cons in Hg as [Hitem _].
  remember (scenario_key item) as k eqn:Ek.
  set (iq := match dict_get k (items_queue st) with
             | Some _ => items_queue st
             | None => dict_set k [] (items_queue st)
             end).
  destruct Hitem as (sc & b0 & b & Hsc & Hb0 & Hmodel & Hb & Hret).
  rewrite <- Ek in Hsc. rewrite Hsc. simpl.
  assert (∃ held, dict_get k iq = Some held
                  ∧ Forall (fun it => scenario_key it = k) held
                  ∧ Forall (task_ready ctx env) held
                  ∧ held_ready ctx env iq) as (held & Hheld & Hk & Hr & Hiq).
  { unfold iq. destruct (dict_get k (items_queue st)) as [l|] eqn:Hl.
    - exists l. split_and!; [done| |by eapply Hready|done].
      by destruct (Hok k l Hl).
    - exists []. rewrite dict_get_set_eq. split_and!; try done.
      intros k' l'. rewrite dict_get_set. case_decide.
      + intros [= <-]. constructor.
      + apply Hready. }
  rewrite Hheld. simpl.
  assert (task_ready ctx env item) as Hitem.
  { exists sc, b0, b. by rewrite <- Ek. }
  assert (held_ready ctx env (dict_set k (held ++ [item]) iq)) as Hready'.
  { intros k' l'. rewrite dict_get_set.
    destruct (decide (k' = k)) as [->|?].
    - intros [= <-]. apply Forall_app. split; [done|]. by repeat constructor.
    - apply Hiq. }
  case_decide as Hfull.
  - apply (run_held_ready
             {| items_queue := dict_set k (held ++ [item]) iq;
                world := world st; summary_puts := summary_puts st |}
             k (held ++ [item]) sc); simpl; try done.
    + by rewrite dict_get_set_eq.
    + apply Forall_app. split; [done|]. by repeat constructor.
    + apply Forall_app. split; [done|]. by repeat constructor.
  - eexists. split; [done|]. simpl. done.
Qed.

Lemma docking_loop_ready gets : ∀ st rec,
  held_ok ctx (items_queue st) → Forall (batch_ok ctx) (summary_puts st) →
  conserved rec st → held_ready ctx env (items_queue st) →
  Forall (task_ready ctx env) (received gets) →
  ∃ st', docking_loop ctx env st gets = Ok st'
         ∧ held_ok ctx (items_queue st')
         ∧ held_ready ctx env (items_queue st')
         ∧ run_dirs (world st') ⊆ run_dirs (world st).
Proof.
  induction gets as [|g gets IH]; intros st rec Hok Hputs Hcons Hready Hgets.
  - by exists st.
  - change (g :: gets) with ([g] ++ gets) in Hgets.
    rewrite received_app in Hgets. apply Forall_app in Hgets as [Hg Hgets].
    destruct (docking_step_ready st g) as (st1 & H1 & Hr1 & Hd1);
      [done..|].
    pose proof (docking_step_inv ctx env _ _ _ rec Hok Hputs Hcons H1)
      as (Hok1 & Hputs1 & Hcons1).
    destruct (IH st1 (rec ++ received [g])) as (st' & H & ? & ? & ?);
      [done..|].
    exists st'. cbn [docking_loop]. rewrite H1. simpl.
    split_and!; [done..|]. set_solver.
Qed.

End ready_worker.

(** X10.  When running a command ends with an exit status or with the
    timeout, and every task on the docking queue is of a configured scenario
    whose program is of the single-ligand model and has a program whose
    start and completion functions return, the worker takes the whole queue
    without an exception, whatever the pauses between the tasks, and leaves
    no run directory behind. *)
Theorem docking_process_returns (ctx : context) (env : executor_env)
    (w : executor_world) (gets : list queue_get) :
  run_returns env →
  Forall (task_ready ctx env) (received gets) →
  ∃ st, docking_process ctx env w gets = Ok st
        ∧ run_dirs (world st) ⊆ run_dirs w.
Proof.
  intros Hrun Hgets. unfold docking_process.
  destruct (docking_loop_ready ctx env Hrun gets
              {| items_queue := []; world := w; summary_puts := [] |} [])
    as (st1 & -> & Hok & Hready & Hd); [done|constructor|done|done|done|].
  simpl in *.
  destruct (run_all_held_ready ctx env Hrun (dict_keys (items_queue st1)) st1)
    as (st & -> & _ & Hd'); [done..|].
  exists st. split; [done|]. set_solver.
Qed.

Lemma docking_process_returns_witness :
  ∃ st,
    docking_process batching_ctx
      (sample_executor scoring_backends (completed 1 "" "")) empty_world
      sample_gets = Ok st
    ∧ run_dirs (world st) ⊆ run_dirs empty_world.
Proof.
  apply (docking_process_returns batching_ctx
           (sample_executor scoring_backends (completed 1 "" ""))
           empty_world sample_gets).
  - intros cmd t e. simpl. discriminate.
  - assert (∀ s l, s ∈ ["s1"; "s2"] →
              task_ready batching_ctx
                (sample_executor scoring_backends (completed 1 "" ""))
                (submitted_task s l)) as Hready.
    { intros s l Hs.
      assert (∃ sc, dict_get s (docking_scenarios batching_ctx) = Some sc
                    ∧ scenario_program sc = "vina") as (sc & Hsc & Hp).
      { apply elem_of_cons in Hs as [->|Hs]; [by eexists|].
        apply list_elem_of_singleton in Hs as ->. by eexists. }
      eexists sc, _, _. split_and!; [exact Hsc|by rewrite Hp|done|done|].
      eexists _, _. split_and!; [reflexivity|reflexivity|eauto|eauto]. }
    unfold sample_gets, received. simpl.
    repeat constructor; apply Hready; set_solver.
Defined.

(** ** The collections handed to the downloader *)

(** X11.  With the tranche filter on, outside the prescreen mode and with a
    regex that compiles, the loop over the collections of a subjob ends at
    the first collection whose name does not match: the collections before
    it are handed to the downloader, in order, and neither it nor any
    collection after it is, matching or not. *)
Theorem dispatch_stops_at_first_mismatch (ctx : context) (env : environment)
    (search : string → bool) (pre post : dict download_queue_item)
    (k name number : string) (entry : download_queue_item) :
  dynamic_tranche_filtering ctx = 1 →
  compiled_regex env = Some search →
  Forall (tranche_matches search) (dict_keys pre) →
  split_first "_" k = Some (name, number) →
  search name = false →
  ∃ items,
    dispatch_collections ctx env 0 (pre ++ (k, entry) :: post)
    = (items, dispatch_break)
    ∧ download_collection_key <$> items = dict_keys pre.
Proof.
  intros Hon Hre Hpre Hk Hname.
  induction pre as [|[k0 e0] pre IH]; simpl.
  - rewrite Hk, decide_True, Hre, Hname by done. by exists [].
  - apply Forall_cons in Hpre as [(n0 & m0 & Hk0 & Hn0) Hpre].
    simpl in Hk0. rewrite Hk0.
    rewrite decide_True, Hre, Hn0 by done.
    destruct (IH Hpre) as (items & -> & Hkeys).
    eexists. split; [done|]. rewrite fmap_cons, Hkeys. done.
Qed.

Lemma dispatch_stops_at_first_mismatch_witness :
  ∃ items,
    dispatch_collections filtering_ctx
      (annotated_env (Some (fun n => bool_decide (n = "AB")))) 0
      sample_collections = (items, dispatch_break)
    ∧ download_collection_key <$> items = ["AB_1"].
Proof.
  apply (dispatch_stops_at_first_mismatch filtering_ctx
           (annotated_env (Some (fun n => bool_decide (n = "AB"))))
           (fun n => bool_decide (n = "AB"))
           [("AB_1", sample_download "AB_1" None)]
           [("AB_2", sample_download "AB_2" None)]
           "CD_1" "CD" "1" (sample_download "CD_1" None)).
  - reflexivity.
  - reflexivity.
  - repeat constructor. by exists "AB", "1".
  - reflexivity.
  - reflexivity.
Defined.

(** ** Result parsers *)

Lemma try_except_Raise {A} (body : result A) (handler : A) :
  (∀ a, body ≠ Ok a) → try_except body handler = handler.
Proof. destruct body as [a|e]; [|done]. intros H. by destruct (H a). Qed.

(** After a [for item in lines] loop, [item] is a line, unless there was
    none. *)
Lemma for_item_end {S} (body : string → S → result S) lines :
  ∀ item acc item' acc',
    for_item body lines item acc = Ok (item', acc') →
    (lines = [] ∧ item' = item ∧ acc' = acc) ∨ ∃ s, item' = py_str s.
Proof.
  induction lines as [|line lines IH]; intros item acc item' acc'; simpl.
  - intros [= <- <-]. by left.
  - intros (acc1 & _ & H)%bind_Ok. right.
    apply IH in H as [(_ & -> & _)|?]; eauto.
Qed.

Lemma rdock_loop_end fs lines todo :
  ∀ i item score item' score',
    rdock_loop fs lines i todo item score = Ok (item', score') →
    (todo = [] ∧ item' = item ∧ score' = score) ∨ ∃ s, item' = py_str s.
Proof.
  induction todo as [|line todo IH]; intros i item score item' score'; simpl.
  - intros [= <- <-]. by left.
  - intros H. right. case_decide.
    + apply bind_Ok in H as (next & _ & H).
      apply bind_Ok in H as (x & _ & H).
      apply IH in H as [(_ & -> & _)|?]; eauto.
    + apply IH in H as [(_ & -> & _)|?]; eauto.
Qed.

(** Splitting the bindings of a parser that returned. *)
Ltac binds H :=
  repeat (let a := fresh "a" in
          let Ha := fresh "Ha" in
          apply bind_Ok in H as (a & Ha & H);
          try match type of a with
              | (_ * _)%type => destruct a as [? ?]
              end).

Ltac loop_ended :=
  match goal with
  | Hf : for_item _ _ _ _ = Ok _ |- _ =>
      apply for_item_end in Hf as [(_ & -> & ->)|[? ->]]
  | Hf : rdock_loop _ _ _ _ _ _ = Ok _ |- _ =>
      apply rdock_loop_end in Hf as [(_ & -> & ->)|[? ->]]
  end.

Ltac never_returns :=
  apply try_except_Raise; intros ? Hbody; binds Hbody;
  try loop_ended; simpl in *; done.

Lemma docking_finish_rdock_kept fs item rc out err :
  docking_finish_rdock fs item rc out err = Ok (kept item).
Proof. unfold docking_finish_rdock. f_equal. never_returns. Qed.

Lemma docking_finish_mdock_kept fs item rc out err :
  docking_finish_mdock fs item rc out err = Ok (kept item).
Proof. unfold docking_finish_mdock. f_equal. never_returns. Qed.

Lemma docking_finish_mcdock_kept fs item rc out err :
  docking_finish_mcdock fs item rc out err = Ok (kept item).
Proof. unfold docking_finish_mcdock. f_equal. never_returns. Qed.

Lemma docking_finish_ligandfit_kept fs item rc out err :
  is_Some (tmp_run_dir item) →
  docking_finish_ligandfit fs item rc out err = Ok (kept item).
Proof.
  intros [d Hd]. unfold docking_finish_ligandfit, tmp_run_dir_input.
  rewrite Hd. simpl. f_equal. never_returns.
Qed.

Lemma docking_finish_rldock_kept fs item rc out err :
  docking_finish_rldock fs item rc out err = Ok (kept item).
Proof. unfold docking_finish_rldock. f_equal. never_returns. Qed.

Lemma docking_finish_LightDock_kept fs item rc out err :
  docking_finish_LightDock fs item rc out err = Ok (kept item).
Proof. unfold docking_finish_LightDock. f_equal. never_returns. Qed.

Lemma docking_finish_idock_kept fs item rc out err :
  docking_finish_idock fs item rc out err = Ok (kept item).
Proof. unfold docking_finish_idock. f_equal. never_returns. Qed.

Lemma docking_finish_autodock_kept fs item rc out err :
  docking_finish_autodock fs item rc out err = Ok (kept item).
Proof. unfold docking_finish_autodock. f_equal. never_returns. Qed.

(** A character holds at most one field. *)
Lemma fields_letter c : (length (fields (String c EmptyString)) ≤ 1)%nat.
Proof.
  unfold fields. simpl. case_decide.
  - rewrite !filter_cons_False, filter_nil by naive_solver. simpl. lia.
  - destruct (decide (String c EmptyString ≠ EmptyString)).
    + rewrite filter_cons_True by done. simpl. lia.
    + rewrite filter_cons_False by done. simpl. lia.
Qed.

Lemma adfr_line_letter fs c docking_scores :
  adfr_line fs (String c EmptyString) docking_scores = Ok docking_scores.
Proof.
  unfold adfr_line. f_equal. apply try_except_Raise. intros a H.
  apply bind_Ok in H as (x & _ & H). apply bind_Ok in H as (a2 & H2 & _).
  apply bind_Ok in H2 as (y & Hy & _). unfold list_getitem in Hy.
  pose proof (fields_letter c) as Hlen.
  destruct (fields (String c EmptyString) !! 1%nat) eqn:Hl; [|done].
  apply lookup_lt_Some in Hl. lia.
Qed.

Lemma adfr_loop fs s : ∀ item acc item' acc',
  for_item (adfr_line fs) (letters s) item acc = Ok (item', acc') →
  acc' = acc.
Proof.
  induction s as [|c s IH]; intros item acc item' acc';
    cbn [letters for_item].
  - by intros [= _ <-].
  - rewrite adfr_line_letter. simpl. apply IH.
Qed.

Lemma docking_finish_adfr_kept fs item rc out err :
  docking_finish_adfr fs item rc out err = Ok (kept item).
Proof.
  unfold docking_finish_adfr. f_equal. apply try_except_Raise.
  intros a H. apply bind_Ok in H as ([item' scores] & Hloop & H).
  apply adfr_loop in Hloop as ->. done.
Qed.

(** X12.  The result parsers of rDock, MDock, MCDock, LigandFit, RLDock,
    LightDock, iDock, AutoDock and ADFR never report a score: whatever the
    program printed and wrote, and whatever reading it gives, the completion
    of a task of one of these programs returns and leaves the task as it
    was, with the status [failed]. *)
Theorem looping_parsers_never_succeed (env : executor_env) (fs : parser_env)
    (item : docking_item) (returncode : Z) (stdout stderr : string)
    (b : backend)
    (f : docking_item → Z → string → string → result (Q + string)) :
  DOCKING_PROGRAMS env !! program item = Some b →
  finish b = Some f →
  f ∈ looping_parsers fs →
  is_Some (tmp_run_dir item) →
  process_docking_completion env item returncode stdout stderr
  = Ok (marked_failed item).
Proof.
  intros Hb Hf Hin Hdir. unfold process_docking_completion. simpl.
  rewrite Hb, Hf. fold (marked_failed item).
  assert (f (marked_failed item) returncode stdout stderr
          = Ok (kept (marked_failed item))) as ->.
  { unfold looping_parsers in Hin.
    repeat (apply elem_of_cons in Hin as [->|Hin]).
    - apply docking_finish_rdock_kept.
    - apply docking_finish_mdock_kept.
    - apply docking_finish_mcdock_kept.
    - by apply docking_finish_ligandfit_kept.
    - apply docking_finish_rldock_kept.
    - apply docking_finish_LightDock_kept.
    - apply docking_finish_idock_kept.
    - apply docking_finish_autodock_kept.
    - apply docking_finish_adfr_kept.
    - by apply elem_of_nil in Hin. }
  simpl. destruct item as [? ? ? ? ? ? ? ? ? ? ? ? ? ? ? [[? ? ? ?]|]]; done.
Qed.

Lemma looping_parsers_never_succeed_witness :
  process_docking_completion
    (sample_executor rdock_backends (completed 0 "" "")) rdock_task 0 "" ""
  = Ok (marked_failed rdock_task).
Proof.
  apply (looping_parsers_never_succeed
           (sample_executor rdock_backends (completed 0 "" "")) rdock_output
           rdock_task 0 "" ""
           {| start := Some (fun t => Ok ["rbdock"; "-i"; ligand_path t]);
              finish := Some (docking_finish_rdock rdock_output);
              model := Some "single" |}
           (docking_finish_rdock rdock_output)).
  - reflexivity.
  - reflexivity.
  - unfold looping_parsers. apply elem_of_cons. by left.
  - by eexists.
Defined.

(** ** Command builders *)

Lemma dict_of_pairs_nil {V} (pairs : list (string * V)) :
  dict_of_pairs pairs = [] → pairs = [].
Proof.
  destruct pairs as [|[k v] pairs] using rev_ind; [done|].
  rewrite dict_of_pairs_snoc. by destruct (dict_of_pairs pairs) as [|[] ?];
    simpl; [|case_decide].
Qed.

Lemma config_of_lines (lines : list string) :
  let config_ : dict string := dict_of_pairs (read_config_line <$> lines) in
  config_of (Ok lines)
  = Ok ((prod_map id uncomment <$> config_) : dict string,
        last (dict_keys config_)).
Proof.
  unfold config_of. simpl.
  pose proof (dict_of_pairs_NoDup (read_config_line <$> lines)) as Hnd.
  pose proof (cut_comments_map (dict_of_pairs (read_config_line <$> lines))
                [] Hnd) as Hcut.
  simpl in Hcut. by rewrite Hcut.
Qed.

Lemma config_of_rebound (config_lines : result (list string)) :
  match config_lines with
  | Raise e => config_of config_lines = Raise e
  | Ok [] => config_of config_lines = Ok ([], None)
  | Ok (_ :: _) =>
      ∃ config_ k, config_of config_lines = Ok (config_, Some k)
  end.
Proof.
  destruct config_lines as [lines|e]; [|done].
  rewrite config_of_lines. cbv zeta. destruct lines as [|line lines]; [done|].
  destruct (last (dict_keys (dict_of_pairs
                               (read_config_line <$> line :: lines))))
    as [k|] eqn:Hlast; [eauto|].
  apply last_None in Hlast. apply fmap_nil_inv in Hlast.
  by apply dict_of_pairs_nil in Hlast.
Qed.

(** X13.  [docking_start_idock] and [docking_start_autodock] never return a
    command.  When the configuration file cannot be read they end with its
    exception; when it has a line, the loop over its keys has rebound the
    variable of the task to a key, and the first read of the task raises a
    [TypeError]; when it is empty, the read of the receptor raises a
    [KeyError]. *)
Theorem idock_and_autodock_never_start (config_lines : result (list string))
    (tools_path arch_type : string) (item : docking_item) :
  docking_start_idock config_lines tools_path item
  = Raise (rebinding_error config_lines)
  ∧ docking_start_autodock config_lines tools_path item arch_type
    = Raise (rebinding_error config_lines).
Proof.
  unfold docking_start_idock, docking_start_autodock.
  pose proof (config_of_rebound config_lines) as H.
  destruct config_lines as [[|line lines]|e]; simpl rebinding_error.
  - by rewrite H.
  - destruct H as (config_ & k & ->). done.
  - by rewrite H.
Qed.

(** ** [get_attrs] reads no further than its count of matches *)

Lemma attr_lines_stops re n pre post : ∀ attributes found,
  pre ≠ [] →
  (n ≤ found + matches_in re pre)%nat →
  attr_lines re n (pre ++ post) attributes found
  = attr_lines re n pre attributes found.
Proof.
  induction pre as [|line pre IH]; intros attributes found Hne Hn; [done|].
  cbn [app attr_lines]. unfold matches_in in Hn.
  rewrite fmap_cons in Hn. cbn [sum_list sum_list_with] in Hn.
  unfold matches_on in Hn at 1. cbv zeta in Hn.
  destruct (search_smiles_current re (strip line));
    destruct (search_smiles re (strip line));
    destruct (search_heavy_atom_count re (strip line));
    simpl in Hn; case_decide; try done;
    (destruct pre as [|line' pre]; [simpl in Hn; lia|]);
    apply IH; try done; unfold matches_in; lia.
Qed.

(** X14.  [get_attrs] counts the matches of its searches, not the attributes
    it has found, and stops at the line where the count reaches the number
    of requested attributes: on a file of a valid format, the lines after a
    non-empty beginning that holds that many matches are never read, so an
    attribute first given there stays ["N/A"]. *)
Theorem get_attrs_reads_no_further (re : attr_searches)
    (ligand_format : string) (pre post : list string)
    (attrs : list string) :
  pre ≠ [] →
  (length attrs ≤ matches_in re pre)%nat →
  get_attrs re ligand_format (pre ++ post) attrs
  = get_attrs re ligand_format pre attrs.
Proof.
  intros Hne Hn. unfold get_attrs. case_decide; [|done].
  by apply attr_lines_stops.
Qed.

Lemma get_attrs_reads_no_further_witness :
  get_attrs sample_searches "pdbqt"
    (["REMARK    * Heavy atom count: 21"] ++ ["REMARK    SMILES: CCO"])
    ["smi"]
  = [("smi", "N/A"); ("heavy_atom_count", "21")].
Proof.
  etransitivity.
  - apply (get_attrs_reads_no_further sample_searches "pdbqt"
             ["REMARK    * Heavy atom count: 21"] ["REMARK    SMILES: CCO"]
             ["smi"]); [done|vm_compute; lia].
  - reflexivity.
Defined.

(** ** Inline comments *)

Section inline_comments.

#[local] Arguments String.append !_ _ / : simpl nomatch.

Lemma blank_contains c pad :
  isspace c = false → blank pad = true → contains c pad = false.
Proof.
  intros Hc. induction pad as [|a pad IH]; simpl; [done|].
  intros [Ha ?]%andb_prop. case_decide as Heq; [congruence|auto].
Qed.

Lemma rstrip_comment s c :
  rstrip c = c → rstrip (s +:+ "#" +:+ c) = s +:+ "#" +:+ c.
Proof.
  intros Hc.
  assert (rstrip ("#" +:+ c) = "#" +:+ c) as Hr.
  { simpl. rewrite Hc. by destruct c. }
  rewrite rstrip_app; rewrite Hr; done.
Qed.

(** X15.  [load_config] cuts a value at its first [#] and does not strip it
    again: on a line [key=value  # comment] the value keeps the whitespace
    that stood before the comment. *)
Theorem load_config_keeps_space_before_comment (k v pad c : string) :
  strip k = k → contains "=" k = false →
  lstrip v = v → v ≠ "" → contains "#" v = false →
  blank pad = true → rstrip c = c →
  load_config [k +:+ "=" +:+ v +:+ pad +:+ "#" +:+ c] = Ok [(k, v +:+ pad)].
Proof.
  intros [Hkl Hkr]%strip_fixed Hk Hv Hne Hvc Hpad Hc.
  assert (strip (v +:+ pad +:+ "#" +:+ c) = v +:+ pad +:+ "#" +:+ c)
    as Hval.
  { unfold strip. rewrite lstrip_fixed_app by done.
    replace (v +:+ pad +:+ "#" +:+ c) with ((v +:+ pad) +:+ "#" +:+ c)
      by (by rewrite !append_assoc).
    by apply rstrip_comment. }
  assert (read_config_line (k +:+ "=" +:+ v +:+ pad +:+ "#" +:+ c)
          = (k, v +:+ pad +:+ "#" +:+ c)) as Hline.
  { unfold read_config_line.
    assert (strip (k +:+ "=" +:+ v +:+ pad +:+ "#" +:+ c)
            = k +:+ String "=" (v +:+ pad +:+ "#" +:+ c)) as ->.
    { unfold strip.
      assert (lstrip (k +:+ "=" +:+ v +:+ pad +:+ "#" +:+ c)
              = k +:+ "=" +:+ v +:+ pad +:+ "#" +:+ c) as ->.
      { destruct (decide (k = "")) as [->|Hke]; [done|].
        by apply lstrip_fixed_app. }
      replace (k +:+ "=" +:+ v +:+ pad +:+ "#" +:+ c)
        with ((k +:+ "=" +:+ v +:+ pad) +:+ "#" +:+ c)
        by (by rewrite !append_assoc).
      rewrite rstrip_comment by done. by rewrite !append_assoc. }
    unfold partition. rewrite split_first_app by done.
    rewrite Hval. unfold strip. by rewrite Hkl, Hkr. }
  unfold load_config. cbn [fmap list_fmap]. rewrite Hline.
  cbn [dict_of_pairs foldl dict_set dict_keys fmap list_fmap fst snd
       cut_comments].
  unfold cut_comment. cbn [dict_get]. rewrite decide_True by done.
  cbn [getitem mbind result_bind].
  assert (contains "#" (v +:+ pad) = false) as Hclean.
  { rewrite contains_app, Hvc. simpl. by apply blank_contains. }
  rewrite <- (append_assoc v pad), contains_app.
  replace (contains "#" ("#" +:+ c)) with true by (simpl; by try case_decide).
  rewrite orb_true_r. cbn [dict_set]. rewrite decide_True by done.
  unfold before_first. change ("#" +:+ c) with (String "#" c).
  by rewrite split_first_app.
Qed.

Lemma load_config_keeps_space_before_comment_witness :
  load_config ["receptor=protein.pdbqt   # the target"]
  = Ok [("receptor", "protein.pdbqt   ")].
Proof.
  apply (load_config_keeps_space_before_comment
           "receptor" "protein.pdbqt" "   " " the target"); done.
Defined.

End inline_comments.
